(** * clickedu_docs_overlay: abuse mitigation and telemetry delivery

    A shallow embedding of the client-side rate limiter, the lockout
    manager and the event batching pipeline of [security-logger.js] /
    [rate-limiter.js], of the request handler and the event classifier of
    the logging worker ([logging-service.js]) and of the hash history of
    [data-integrity.js], followed by the properties the specification
    states about them and by further properties of the same code.

    Conventions of the embedding.
    - JavaScript numbers that the code uses as counters and millisecond
      timestamps are integers ([Z]); the only non-finite value the code can
      produce, [Math.min()] of no argument, is kept as an infinity.
    - The module-level variables of the client script, [localStorage], the
      clock behind [Date.now()] and the record of issued [fetch] calls form
      one explicit [World]; every function of the script is a state
      transformer over it.
    - An [async] function is split at its [await]: the part that runs
      synchronously when the function is called, and the continuation that
      runs when the awaited promise settles. *)

From Stdlib Require Import ZArith String List Lia.
From stdpp Require Import base option list gmap strings pretty.

Local Open Scope Z_scope.

(** ** JavaScript numbers *)

Module JSNumber.

Inductive Number : Type :=
| Finite (z : Z)
| PosInfinity
| NegInfinity.

(** [Math.min(...xs)]: [Infinity] when [xs] is empty. *)
Definition Math_min (xs : list Z) : Number :=
  match xs with
  | [] => PosInfinity
  | x :: rest => Finite (foldl Z.min x rest)
  end.

(** [a - b] for a finite [a]. *)
Definition sub_from (a : Z) (b : Number) : Number :=
  match b with
  | Finite z => Finite (a - z)
  | PosInfinity => NegInfinity
  | NegInfinity => PosInfinity
  end.

(** The ceiling of [z / d] for a positive [d]. *)
Definition ceil_div (z d : Z) : Z := - ((- z) / d).

(** [Math.ceil(x / d)]. *)
Definition Math_ceil_div (x : Number) (d : Z) : Number :=
  match x with
  | Finite z => Finite (ceil_div z d)
  | PosInfinity => PosInfinity
  | NegInfinity => NegInfinity
  end.

(** [x > 0]. *)
Definition positive (x : Number) : Prop :=
  match x with
  | Finite z => 0 < z
  | PosInfinity => True
  | NegInfinity => False
  end.

End JSNumber.
Export JSNumber.

(** [haystack.includes(needle)] on strings. *)
Fixpoint includes (needle haystack : string) : bool :=
  String.prefix needle haystack
  || match haystack with
     | EmptyString => false
     | String _ rest => includes needle rest
     end.

(** ** The world of the client script *)

Inductive MetaValue : Type :=
| MNum (n : Number)
| MStr (s : string)
| MBool (b : bool).

(** The object built by [logSecurityEventToServer]. *)
Record Event : Type := mkEvent {
  eventType : string;
  sessionId : string;
  eventNumber : Z;
  sessionDuration : Z;
  url : string;
  metadata : gmap string MetaValue
}.

(** [generateBatchId()]: the clock reading and which draw of
    [Math.random()] it was built from. *)
Record BatchId : Type := mkBatchId {
  batchTime : Z;
  batchDraw : nat
}.

(** The JSON body of one [fetch] call of [flushEvents]. *)
Record Request : Type := mkRequest {
  events : list Event;
  batchId : BatchId
}.

(** How the promise returned by [fetch] settles. *)
Inductive FetchOutcome : Type :=
| Response (status : Z)
| Rejected.

(** [response.ok] *)
Definition response_ok (status : Z) : bool :=
  (200 <=? status) && (status <=? 299).

Record Violation : Type := mkViolation {
  violation_timestamp : Z;
  violation_reason : string
}.

Record Lockout : Type := mkLockout {
  lockout_until : Z;
  lockout_reason : string;
  lockout_timestamp : Z
}.

(** The text kept under one [localStorage] key: either what
    [JSON.stringify] wrote for a value of the shape the reader expects, or
    text that the reader's [JSON.parse] rejects. *)
Inductive Stored (A : Type) : Type :=
| Json (a : A)
| Garbled.
Arguments Json {A} a.
Arguments Garbled {A}.

(** [localStorage], by key family: the attempt lists under
    [ratelimit_<action>] (keyed here by the full key), the lockout record
    under [ratelimit_lockout] and the violation history under
    [ratelimit_lockout_violations].  No limiter of the script is named
    [lockout] or [lockout_violations], so the families do not overlap; a
    limiter with such a name would share a key with the lockout manager,
    which this record cannot express, and nothing is stated below about
    what such a limiter does to the lockout record or the violation
    history. *)
Record Storage : Type := mkStorage {
  attemptItems : gmap string (Stored (list Z));
  lockoutItem : option (Stored Lockout);
  violationsItem : option (Stored (list Violation))
}.

(** [Date.now()]: the readings the clock will give, and how many were
    taken. *)
Record Clock : Type := mkClock {
  readings : nat -> Z;
  ticks : nat
}.

(** What the page provides and the script only reads.
    [enableSecurityLogging] is [SECURITY_CONFIG.enableSecurityLogging],
    declared in [bookmarklet.js]. *)
Record Env : Type := mkEnv {
  enableSecurityLogging : bool;
  env_sessionId : string;
  sessionStartTime : Z;
  location_href : string;
  userAgent : string;
  language : string;
  screenResolution : string;
  timeZone : string
}.

(** The module variables of [security-logger.js] and the [fetch] calls
    issued so far, oldest first. *)
Record Logger : Type := mkLogger {
  eventQueue : list Event;
  flushTimer : bool;
  eventCounter : Z;
  randomDraws : nat;
  fetched : list Request
}.

Record World : Type := mkWorld {
  env : Env;
  clock : Clock;
  localStorage : Storage;
  logger : Logger
}.

Definition with_clock (c : Clock) (w : World) : World :=
  mkWorld (env w) c (localStorage w) (logger w).
Definition with_localStorage (s : Storage) (w : World) : World :=
  mkWorld (env w) (clock w) s (logger w).
Definition with_logger (l : Logger) (w : World) : World :=
  mkWorld (env w) (clock w) (localStorage w) l.

(** ** State transformers *)

Definition M (A : Type) : Type := World -> A * World.

Definition ret {A} (a : A) : M A := fun w => (a, w).
Definition bind {A B} (m : M A) (k : A -> M B) : M B :=
  fun w => let (a, w') := m w in k a w'.

Declare Scope js_scope.
Delimit Scope js_scope with js.
Notation "'let*' x ':=' m 'in' k" := (bind m (fun x => k))
  (at level 10, x name, m at level 100, k at level 200) : js_scope.
Notation "'exec' m 'in' k" := (bind m (fun _ => k))
  (at level 10, m at level 100, k at level 200) : js_scope.
Local Open Scope js_scope.

Definition get {A} (f : World -> A) : M A := fun w => (f w, w).
Definition modify (f : World -> World) : M unit := fun w => (tt, f w).

(** Run [m] [n] times in a row and collect the results. *)
Fixpoint repeatM {A} (n : nat) (m : M A) : M (list A) :=
  match n with
  | O => ret []
  | S n' =>
      let* a := m in
      let* rest := repeatM n' m in
      ret (a :: rest)
  end.

(** [xs.filter(p)] for a predicate that has effects: [p] is called on each
    element in order. *)
Fixpoint filterM {A} (p : A -> M bool) (xs : list A) : M (list A) :=
  match xs with
  | [] => ret []
  | x :: rest =>
      let* keep := p x in
      let* rest' := filterM p rest in
      ret (if keep then x :: rest' else rest')
  end.

Definition Date_now : M Z :=
  fun w =>
    let c := clock w in
    (readings c (ticks c), with_clock (mkClock (readings c) (S (ticks c))) w).

Definition set_eventQueue (q : list Event) (l : Logger) : Logger :=
  mkLogger q (flushTimer l) (eventCounter l) (randomDraws l) (fetched l).
Definition set_flushTimer (t : bool) (l : Logger) : Logger :=
  mkLogger (eventQueue l) t (eventCounter l) (randomDraws l) (fetched l).
Definition set_eventCounter (n : Z) (l : Logger) : Logger :=
  mkLogger (eventQueue l) (flushTimer l) n (randomDraws l) (fetched l).
Definition set_randomDraws (n : nat) (l : Logger) : Logger :=
  mkLogger (eventQueue l) (flushTimer l) (eventCounter l) n (fetched l).
Definition set_fetched (rs : list Request) (l : Logger) : Logger :=
  mkLogger (eventQueue l) (flushTimer l) (eventCounter l) (randomDraws l) rs.

Definition modify_logger (f : Logger -> Logger) : M unit :=
  modify (fun w => with_logger (f (logger w)) w).
Definition modify_storage (f : Storage -> Storage) : M unit :=
  modify (fun w => with_localStorage (f (localStorage w)) w).

Definition Math_random : M nat :=
  let* n := get (fun w => randomDraws (logger w)) in
  exec modify_logger (set_randomDraws (S n)) in
  ret n.

(** ** security-logger.js: the event queue and its delivery *)

Definition LOGGING_CONFIG_enabled : bool := true.
Definition LOGGING_CONFIG_batchSize : Z := 10.
Definition LOGGING_CONFIG_flushInterval : Z := 30000.

Definition generateBatchId : M BatchId :=
  let* t := Date_now in
  let* r := Math_random in
  ret (mkBatchId t r).

(** [fetch(endpoint, { ..., body })]: the request leaves the page. *)
Definition fetch (body : Request) : M unit :=
  modify_logger (fun l => set_fetched (fetched l ++ [body]) l).

(** [flushEvents()] up to its [await fetch(...)].  The result is the local
    [eventsToSend] that the suspended call holds, or [None] when the call
    returned at once because the queue was empty. *)
Definition flushEvents_begin : M (option (list Event)) :=
  let* queue := get (fun w => eventQueue (logger w)) in
  if (Z.of_nat (length queue) =? 0) then ret None
  else
    let eventsToSend := queue in
    exec modify_logger (set_eventQueue []) in
    let* timer := get (fun w => flushTimer (logger w)) in
    exec (if timer then modify_logger (set_flushTimer false) else ret tt) in
    let* id := generateBatchId in
    exec fetch (mkRequest eventsToSend id) in
    ret (Some eventsToSend).

(** [eventQueue.unshift(...eventsToSend)] *)
Definition requeue (eventsToSend : list Event) : M unit :=
  modify_logger (fun l => set_eventQueue (eventsToSend ++ eventQueue l) l).

(** [flushEvents()] from the point where the promise of [fetch] settles:
    the [if (!response.ok)] of the [try] block, or the [catch] block. *)
Definition flushEvents_resume (eventsToSend : list Event)
    (outcome : FetchOutcome) : M unit :=
  match outcome with
  | Response status =>
      if negb (response_ok status) then
        if (Z.of_nat (length eventsToSend) <? 100) then requeue eventsToSend
        else ret tt
      else ret tt
  | Rejected =>
      if (Z.of_nat (length eventsToSend) <? 100) then requeue eventsToSend
      else ret tt
  end.

Definition scheduleFlush : M unit :=
  let* timer := get (fun w => flushTimer (logger w)) in
  if timer then ret tt
  else modify_logger (set_flushTimer true).

(** The callback of the timer set by [scheduleFlush]. *)
Definition flushTimer_fires : M (option (list Event)) := flushEvents_begin.

(** The event object of [logSecurityEventToServer]. *)
Definition build_event (e : Env) (eventType : string)
    (metadata : gmap string MetaValue) (number now : Z) : Event :=
  mkEvent eventType (env_sessionId e) number (now - sessionStartTime e)
    (location_href e)
    (<["timezone" := MStr (timeZone e)]>
       (<["screenResolution" := MStr (screenResolution e)]>
          (<["language" := MStr (language e)]>
             (<["userAgent" := MStr (userAgent e)]> metadata)))).

(** [logSecurityEventToServer(eventType, metadata)] as far as it runs
    before it suspends; no caller awaits it.  The result is the
    [eventsToSend] of the flush it is suspended in, if any. *)
Definition logSecurityEventToServer (eventType : string)
    (metadata : gmap string MetaValue) : M (option (list Event)) :=
  if negb LOGGING_CONFIG_enabled then ret None
  else
    let* e := get env in
    let* n := get (fun w => eventCounter (logger w)) in
    exec modify_logger (set_eventCounter (n + 1)) in
    let* now := Date_now in
    let event := build_event e eventType metadata (n + 1) now in
    exec modify_logger (fun l => set_eventQueue (eventQueue l ++ [event]) l) in
    let* queue := get (fun w => eventQueue (logger w)) in
    if (Z.of_nat (length queue) >=? LOGGING_CONFIG_batchSize)
    then flushEvents_begin
    else exec scheduleFlush in ret None.

Definition getEventTypeFromMessage (level message : string) : string :=
  if includes "Blocked" message then "security_block"
  else if includes "opened Google Sheets" message then "sheet_edit_accessed"
  else if includes "User opened:" message then "document_clicked"
  else if includes "Bookmarklet initialized" message then "overlay_opened"
  else if includes "Failed to load" message then "error"
  else "security_event".

(** [logSecurity(level, message, metadata)]; what it prints on the console
    is not part of the world. *)
Definition logSecurity (level message : string)
    (metadata : gmap string MetaValue) : M unit :=
  let* enabled := get (fun w => enableSecurityLogging (env w)) in
  if negb enabled then ret tt
  else
    let eventType := getEventTypeFromMessage level message in
    exec logSecurityEventToServer eventType
           (metadata ∪ <["message" := MStr message]>
                         (<["level" := MStr level]> ∅)) in
    ret tt.

(** ** rate-limiter.js *)

Definition RATE_LIMIT_CONFIG_maxOverlayOpens : Z := 20.
Definition RATE_LIMIT_CONFIG_overlayWindow : Z := 60000.
Definition RATE_LIMIT_CONFIG_maxDocumentClicks : Z := 50.
Definition RATE_LIMIT_CONFIG_documentWindow : Z := 60000.
Definition RATE_LIMIT_CONFIG_maxFailedAttempts : Z := 5.
Definition RATE_LIMIT_CONFIG_lockoutDuration : Z := 300000.
Definition RATE_LIMIT_CONFIG_storagePrefix : string := "ratelimit_".

Module RateLimiter.

(** The fields set by the constructor; [storageKey] is derived. *)
Record t : Type := new {
  action : string;
  maxAttempts : Z;
  windowMs : Z
}.

Definition storageKey (this : t) : string :=
  RATE_LIMIT_CONFIG_storagePrefix +:+ action this.

(** What [isAllowed] returns. *)
Inductive Verdict : Type :=
| Allowed (remainingAttempts : Z)
| Denied (timeToWait : Number).

Definition allowed (v : Verdict) : bool :=
  match v with
  | Allowed _ => true
  | Denied _ => false
  end.

Definition getAttempts (this : t) : M (list Z) :=
  let* stored :=
    get (fun w => attemptItems (localStorage w) !! storageKey this) in
  match stored with
  | Some (Json attempts) => ret attempts
  | Some Garbled => ret []
  | None => ret []
  end.

Definition saveAttempts (this : t) (attempts : list Z) : M unit :=
  modify_storage (fun s =>
    mkStorage (<[storageKey this := Json attempts]> (attemptItems s))
              (lockoutItem s) (violationsItem s)).

Definition reset (this : t) : M unit :=
  modify_storage (fun s =>
    mkStorage (delete (storageKey this) (attemptItems s))
              (lockoutItem s) (violationsItem s)).

Definition isAllowed (this : t) : M Verdict :=
  let* now := Date_now in
  let* attempts := getAttempts this in
  let validAttempts :=
    filter (fun timestamp => now - timestamp < windowMs this) attempts in
  if (Z.of_nat (length validAttempts) >=? maxAttempts this) then
    let oldestAttempt := Math_min validAttempts in
    let timeToWait :=
      sub_from (windowMs this) (sub_from now oldestAttempt) in
    exec logSecurity "warn" ("Rate limit exceeded for " +:+ action this)
           (<["timeToWait" := MNum (Math_ceil_div timeToWait 1000)]>
              (<["maxAttempts" := MNum (Finite (maxAttempts this))]>
                 (<["attempts" :=
                      MNum (Finite (Z.of_nat (length validAttempts)))]> ∅)))
    in
    ret (Denied (Math_ceil_div timeToWait 1000))
  else
    let validAttempts := validAttempts ++ [now] in
    exec saveAttempts this validAttempts in
    ret (Allowed (maxAttempts this - Z.of_nat (length validAttempts))).

End RateLimiter.

Module LockoutManager.

(** What [isLockedOut] returns: the bare [false], the record
    [{ locked: false }], or the record
    [{ locked: true, timeRemaining, reason }]. *)
Inductive Status : Type :=
| BareFalse
| Unlocked
| Locked (timeRemaining : Z) (reason : string).

(** [status.locked] as a condition, the way the callers read it: the
    property is [undefined] on the bare [false]. *)
Definition locked (s : Status) : bool :=
  match s with
  | BareFalse => false
  | Unlocked => false
  | Locked _ _ => true
  end.

(** The returned value itself as a condition: the boolean [false] counts
    as false, a record counts as true whatever it holds. *)
Definition ToBoolean (s : Status) : bool :=
  match s with
  | BareFalse => false
  | Unlocked => true
  | Locked _ _ => true
  end.

Definition getLockout : M (option Lockout) :=
  let* stored := get (fun w => lockoutItem (localStorage w)) in
  match stored with
  | Some (Json lockout) => ret (Some lockout)
  | Some Garbled => ret None
  | None => ret None
  end.

Definition getViolations : M (list Violation) :=
  let* stored := get (fun w => violationsItem (localStorage w)) in
  match stored with
  | Some (Json violations) => ret violations
  | Some Garbled => ret []
  | None => ret []
  end.

Definition saveViolations (violations : list Violation) : M unit :=
  modify_storage (fun s =>
    mkStorage (attemptItems s) (lockoutItem s) (Some (Json violations))).

Definition clearLockout : M unit :=
  exec modify_storage (fun s =>
         mkStorage (attemptItems s) None (violationsItem s)) in
  modify_storage (fun s =>
    mkStorage (attemptItems s) (lockoutItem s) None).

Definition isLockedOut : M Status :=
  let* lockout := getLockout in
  match lockout with
  | None => ret BareFalse
  | Some lockout =>
      let* now := Date_now in
      if (now <? lockout_until lockout) then
        let timeRemaining := ceil_div (lockout_until lockout - now) 1000 in
        ret (Locked timeRemaining (lockout_reason lockout))
      else
        exec clearLockout in
        ret Unlocked
  end.

Definition lockout (reason : string) : M unit :=
  let* t1 := Date_now in
  let* t2 := Date_now in
  let lockout :=
    mkLockout (t1 + RATE_LIMIT_CONFIG_lockoutDuration) reason t2 in
  exec modify_storage (fun s =>
         mkStorage (attemptItems s) (Some (Json lockout))
                   (violationsItem s)) in
  logSecurity "error" "User locked out due to repeated violations"
    (<["duration" :=
         MNum (Finite (RATE_LIMIT_CONFIG_lockoutDuration / 1000))]>
       (<["reason" := MStr reason]> ∅)).

Definition recordViolation (reason : string) : M bool :=
  let* violations := getViolations in
  let* t := Date_now in
  let violations := violations ++ [mkViolation t reason] in
  let* recentViolations :=
    filterM (fun v =>
               let* now := Date_now in
               ret (now - violation_timestamp v <? 300000))
            violations in
  exec saveViolations recentViolations in
  if (Z.of_nat (length recentViolations)
      >=? RATE_LIMIT_CONFIG_maxFailedAttempts)
  then
    exec lockout reason in
    ret true
  else ret false.

End LockoutManager.

Definition overlayLimiter : RateLimiter.t :=
  RateLimiter.new "overlay_open" RATE_LIMIT_CONFIG_maxOverlayOpens
    RATE_LIMIT_CONFIG_overlayWindow.

Definition documentLimiter : RateLimiter.t :=
  RateLimiter.new "document_click" RATE_LIMIT_CONFIG_maxDocumentClicks
    RATE_LIMIT_CONFIG_documentWindow.

(** What a wrapped user action ends in: one of the three alerts, or the
    original action. *)
Inductive Handled : Type :=
| AccessBlocked (reason : string) (timeRemaining : Z)
| LockedOutNow
| RateLimited (timeToWait : Number)
| Proceeded.

(** [openOverlay()] as wrapped by [rate-limiter.js].  The declaration
    [function openOverlay] is hoisted, so when
    [const originalOpenOverlay = openOverlay] runs on the line before it,
    [openOverlay] already is the wrapper: the call [originalOpenOverlay()]
    of an allowed open enters the wrapper again.  [depth] is the number of
    calls the stack has room for, and [None] the [RangeError] of a stack
    that is full. *)
Fixpoint openOverlay (depth : nat) : M (option Handled) :=
  match depth with
  | O => ret None
  | S depth =>
      let* lockout := LockoutManager.isLockedOut in
      match lockout with
      | LockoutManager.Locked timeRemaining reason =>
          ret (Some (AccessBlocked reason timeRemaining))
      | LockoutManager.BareFalse | LockoutManager.Unlocked =>
          let* rateCheck := RateLimiter.isAllowed overlayLimiter in
          match rateCheck with
          | RateLimiter.Denied timeToWait =>
              let* shouldLockout :=
                LockoutManager.recordViolation
                  "Rate limit exceeded for overlay opens" in
              if shouldLockout then ret (Some LockedOutNow)
              else ret (Some (RateLimited timeToWait))
          | RateLimiter.Allowed _ => openOverlay depth
          end
      end
  end.

(** The capturing [click] listener of [addRateLimitToDocumentClicks], for
    a click on a document button.  It does not consult the lockout. *)
Definition documentClickListener : M Handled :=
  let* rateCheck := RateLimiter.isAllowed documentLimiter in
  match rateCheck with
  | RateLimiter.Denied timeToWait =>
      let* shouldLockout :=
        LockoutManager.recordViolation
          "Rate limit exceeded for document clicks" in
      if shouldLockout then ret LockedOutNow
      else ret (RateLimited timeToWait)
  | RateLimiter.Allowed _ => ret Proceeded
  end.


(** [showRateLimitStatus()], which a timer calls every 30 seconds.  The
    result is what it prints: the two counts and the status of the
    lockout. *)
Definition showRateLimitStatus
    : M (nat * nat * LockoutManager.Status) :=
  let* overlayAttempts := RateLimiter.getAttempts overlayLimiter in
  let* documentAttempts := RateLimiter.getAttempts documentLimiter in
  let* lockout := LockoutManager.isLockedOut in
  ret (length overlayAttempts, length documentAttempts, lockout).

(** The [beforeunload] listener of [security-logger.js].  The result is
    the payload handed to [navigator.sendBeacon], if any. *)
Definition beforeunload : M (option Request) :=
  let* queue := get (fun w => eventQueue (logger w)) in
  if (Z.of_nat (length queue) >? 0) then
    let* id := generateBatchId in
    ret (Some (mkRequest queue id))
  else ret None.

(** *** The turns of the event loop

    The page as the event loop sees it: the world, and the calls of
    [flushEvents] that are suspended at their [await], each holding its
    [eventsToSend], oldest first. *)
Record Page : Type := mkPage {
  world : World;
  suspended : list (list Event)
}.

(** One turn: a call of [logSecurityEventToServer] (from [logSecurity] or
    from a handler), the timeout of [scheduleFlush] firing, or the promise
    awaited by a suspended flush settling. *)
Inductive Turn : Type :=
| Logs (eventType : string) (metadata : gmap string MetaValue)
| TimerFires
| Settles (i : nat) (outcome : FetchOutcome).

Definition suspend (held : option (list Event)) (calls : list (list Event))
    : list (list Event) :=
  match held with
  | Some eventsToSend => calls ++ [eventsToSend]
  | None => calls
  end.

Definition turn (t : Turn) (p : Page) : Page :=
  match t with
  | Logs eventType metadata =>
      let (held, w') := logSecurityEventToServer eventType metadata (world p) in
      mkPage w' (suspend held (suspended p))
  | TimerFires =>
      if flushTimer (logger (world p)) then
        let (held, w') := flushTimer_fires (world p) in
        mkPage w' (suspend held (suspended p))
      else p
  | Settles i outcome =>
      match suspended p !! i with
      | Some eventsToSend =>
          mkPage (snd (flushEvents_resume eventsToSend outcome (world p)))
                 (delete i (suspended p))
      | None => p
      end
  end.

Definition turns (ts : list Turn) (p : Page) : Page :=
  foldl (fun p t => turn t p) p ts.

(** ** logging-service.js: the event classifier of the worker *)

Module Worker.

(** Values as [request.json()] produces them, and [undefined]. *)
#[local] Unset Elimination Schemes.
Inductive JSValue : Type :=
| JUndefined
| JNull
| JBool (b : bool)
| JNum (z : Z)
| JStr (s : string)
| JArr (items : list JSValue)
| JObj (fields : list (string * JSValue)).
#[local] Set Elimination Schemes.

Inductive Completion (A : Type) : Type :=
| Normal (a : A)
| TypeError.
Arguments Normal {A} a.
Arguments TypeError {A}.

(** Objects are passed by reference: the worker's state is the heap of
    the objects it holds and the lines it wrote to the console. *)
Record State : Type := mkState {
  heap : gmap nat JSValue;
  console : list (string * list string)
}.

Definition W (A : Type) : Type := State -> Completion A * State.

Definition wret {A} (a : A) : W A := fun s => (Normal a, s).
Definition throw {A} : W A := fun s => (TypeError, s).
Definition wbind {A B} (m : W A) (k : A -> W B) : W B :=
  fun s =>
    match m s with
    | (Normal a, s') => k a s'
    | (TypeError, s') => (TypeError, s')
    end.

Declare Scope worker_scope.
Notation "'let*' x ':=' m 'in' k" := (wbind m (fun x => k))
  (at level 10, x name, m at level 100, k at level 200) : worker_scope.
Notation "'exec' m 'in' k" := (wbind m (fun _ => k))
  (at level 10, m at level 100, k at level 200) : worker_scope.
Local Open Scope worker_scope.

Fixpoint lookup_field (k : string) (fields : list (string * JSValue))
    : JSValue :=
  match fields with
  | [] => JUndefined
  | (k', v) :: rest => if String.eqb k k' then v else lookup_field k rest
  end.

(** [v.k] for a [v] that is neither [null] nor [undefined], and a [k]
    that no prototype defines. *)
Definition getProperty (v : JSValue) (k : string) : JSValue :=
  match v with
  | JObj fields => lookup_field k fields
  | _ => JUndefined
  end.

(** [v.k] *)
Definition member (v : JSValue) (k : string) : W JSValue :=
  match v with
  | JUndefined | JNull => throw
  | _ => wret (getProperty v k)
  end.

(** [v?.k] *)
Definition optional_member (v : JSValue) (k : string) : JSValue :=
  match v with
  | JUndefined | JNull => JUndefined
  | _ => getProperty v k
  end.

(** The object behind a reference. *)
Definition deref (ref : nat) : W JSValue :=
  fun s =>
    match heap s !! ref with
    | Some v => (Normal v, s)
    | None => (TypeError, s)
    end.

(** [v === 'literal'] *)
Definition strict_equals (v : JSValue) (literal : string) : bool :=
  match v with
  | JStr s => String.eqb s literal
  | _ => false
  end.

(** Whether [k] is an own property of the object. *)
Definition has_key (k : string) (fields : list (string * JSValue)) : bool :=
  existsb (fun field => String.eqb k field.1) fields.

(** Whether the conversion of [v] to a primitive throws a [TypeError].
    No value that [request.json()] produces is callable.  For an object,
    [valueOf] gives no primitive (inherited, it returns the object), and
    [toString] gives one exactly when it is the inherited method: an own
    property [toString] makes the conversion throw.  An array is
    converted by [join], which converts its elements. *)
Fixpoint ToPrimitive_throws (v : JSValue) : bool :=
  match v with
  | JObj fields => has_key "toString" fields
  | JArr items => existsb ToPrimitive_throws items
  | JUndefined | JNull | JBool _ | JNum _ | JStr _ => false
  end.

Section Coercion.

(** The conversion of a string to a number ([None] is [NaN]), and the
    conversion of an array to a string where it does not throw, as the
    language defines them. *)
Variable StringToNumber : string -> option Z.
Variable ArrayToString : list JSValue -> string.

Definition ToNumber (v : JSValue) : W (option Z) :=
  if ToPrimitive_throws v then throw
  else
    wret match v with
         | JUndefined => None
         | JNull => Some 0
         | JBool b => Some (if b then 1 else 0)
         | JNum z => Some z
         | JStr s => StringToNumber s
         | JArr items => StringToNumber (ArrayToString items)
         | JObj _ => StringToNumber "[object Object]"
         end.

(** [v > n] and [v < n] for a number [n]. *)
Definition greater_than (v : JSValue) (n : Z) : W bool :=
  let* x := ToNumber v in
  wret match x with
       | Some z => z >? n
       | None => false
       end.

Definition less_than (v : JSValue) (n : Z) : W bool :=
  let* x := ToNumber v in
  wret match x with
       | Some z => z <? n
       | None => false
       end.

(** [v?.includes(literal)] as a condition. *)
Definition optional_includes (v : JSValue) (literal : string) : W bool :=
  match v with
  | JUndefined | JNull => wret false
  | JStr s => wret (includes literal s)
  | JArr items => wret (existsb (fun x => strict_equals x literal) items)
  | JBool _ | JNum _ | JObj _ => throw
  end.

(** The two local variables of [checkSecurityPatterns], which are
    also what it returns. *)
Record Check : Type := mkCheck {
  isSuspicious : bool;
  flags : list string
}.

Definition push (flag : string) (c : Check) : Check :=
  mkCheck (isSuspicious c) (flags c ++ [flag]).
Definition suspicious (c : Check) : Check :=
  mkCheck true (flags c).

Definition checkSecurityPatterns (event : nat) : W Check :=
  let c := mkCheck false [] in
  (* Pattern 1: Too many overlay opens *)
  let* e := deref event in
  let* eventType := member e "eventType" in
  let* c :=
    if strict_equals eventType "overlay_opened" then
      let* e := deref event in
      let* metadata := member e "metadata" in
      let* many :=
        greater_than (optional_member metadata "openCount") 50 in
      if many then wret (suspicious (push "excessive_overlay_opens" c))
      else wret c
    else wret c in
  (* Pattern 2: Blocked domain access attempts *)
  let* e := deref event in
  let* eventType := member e "eventType" in
  let* c :=
    if strict_equals eventType "security_block" then
      let* e := deref event in
      let* metadata := member e "metadata" in
      if strict_equals (optional_member metadata "reason")
                       "Domini no autoritzat"
      then wret (suspicious (push "blocked_domain_access" c))
      else wret c
    else wret c in
  (* Pattern 3: Rapid-fire document clicks *)
  let* e := deref event in
  let* eventType := member e "eventType" in
  let* c :=
    if strict_equals eventType "document_clicked" then
      let* e := deref event in
      let* metadata := member e "metadata" in
      let* rapid :=
        less_than (optional_member metadata "timeSinceLastClick") 100 in
      if rapid then wret (suspicious (push "rapid_clicking" c))
      else wret c
    else wret c in
  (* Pattern 4: Sheet edit access *)
  let* e := deref event in
  let* eventType := member e "eventType" in
  let* c :=
    if strict_equals eventType "sheet_edit_accessed"
    then wret (suspicious (push "sheet_edit_attempt" c))
    else wret c in
  (* Pattern 5: Error patterns *)
  let* e := deref event in
  let* eventType := member e "eventType" in
  let* c :=
    if strict_equals eventType "error" then
      let* e := deref event in
      let* metadata := member e "metadata" in
      let* found :=
        optional_includes (optional_member metadata "errorMessage")
                          "CORS" in
      if found then wret (push "cors_error" c) else wret c
    else wret c in
  wret c.

(** [obj.k = v] on a plain object: an existing key keeps its place. *)
Fixpoint set_field (k : string) (v : JSValue)
    (fields : list (string * JSValue)) : list (string * JSValue) :=
  match fields with
  | [] => [(k, v)]
  | (k', v') :: rest =>
      if String.eqb k k' then (k, v) :: rest
      else (k', v') :: set_field k v rest
  end.

(** [obj.k = v] on the object behind a reference. *)
Definition assign (ref : nat) (k : string) (v : JSValue) : W unit :=
  fun s =>
    match heap s !! ref with
    | Some (JObj fields) =>
        (Normal tt,
         mkState (<[ref := JObj (set_field k v fields)]> (heap s))
                 (console s))
    | Some _ => (Normal tt, s)
    | None => (TypeError, s)
    end.

Definition console_log (tag : string) (args : list string) : W unit :=
  fun s => (Normal tt, mkState (heap s) (console s ++ [(tag, args)])).

Definition sendAlert (securityFlags : list string) : W unit :=
  console_log "[ALERT SENT]" securityFlags.

(** The lines of [handleRequest] around the call of the classifier:
    flagging the event and alerting are done here, with the result. *)
Definition handleRequest_securityCheck (enrichedEvent : nat)
    : W Check :=
  let* securityCheck := checkSecurityPatterns enrichedEvent in
  if isSuspicious securityCheck then
    exec assign enrichedEvent "securityFlags"
           (JArr (map JStr (flags securityCheck))) in
    exec assign enrichedEvent "severity" (JStr "HIGH") in
    exec sendAlert (flags securityCheck) in
    wret securityCheck
  else wret securityCheck.

(** ** logging-service.js: the request handler *)

(** A request as [handleRequest] reads it: its method, its headers under
    the names the code asks for ([headers.get] gives [null] for a header
    that is absent), and the value [request.json()] resolves to ([None]
    when that promise rejects). *)
Record HttpRequest : Type := mkHttpRequest {
  method : string;
  headers : gmap string string;
  json : option JSValue
}.

Inductive Payload : Type :=
| NoBody
| Text (message : string)
| Success (eventId : JSValue).

(** [new Response(payload, { status, headers: corsHeaders })] *)
Record Reply : Type := mkReply {
  status : Z;
  payload : Payload
}.

Definition CONFIG_API_KEY : string := "your-secret-api-key-change-this".
Definition CONFIG_ALLOWED_ORIGINS : list string :=
  ["https://joanfelipgithub.github.io"; "https://insscf.clickedu.eu"].

(** [request.headers.get(name)] *)
Definition header (request : HttpRequest) (name : string) : JSValue :=
  match headers request !! name with
  | Some v => JStr v
  | None => JNull
  end.

(** Whether [v] counts as true in a condition. *)
Definition truthy (v : JSValue) : bool :=
  match v with
  | JUndefined | JNull => false
  | JBool b => b
  | JNum z => negb (z =? 0)
  | JStr s => negb (String.eqb s "")
  | JArr _ | JObj _ => true
  end.

(** [a || 'literal'] *)
Definition or_else (a : JSValue) (literal : string) : JSValue :=
  if truthy a then a else JStr literal.

(** The own enumerable properties that [{ ...v }] copies: those of an
    object, the elements of an array and the characters of a string
    under their indices, nothing for the other values. *)
Definition spread (v : JSValue) : list (string * JSValue) :=
  match v with
  | JObj fields => fields
  | JArr items => imap (fun i x => (pretty i, x)) items
  | JStr s =>
      imap (fun i c => (pretty i, JStr (String c EmptyString)))
           (list_ascii_of_string s)
  | JUndefined | JNull | JBool _ | JNum _ => []
  end.

(** A new object on the heap. *)
Definition alloc (v : JSValue) : W nat :=
  fun s =>
    let ref := fresh (dom (heap s)) in
    (Normal ref, mkState (<[ref := v]> (heap s)) (console s)).

(** [try { block } catch (error) { handler }] *)
Definition try_catch {A} (block handler : W A) : W A :=
  fun s =>
    match block s with
    | (Normal a, s') => (Normal a, s')
    | (TypeError, s') => handler s'
    end.

(** The loop of [validateEvent] over the required fields. *)
Fixpoint required_present (event : nat) (required : list string) : W bool :=
  match required with
  | [] => wret true
  | field :: rest =>
      let* e := deref event in
      let* v := member e field in
      if negb (truthy v) then wret false
      else required_present event rest
  end.

Definition validTypes : list string :=
  ["overlay_opened"; "overlay_closed"; "document_clicked";
   "security_warning"; "security_block"; "sheet_edit_accessed"; "error"].

Definition validateEvent (event : nat) : W bool :=
  let* present := required_present event ["eventType"; "timestamp"] in
  if negb present then wret false
  else
    let* e := deref event in
    let* eventType := member e "eventType" in
    if negb (existsb (strict_equals eventType) validTypes) then wret false
    else wret true.

(** How the console shows a value other than a string. *)
Variable JSON_stringify : JSValue -> string.

Definition console_text (v : JSValue) : string :=
  match v with
  | JStr s => s
  | _ => JSON_stringify v
  end.

Definition storeEvent (event : nat) : W unit :=
  let* e := deref event in
  let* eventId := member e "eventId" in
  console_log "[STORED]" [console_text eventId].

(** The object literal [{ ...event, timestamp: ..., ..., eventId: ... }]:
    a key of [event] keeps its place and takes the new value. *)
Definition enrich (event : JSValue) (request : HttpRequest)
    (timestamp : string) (clientIP : JSValue) (eventId : string)
    : JSValue :=
  JObj (set_field "eventId" (JStr eventId)
       (set_field "country" (header request "CF-IPCountry")
       (set_field "referer" (header request "Referer")
       (set_field "userAgent" (header request "User-Agent")
       (set_field "clientIP" clientIP
       (set_field "timestamp" (JStr timestamp) (spread event))))))).

(** The [catch] block of [handleRequest]. *)
Definition caught (error : string) : W Reply :=
  exec console_log "[ERROR]" [error] in
  wret (mkReply 500 (Text "Internal server error")).

(** [handleRequest(request)], in a call in which
    [new Date().toISOString()] gives [timestamp] and [generateEventId()]
    gives [eventId].  Nothing before [request.json()] can throw, and a
    rejection of [request.json()] is caught like an exception;
    [rateLimitKey] is computed and not used. *)
Definition handleRequest (request : HttpRequest)
    (timestamp eventId : string) : W Reply :=
  if String.eqb (method request) "OPTIONS" then wret (mkReply 200 NoBody)
  else if negb (String.eqb (method request) "POST") then
    wret (mkReply 405 (Text "Method not allowed"))
  else if negb (existsb (strict_equals (header request "Origin"))
                        CONFIG_ALLOWED_ORIGINS) then
    wret (mkReply 403 (Text "Unauthorized origin"))
  else if negb (strict_equals (header request "X-API-Key") CONFIG_API_KEY)
  then wret (mkReply 401 (Text "Invalid API key"))
  else
    match json request with
    | None => caught "SyntaxError"
    | Some event =>
        try_catch
          (let clientIP :=
             or_else (header request "CF-Connecting-IP") "unknown" in
           let* enrichedEvent :=
             alloc (enrich event request timestamp clientIP eventId) in
           let* valid := validateEvent enrichedEvent in
           if negb valid then
             wret (mkReply 400 (Text "Invalid event structure"))
           else
             exec handleRequest_securityCheck enrichedEvent in
             exec storeEvent enrichedEvent in
             let* e := deref enrichedEvent in
             exec console_log "[SECURITY EVENT]" [JSON_stringify e] in
             let* e := deref enrichedEvent in
             let* eventId := member e "eventId" in
             wret (mkReply 200 (Success eventId)))
          (caught "TypeError")
    end.

End Coercion.

End Worker.

(** ** data-integrity.js: the history of hashes *)

Module DataIntegrity.

Definition INTEGRITY_CONFIG_storeHashHistory : bool := true.

(** The item [integrity_hash_history] of [localStorage]: absent (or the
    empty string), a text that [JSON.parse] rejects, or the value it
    parses to. *)
Inductive Item : Type :=
| Absent
| Unparsable
| Parsed (v : Worker.JSValue).

(** [JSON.parse(localStorage.getItem(historyKey) || '[]')]; [None] when
    it throws. *)
Definition parse_history (item : Item) : option Worker.JSValue :=
  match item with
  | Absent => Some (Worker.JArr [])
  | Unparsable => None
  | Parsed v => Some v
  end.

(** The time values a [Date] can hold; [toISOString] throws a
    [RangeError] on the others. *)
Definition MAX_TIME : Z := 8640000000000000.

Definition valid_time (timestamp : Z) : bool :=
  (- MAX_TIME <=? timestamp) && (timestamp <=? MAX_TIME).

Section Dates.

(** [new Date(timestamp).toISOString()] for a valid time value. *)
Variable toISOString : Z -> string.

Definition hash_entry (hash : string) (timestamp : Z) : Worker.JSValue :=
  Worker.JObj [("hash", Worker.JStr hash);
               ("timestamp", Worker.JNum timestamp);
               ("date", Worker.JStr (toISOString timestamp))].

(** [storeHashInHistory(hash, timestamp)]: every exception of the [try]
    block ([JSON.parse], [push] on a value that is not an array,
    [toISOString]) is caught and leaves the item as it was. *)
Definition storeHashInHistory (hash : string) (timestamp : Z)
    (item : Item) : Item :=
  if negb INTEGRITY_CONFIG_storeHashHistory then item
  else
    match parse_history item with
    | Some (Worker.JArr history) =>
        if negb (valid_time timestamp) then item
        else
          let history := history ++ [hash_entry hash timestamp] in
          let history :=
            if (Z.of_nat (length history) >? 50) then tail history
            else history in
          Parsed (Worker.JArr history)
    | Some _ => item
    | None => item
    end.

End Dates.

(** [getHashHistory()] *)
Definition getHashHistory (item : Item) : Worker.JSValue :=
  match parse_history item with
  | Some v => v
  | None => Worker.JArr []
  end.

End DataIntegrity.

(** * Vocabulary of the statements *)

Import RateLimiter LockoutManager Worker.

(** ** Worlds *)

(** [w'] differs from [w] only in the logger's variables and in how many
    clock readings were taken. *)
Definition logging_only (w w' : World) : Prop :=
  env w' = env w
  /\ localStorage w' = localStorage w
  /\ readings (clock w') = readings (clock w)
  /\ (ticks (clock w) <= ticks (clock w'))%nat.

(** The reading the next [Date.now()] returns. *)
Definition now_of (w : World) : Z := readings (clock w) (ticks (clock w)).

(** ** The rate limiter *)

(** The list [getAttempts] reads, and what survives the pruning of a call
    of [isAllowed] made in [w]. *)
Definition stored_attempts (this : RateLimiter.t) (w : World) : list Z :=
  match attemptItems (localStorage w) !! storageKey this with
  | Some (Json attempts) => attempts
  | _ => []
  end.

Definition valid_attempts (this : RateLimiter.t) (w : World) : list Z :=
  filter (fun timestamp => now_of w - timestamp < windowMs this)
         (stored_attempts this w).

(** The wait a denied call reports, from the oldest surviving attempt. *)
Definition wait_seconds (this : RateLimiter.t) (w : World) : Number :=
  Math_ceil_div
    (sub_from (windowMs this)
              (sub_from (now_of w) (Math_min (valid_attempts this w))))
    1000.

(** [w] after one more clock reading. *)
Definition tick (w : World) : World :=
  with_clock (mkClock (readings (clock w)) (S (ticks (clock w)))) w.

(** The remaining capacity of a limiter. *)
Definition capacity (this : RateLimiter.t) (w : World) : nat :=
  Z.to_nat (maxAttempts this - Z.of_nat (length (stored_attempts this w))).

(** Every clock reading taken between [w] and [w'] lies in
    [[lo, lo + width)]. *)
Definition in_span (lo width : Z) (w w' : World) : Prop :=
  forall i, (ticks (clock w) <= i < ticks (clock w'))%nat ->
            lo <= readings (clock w) i < lo + width.

(** ** Example pages *)

Definition example_env : Env :=
  mkEnv true "sess_0_abc" 0 "https://insscf.clickedu.eu/" "agent" "ca"
        "1920x1080" "Europe/Madrid".

(** A page whose clock advances by [step] ms at each reading from
    [start], with nothing stored and nothing queued. *)
Definition fresh_world (start step : Z) : World :=
  mkWorld example_env
          (mkClock (fun i => start + step * Z.of_nat i) 0)
          (mkStorage ∅ None None)
          (mkLogger [] false 0 0 []).

(** ** The lockout manager *)

(** What [getLockout] and [getViolations] read. *)
Definition stored_lockout (w : World) : option Lockout :=
  match lockoutItem (localStorage w) with
  | Some (Json lockout) => Some lockout
  | _ => None
  end.

Definition stored_violations (w : World) : list Violation :=
  match violationsItem (localStorage w) with
  | Some (Json violations) => violations
  | _ => []
  end.

(** The pruning of [recordViolation]: the element at position [i] is
    compared with the clock reading number [k + i]. *)
Fixpoint recent_from (r : nat -> Z) (k : nat) (vs : list Violation)
    : list Violation :=
  match vs with
  | [] => []
  | v :: rest =>
      if (r k - violation_timestamp v <? 300000)
      then v :: recent_from r (S k) rest
      else recent_from r (S k) rest
  end.

(** The violations that survive a call of [recordViolation] made in [w]:
    the stored ones and the new one, pruned. *)
Definition surviving (reason : string) (w : World) : list Violation :=
  recent_from (readings (clock w)) (S (ticks (clock w)))
    (stored_violations w ++ [mkViolation (now_of w) reason]).

(** [w] after [n] more clock readings. *)
Definition ticked (n : nat) (w : World) : World :=
  with_clock (mkClock (readings (clock w)) (n + ticks (clock w))) w.

(** The world in which [lockout] calls [logSecurity]: the record is
    stored, two clock readings were taken. *)
Definition installed (reason : string) (w : World) : World :=
  with_localStorage
    (mkStorage (attemptItems (localStorage w))
               (Some (Json (mkLockout
                              (now_of w + RATE_LIMIT_CONFIG_lockoutDuration)
                              reason (now_of (tick w)))))
               (violationsItem (localStorage w)))
    (ticked 2 w).

(** The world in which [recordViolation] decides whether to lock out:
    the surviving violations are stored. *)
Definition recorded (reason : string) (w : World) : World :=
  with_localStorage
    (mkStorage (attemptItems (localStorage w))
               (lockoutItem (localStorage w))
               (Some (Json (surviving reason w))))
    (ticked
       (S (length (stored_violations w ++ [mkViolation (now_of w) reason])))
       w).

Definition overlay_violation : string :=
  "Rate limit exceeded for overlay opens".
Definition document_violation : string :=
  "Rate limit exceeded for document clicks".

(** Four violations recorded a few readings apart on a fresh page. *)
Definition four_violations : World :=
  snd (repeatM 4 (recordViolation overlay_violation) (fresh_world 1000 50)).

(** Five violations: the page is locked out. *)
Definition locked_page : World :=
  snd (recordViolation overlay_violation four_violations).

(** Five overlay opens in a row on a fresh page, each with room for a
    hundred calls on the stack, then fifty-one clicks on document
    buttons. *)
Definition overlay_opens : M (list (option Handled)) :=
  repeatM 5 (openOverlay 100).
Definition document_clicks : M (list Handled) :=
  repeatM 51 documentClickListener.

(** ** The event queue *)

(** The event that a call of [logSecurityEventToServer] made in [w]
    builds, and the world in which the call looks at the queue length. *)
Definition logged_event (eventType : string)
    (metadata : gmap string MetaValue) (w : World) : Event :=
  build_event (env w) eventType metadata (eventCounter (logger w) + 1)
    (now_of w).

Definition pushed (eventType : string) (metadata : gmap string MetaValue)
    (w : World) : World :=
  with_logger
    (mkLogger (eventQueue (logger w) ++ [logged_event eventType metadata w])
              (flushTimer (logger w)) (eventCounter (logger w) + 1)
              (randomDraws (logger w)) (fetched (logger w)))
    (tick w).

(** Every event queued or sent so far was numbered by the counter. *)
Definition numbered (w : World) : Prop :=
  let issued e := eventNumber e <= eventCounter (logger w) in
  Forall issued (eventQueue (logger w))
  /\ Forall (fun r => Forall issued (events r)) (fetched (logger w)).

Definition click : M (option (list Event)) :=
  logSecurityEventToServer "document_clicked" ∅.

(** Ten events logged on a fresh page, which triggers a flush, and two
    more logged while its request is in flight. *)
Definition ten_logged : World := snd (repeatM 10 click (fresh_world 1000 50)).
Definition two_more : World := snd (repeatM 2 click ten_logged).

Definition sent_batch : list Event :=
  match fetched (logger ten_logged) with
  | [request] => events request
  | _ => []
  end.

(** ** The event classifier *)

(** A computation that changes nothing in the worker's state and whose
    outcome is determined by the object behind [ref]. *)
Definition observes {A} (ref : nat) (m : W A) : Prop :=
  forall s : State,
    snd (m s) = s
    /\ forall s2 : State,
         heap s2 !! ref = heap s !! ref -> fst (m s2) = fst (m s).

(** The flags in the order of the checks, with whether the check marks
    the event as suspicious. *)
Definition patterns : list (string * bool) :=
  [("excessive_overlay_opens", true); ("blocked_domain_access", true);
   ("rapid_clicking", true); ("sheet_edit_attempt", true);
   ("cors_error", false)].

(** What a check that fires does to the two local variables. *)
Definition raise (p : string * bool) (c : Check) : Check :=
  if p.2 then suspicious (push p.1 c) else push p.1 c.

(** The values the two local variables can have after the first [k]
    checks. *)
Definition outcomes_after (k : nat) : list Check :=
  foldl (fun cs p => cs ++ (raise p <$> cs)) [mkCheck false []]
        (take k patterns).

(** Every value [m] can return satisfies [P]. *)
Definition returns {A} (m : W A) (P : A -> Prop) : Prop :=
  forall s a, fst (m s) = Normal a -> P a.

(** The flags are in the order of the checks, without repetition, and
    [isSuspicious] is set exactly when a flag other than [cors_error] is
    among them. *)
Definition well_formed (c : Check) : Prop :=
  flags c = filter (fun f => f ∈ flags c) (fst <$> patterns)
  /\ isSuspicious c
     = existsb (fun f => negb (String.eqb f "cors_error")) (flags c).

(** An overlay event that reports 51 opens, stored at address 0. *)
Definition overlay_event : Worker.JSValue :=
  Worker.JObj
    [("eventType", Worker.JStr "overlay_opened");
     ("metadata", Worker.JObj [("openCount", Worker.JNum 51)])].

Definition worker_state : Worker.State :=
  Worker.mkState {[ 0%nat := overlay_event ]} [].

(** ** Runs of the rate limiter *)

(** The clock never goes back. *)
Definition monotone_clock (w : World) : Prop :=
  forall i j : nat,
    (i <= j)%nat -> readings (clock w) i <= readings (clock w) j.

(** [N] calls of [isAllowed] in a row: the time of each call with its
    verdict. *)
Fixpoint timed_calls (this : RateLimiter.t) (N : nat) (w : World)
    : list (Z * Verdict) :=
  match N with
  | O => []
  | S n =>
      (now_of w, fst (isAllowed this w))
      :: timed_calls this n (snd (isAllowed this w))
  end.

(** The times of the calls that were allowed. *)
Definition granted (calls : list (Z * Verdict)) : list Z :=
  fst <$> filter (fun c => allowed c.2 = true) calls.

(** The granted calls that are less than [windowMs] before [t]. *)
Definition in_window (this : RateLimiter.t) (t : Z) (times : list Z)
    : list Z :=
  filter (fun t' => t - t' < windowMs this) times.

(** ** Sequences of violations *)

(** [f] called on each element in turn. *)
Fixpoint forM {A B} (xs : list A) (f : A -> M B) : M (list B) :=
  match xs with
  | [] => ret []
  | x :: rest =>
      let* b := f x in
      let* bs := forM rest f in
      ret (b :: bs)
  end.

(** ** Pages *)

(** The events the page still has to deliver: those queued and those held
    by a suspended flush; and the events that went out in a request. *)
Definition held_events (p : Page) : list Event :=
  eventQueue (logger (world p)) ++ concat (suspended p).

Definition sent_events (p : Page) : list Event :=
  concat (events <$> fetched (logger (world p))).

(** The page when the script has just been loaded. *)
Definition page_loaded (p : Page) : Prop :=
  eventQueue (logger (world p)) = []
  /\ flushTimer (logger (world p)) = false
  /\ eventCounter (logger (world p)) = 0
  /\ fetched (logger (world p)) = []
  /\ suspended p = [].

(** What every turn of the event loop keeps. *)
Definition page_invariant (p : Page) : Prop :=
  let l := logger (world p) in
  0 <= eventCounter l
  /\ (flushTimer l = true -> eventQueue l <> [])
  /\ Forall (fun r => events r <> []) (fetched l)
  /\ NoDup (eventNumber <$> held_events p)
  /\ Forall (fun e => 1 <= eventNumber e <= eventCounter l) (held_events p)
  /\ (forall n, 1 <= n <= eventCounter l ->
                n ∈ eventNumber <$> (eventQueue l ++ sent_events p)).

Definition is_log (t : Turn) : bool :=
  match t with Logs _ _ => true | _ => false end.

(** The number of events the turns [ts] log. *)
Definition logs_in (ts : list Turn) : nat := length (filter is_log ts).

(** A page just loaded, and the turn that logs a click. *)
Definition fresh_page : Page := mkPage (fresh_world 1000 50) [].
Definition click_turn : Turn := Logs "document_clicked" ∅.

(** ** The request handler of the worker *)

(** The check that can raise each flag, by the event type it asks for. *)
Definition flag_of_type : list (string * string) :=
  [("overlay_opened", "excessive_overlay_opens");
   ("security_block", "blocked_domain_access");
   ("document_clicked", "rapid_clicking");
   ("sheet_edit_accessed", "sheet_edit_attempt");
   ("error", "cors_error")].

(** The body [flushEvents] posts: [JSON.stringify({ events, batchId })]. *)
Definition batch_body (events : list Worker.JSValue)
    (batchId : Worker.JSValue) : Worker.JSValue :=
  Worker.JObj [("events", Worker.JArr events); ("batchId", batchId)].

(** The event type a body announces. *)
Definition type_of (event : Worker.JSValue) : Worker.JSValue :=
  Worker.lookup_field "eventType" (Worker.spread event).

Definition accepted_type (event : Worker.JSValue) : bool :=
  existsb (Worker.strict_equals (type_of event)) Worker.validTypes.

(** An event of type [error] whose [metadata.errorMessage] has no
    [includes] method. *)
Definition malformed_error (event : Worker.JSValue) : bool :=
  Worker.strict_equals (type_of event) "error"
  && match Worker.optional_member
             (Worker.lookup_field "metadata" (Worker.spread event))
             "errorMessage" with
     | Worker.JBool _ | Worker.JNum _ | Worker.JObj _ => true
     | _ => false
     end.

(** An event on which the classifier throws: the check for its type
    compares a [metadata.openCount] or a [metadata.timeSinceLastClick]
    that cannot be converted to a number, or calls [includes] on the
    [metadata.errorMessage] of a malformed [error] event. *)
Definition classifier_throws_on (event : Worker.JSValue) : bool :=
  let metadata := Worker.lookup_field "metadata" (Worker.spread event) in
  (Worker.strict_equals (type_of event) "overlay_opened"
   && Worker.ToPrimitive_throws
        (Worker.optional_member metadata "openCount"))
  || (Worker.strict_equals (type_of event) "document_clicked"
      && Worker.ToPrimitive_throws
           (Worker.optional_member metadata "timeSinceLastClick"))
  || malformed_error event.

(** A [POST] from an allowed origin with the API key. *)
Definition authenticated (request : Worker.HttpRequest) : Prop :=
  Worker.method request = "POST"
  /\ (exists origin, Worker.headers request !! "Origin" = Some origin
                     /\ origin ∈ Worker.CONFIG_ALLOWED_ORIGINS)
  /\ Worker.headers request !! "X-API-Key" = Some Worker.CONFIG_API_KEY.

(** The objects that were on the heap of [s] are the same in [s']. *)
Definition keeps_objects (s s' : Worker.State) : Prop :=
  forall ref v, Worker.heap s !! ref = Some v ->
                Worker.heap s' !! ref = Some v.

(** The event object after [handleRequest] has flagged it. *)
Definition flagged (securityCheck : Worker.Check) (event : Worker.JSValue)
    : Worker.JSValue :=
  match event with
  | Worker.JObj fields =>
      Worker.JObj
        (Worker.set_field "severity" (Worker.JStr "HIGH")
           (Worker.set_field "securityFlags"
              (Worker.JArr (map Worker.JStr (Worker.flags securityCheck)))
              fields))
  | _ => event
  end.

(** A request with a method other than [OPTIONS] that is not
    authenticated, and the headers, body and state of the examples. *)
Definition anonymous_request : Worker.HttpRequest :=
  Worker.mkHttpRequest "POST" {[ "Origin" := "https://example.org" ]} None.

Definition client_headers : gmap string string :=
  {[ "Origin" := "https://insscf.clickedu.eu";
     "X-API-Key" := "your-secret-api-key-change-this";
     "CF-Connecting-IP" := "203.0.113.7" ]}.

Definition forged_event : Worker.JSValue :=
  Worker.JObj
    [("eventType", Worker.JStr "overlay_closed");
     ("clientIP", Worker.JStr "10.0.0.1");
     ("eventId", Worker.JStr "evt_forged");
     ("timestamp", Worker.JStr "1999-01-01T00:00:00.000Z")].

Definition empty_state : Worker.State := Worker.mkState ∅ [].

(** An overlay event whose [openCount] is an object with an own
    [toString] that is not a function. *)
Definition unconvertible_count : Worker.JSValue :=
  Worker.JObj
    [("eventType", Worker.JStr "overlay_opened");
     ("metadata",
      Worker.JObj
        [("openCount", Worker.JObj [("toString", Worker.JNum 1)])])].

(** ** The history of hashes *)

(** The hashes stored one after the other, each with its time. *)
Definition stores (toISOString : Z -> string) (calls : list (string * Z))
    (item : DataIntegrity.Item) : DataIntegrity.Item :=
  foldl (fun item call =>
           DataIntegrity.storeHashInHistory toISOString call.1 call.2 item)
        item calls.

(** The entries of the calls whose time is one a [Date] can hold. *)
Definition entries (toISOString : Z -> string) (calls : list (string * Z))
    : list Worker.JSValue :=
  (fun call => DataIntegrity.hash_entry toISOString call.1 call.2)
    <$> filter (fun call => DataIntegrity.valid_time call.2 = true) calls.

(** The last [n] elements of a list. *)
Definition last_n {A} (n : nat) (l : list A) : list A :=
  drop (length l - n) l.

(** * Properties *)

(** ** What the logging calls leave alone *)

Lemma logging_only_refl w : logging_only w w.
Proof. unfold logging_only; auto. Qed.

Lemma logging_only_trans w1 w2 w3 :
  logging_only w1 w2 -> logging_only w2 w3 -> logging_only w1 w3.
Proof.
  unfold logging_only.
  intros (He1 & Hs1 & Hr1 & Ht1) (He2 & Hs2 & Hr2 & Ht2).
  repeat split; try congruence. lia.
Qed.

Ltac run_js :=
  unfold bind, ret, get, modify_logger, modify_storage, modify, Date_now,
    with_logger, with_clock, with_localStorage; simpl.

Lemma flushEvents_begin_logging_only w :
  logging_only w (snd (flushEvents_begin w)).
Proof.
  unfold flushEvents_begin, generateBatchId, Math_random, fetch. run_js.
  destruct (Z.of_nat (length (eventQueue (logger w))) =? 0); simpl.
  - apply logging_only_refl.
  - destruct (flushTimer (logger w)); unfold logging_only; simpl;
      repeat split; lia.
Qed.

Lemma logSecurityEventToServer_logging_only eventType metadata w :
  logging_only w (snd (logSecurityEventToServer eventType metadata w)).
Proof.
  unfold logSecurityEventToServer. simpl. run_js.
  match goal with |- context [if ?b then _ else _] => destruct b end.
  - eapply logging_only_trans; [| apply flushEvents_begin_logging_only].
    unfold logging_only; simpl; repeat split; lia.
  - unfold scheduleFlush. run_js.
    destruct (flushTimer (logger w)); unfold logging_only; simpl;
      repeat split; lia.
Qed.

Lemma logSecurity_logging_only level message metadata w :
  logging_only w (snd (logSecurity level message metadata w)).
Proof.
  unfold logSecurity. run_js.
  destruct (enableSecurityLogging (env w)); simpl.
  - pose proof (logSecurityEventToServer_logging_only
                  (getEventTypeFromMessage level message)
                  (metadata ∪ <["message" := MStr message]>
                                (<["level" := MStr level]> ∅)) w) as H.
    destruct (logSecurityEventToServer _ _ w). exact H.
  - apply logging_only_refl.
Qed.

(** ** The rate limiter *)

Lemma getAttempts_eq this w :
  getAttempts this w = (stored_attempts this w, w).
Proof.
  unfold stored_attempts, getAttempts. run_js.
  destruct (attemptItems (localStorage w) !! storageKey this) as [[a|]|];
    reflexivity.
Qed.

(** One call of [isAllowed], with the world it leaves. *)
Lemma isAllowed_eq this w :
  isAllowed this w =
    if (Z.of_nat (length (valid_attempts this w)) >=? maxAttempts this) then
      (Denied (wait_seconds this w),
       snd (logSecurity "warn" ("Rate limit exceeded for " +:+ action this)
              (<["timeToWait" := MNum (wait_seconds this w)]>
                 (<["maxAttempts" := MNum (Finite (maxAttempts this))]>
                    (<["attempts" :=
                         MNum (Finite (Z.of_nat
                                 (length (valid_attempts this w))))]> ∅)))
              (tick w)))
    else
      (Allowed (maxAttempts this
                - Z.of_nat (length (valid_attempts this w ++ [now_of w]))),
       snd (saveAttempts this (valid_attempts this w ++ [now_of w])
              (tick w))).
Proof.
  unfold isAllowed, bind at 1. unfold Date_now at 1.
  fold (tick w). fold (now_of w).
  unfold bind at 1. rewrite getAttempts_eq.
  assert (stored_attempts this (tick w) = stored_attempts this w) as ->
    by reflexivity.
  fold (valid_attempts this w).
  destruct (Z.of_nat (length (valid_attempts this w)) >=? maxAttempts this).
  - unfold bind, ret, wait_seconds.
    destruct (logSecurity _ _ _ (tick w)); reflexivity.
  - unfold bind, ret.
    destruct (saveAttempts _ _ (tick w)); reflexivity.
Qed.

Lemma isAllowed_denied this w :
  maxAttempts this <= Z.of_nat (length (valid_attempts this w)) ->
  fst (isAllowed this w) = Denied (wait_seconds this w)
  /\ logging_only w (snd (isAllowed this w)).
Proof.
  intros Hfull. rewrite isAllowed_eq.
  destruct (Z.geb_spec (Z.of_nat (length (valid_attempts this w)))
              (maxAttempts this)) as [_ | Hlt]; [| lia].
  simpl. split; [reflexivity |].
  eapply logging_only_trans; [| apply logSecurity_logging_only].
  unfold logging_only, tick; simpl. repeat split; lia.
Qed.

Lemma isAllowed_allowed this w :
  Z.of_nat (length (valid_attempts this w)) < maxAttempts this ->
  isAllowed this w =
    (Allowed (maxAttempts this
              - (Z.of_nat (length (valid_attempts this w)) + 1)),
     with_localStorage
       (mkStorage
          (<[storageKey this := Json (valid_attempts this w ++ [now_of w])]>
             (attemptItems (localStorage w)))
          (lockoutItem (localStorage w))
          (violationsItem (localStorage w)))
       (tick w)).
Proof.
  intros Hroom. rewrite isAllowed_eq.
  destruct (Z.geb_spec (Z.of_nat (length (valid_attempts this w)))
              (maxAttempts this)) as [Hge | _]; [lia |].
  rewrite length_app. simpl length.
  replace (Z.of_nat (length (valid_attempts this w) + 1))
    with (Z.of_nat (length (valid_attempts this w)) + 1) by lia.
  reflexivity.
Qed.

Lemma foldl_min_spec (rest : list Z) : forall x,
  foldl Z.min x rest ∈ x :: rest
  /\ Forall (fun y => foldl Z.min x rest <= y) (x :: rest).
Proof.
  induction rest as [| y rest IH]; intros x; simpl.
  - split; [apply list_elem_of_here | constructor; [lia | constructor]].
  - destruct (IH (Z.min x y)) as [Hin Hle].
    apply Forall_cons in Hle as [Hm Hrest].
    split.
    + apply elem_of_cons in Hin as [Heq | Hin].
      * rewrite Heq.
        destruct (Z.min_spec x y) as [[_ ->] | [_ ->]].
        -- apply list_elem_of_here.
        -- apply list_elem_of_further, list_elem_of_here.
      * by do 2 apply list_elem_of_further.
    + repeat constructor; try lia. exact Hrest.
Qed.

Lemma Math_min_spec (xs : list Z) :
  xs <> [] ->
  exists m, Math_min xs = Finite m /\ m ∈ xs /\ Forall (fun y => m <= y) xs.
Proof.
  destruct xs as [| x rest]; [congruence | intros _].
  exists (foldl Z.min x rest). split; [reflexivity |].
  apply foldl_min_spec.
Qed.

Lemma ceil_div_bounds z :
  1000 * (ceil_div z 1000 - 1) < z <= 1000 * ceil_div z 1000.
Proof.
  unfold ceil_div.
  pose proof (Z.div_mod (- z) 1000 ltac:(lia)).
  pose proof (Z.mod_pos_bound (- z) 1000 ltac:(lia)).
  lia.
Qed.

Lemma ceil_div_pos z : 0 < z -> 0 < ceil_div z 1000.
Proof. pose proof (ceil_div_bounds z). lia. Qed.

(** A denied call reports a positive wait, whatever is stored. *)
Lemma wait_seconds_positive this w : positive (wait_seconds this w).
Proof.
  unfold wait_seconds.
  destruct (valid_attempts this w) as [| x rest] eqn:Hvalid.
  - simpl. exact I.
  - destruct (Math_min_spec (x :: rest)) as (m & -> & Hin & _); [done |].
    simpl. apply ceil_div_pos.
    rewrite <- Hvalid in Hin. unfold valid_attempts in Hin.
    apply list_elem_of_filter in Hin as [Hin _]. lia.
Qed.

(** Within a span shorter than the window nothing is pruned. *)
Lemma valid_attempts_all this w lo :
  (forall t, t ∈ stored_attempts this w -> lo <= t) ->
  now_of w < lo + windowMs this ->
  valid_attempts this w = stored_attempts this w.
Proof.
  intros Hstored Hnow. unfold valid_attempts.
  induction (stored_attempts this w) as [| t l IH]; [reflexivity |].
  rewrite filter_cons_True.
  - f_equal. apply IH. intros t' Ht'. apply Hstored. set_solver.
  - specialize (Hstored t ltac:(set_solver)). lia.
Qed.

Lemma repeatM_S {A} (n : nat) (m : M A) (w : World) :
  repeatM (S n) m w =
    let (a, w1) := m w in
    let (rest, w2) := repeatM n m w1 in
    (a :: rest, w2).
Proof. reflexivity. Qed.

Lemma isAllowed_clock this w :
  readings (clock (snd (isAllowed this w))) = readings (clock w)
  /\ (ticks (clock w) < ticks (clock (snd (isAllowed this w))))%nat.
Proof.
  rewrite isAllowed_eq. destruct (_ >=? _); cbn [snd].
  - match goal with
    | |- context [logSecurity ?l ?m ?md ?w0] =>
        destruct (logSecurity_logging_only l m md w0) as (_ & _ & Hr & Ht)
    end.
    rewrite Hr. simpl in *. split; [reflexivity | lia].
  - simpl. split; [reflexivity | lia].
Qed.

Lemma burst_clock this : forall (N : nat) (w : World),
  readings (clock (snd (repeatM N (isAllowed this) w))) = readings (clock w)
  /\ (ticks (clock w)
      <= ticks (clock (snd (repeatM N (isAllowed this) w))))%nat.
Proof.
  induction N as [| N IH]; intros w; [simpl; split; [reflexivity | lia] |].
  rewrite repeatM_S.
  destruct (isAllowed_clock this w) as [Hr Ht].
  destruct (isAllowed this w) as [v w1].
  destruct (IH w1) as [Hr1 Ht1].
  destruct (repeatM N (isAllowed this) w1) as [rest w2].
  simpl in *. split; [congruence | lia].
Qed.

Lemma burst_verdicts this lo : forall (N : nat) (w : World),
  (forall t, t ∈ stored_attempts this w -> lo <= t) ->
  in_span lo (windowMs this) w (snd (repeatM N (isAllowed this) w)) ->
  allowed <$> fst (repeatM N (isAllowed this) w) =
    replicate (N `min` capacity this w) true
    ++ replicate (N - N `min` capacity this w) false.
Proof.
  induction N as [| N IH]; intros w Hstored Hspan; [reflexivity |].
  revert Hspan. rewrite repeatM_S.
  pose proof (isAllowed_clock this w) as [Hr1 Ht1].
  destruct (isAllowed this w) as [v w1] eqn:Hcall.
  pose proof (burst_clock this N w1) as [Hr2 Ht2].
  specialize (IH w1).
  destruct (repeatM N (isAllowed this) w1) as [rest w2] eqn:Hrun.
  cbn [fst snd] in *. intros Hspan.
  assert (Hnow : lo <= now_of w < lo + windowMs this)
    by (apply Hspan; lia).
  assert (Hspan1 : in_span lo (windowMs this) w1 w2).
  { intros i Hi. rewrite Hr1. apply Hspan. lia. }
  pose proof (valid_attempts_all this w lo Hstored ltac:(lia)) as Hvalid.
  rewrite fmap_cons.
  destruct (Z_lt_le_dec (Z.of_nat (length (valid_attempts this w)))
              (maxAttempts this)) as [Hroom | Hfull].
  - rewrite (isAllowed_allowed this w Hroom) in Hcall.
    inversion Hcall as [[Hv Hw1]]. clear Hcall.
    assert (Hst1 : stored_attempts this w1
                   = stored_attempts this w ++ [now_of w]).
    { unfold stored_attempts at 1. rewrite <- Hw1. simpl.
      rewrite lookup_insert_eq. by rewrite Hvalid. }
    rewrite IH; [| | exact Hspan1].
    + assert (Hcap : capacity this w = S (capacity this w1)).
      { unfold capacity. rewrite Hst1, length_app. simpl.
        rewrite Hvalid in Hroom. lia. }
      rewrite Hcap.
      replace (S N `min` S (capacity this w1))%nat
        with (S (N `min` capacity this w1)) by lia.
      reflexivity.
    + intros t. rewrite Hst1. intros [Ht | Ht]%elem_of_app.
      * by apply Hstored.
      * apply list_elem_of_singleton in Ht. lia.
  - destruct (isAllowed_denied this w Hfull) as [Hres Hlog].
    rewrite Hcall in Hres, Hlog. simpl in Hres, Hlog.
    destruct Hlog as (_ & Hls & _ & _).
    assert (Hst1 : stored_attempts this w1 = stored_attempts this w)
      by (unfold stored_attempts; by rewrite Hls).
    rewrite IH; [| | exact Hspan1].
    + assert (Hcap : capacity this w = 0%nat).
      { unfold capacity. rewrite Hvalid in Hfull. lia. }
      unfold capacity in *. rewrite Hst1, Hcap, Hres.
      rewrite !Nat.min_0_r. simpl. by rewrite Nat.sub_0_r.
    + intros t. rewrite Hst1. apply Hstored.
Qed.

Lemma burst_length this : forall (N : nat) (w : World),
  length (fst (repeatM N (isAllowed this) w)) = N.
Proof.
  induction N as [| N IH]; intros w; [reflexivity |].
  rewrite repeatM_S.
  destruct (isAllowed this w) as [v w1].
  specialize (IH w1).
  destruct (repeatM N (isAllowed this) w1) as [rest w2]. simpl in *. lia.
Qed.

Lemma burst_waits this : forall (N : nat) (w : World),
  Forall (fun v => match v with
                   | Denied timeToWait => positive timeToWait
                   | Allowed _ => True
                   end)
         (fst (repeatM N (isAllowed this) w)).
Proof.
  induction N as [| N IH]; intros w; [constructor |].
  rewrite repeatM_S.
  destruct (isAllowed this w) as [v w1] eqn:Hcall.
  specialize (IH w1).
  destruct (repeatM N (isAllowed this) w1) as [rest w2]. simpl in *.
  constructor; [| exact IH].
  rewrite isAllowed_eq in Hcall.
  destruct (_ >=? _) in Hcall; inversion Hcall; subst; [| exact I].
  apply wait_seconds_positive.
Qed.

Lemma count_denied (results : list Verdict) : forall m : nat,
  allowed <$> results = replicate m false ->
  length (filter (fun v => allowed v = true) results) = 0%nat
  /\ length (filter (fun v => allowed v = false) results) = m.
Proof.
  induction results as [| v rest IH]; intros [| m] Heq;
    try discriminate; [split; reflexivity |].
  rewrite fmap_cons in Heq. simpl in Heq.
  injection Heq as Hv Hrest. destruct (IH m Hrest) as [IH1 IH2].
  rewrite filter_cons_False by congruence.
  rewrite filter_cons_True by exact Hv.
  simpl. split; congruence.
Qed.

Lemma count_verdicts (results : list Verdict) : forall k m : nat,
  allowed <$> results = replicate k true ++ replicate m false ->
  length (filter (fun v => allowed v = true) results) = k
  /\ length (filter (fun v => allowed v = false) results) = m.
Proof.
  induction results as [| v rest IH]; intros [| k] m Heq;
    try discriminate.
  - destruct m; [split; reflexivity | discriminate].
  - apply count_denied. exact Heq.
  - rewrite fmap_cons in Heq. simpl in Heq.
    injection Heq as Hv Hrest. destruct (IH k m Hrest) as [IH1 IH2].
    rewrite filter_cons_True by exact Hv.
    rewrite filter_cons_False by congruence.
    simpl. split; congruence.
Qed.

(** C1.  A burst of [N] calls of [isAllowed] for one action, all made
    within a span shorter than [windowMs] and starting with nothing stored
    for the action: the first [min(N, maxAttempts)] calls are allowed and
    all the later ones are denied, so exactly [min(N, maxAttempts)] calls
    return [allowed: true] and [N - min(N, maxAttempts)] return
    [allowed: false]; every denied call reports a [timeToWait] greater
    than [0]. *)
Theorem burst_allows_min (this : RateLimiter.t) (N : nat) (lo : Z)
    (w : World) :
  0 <= maxAttempts this ->
  attemptItems (localStorage w) !! storageKey this = None ->
  in_span lo (windowMs this) w (snd (repeatM N (isAllowed this) w)) ->
  let results := fst (repeatM N (isAllowed this) w) in
  let k := Z.to_nat (Z.min (Z.of_nat N) (maxAttempts this)) in
  length results = N
  /\ allowed <$> results = replicate k true ++ replicate (N - k) false
  /\ Z.of_nat (length (filter (fun v => allowed v = true) results))
     = Z.min (Z.of_nat N) (maxAttempts this)
  /\ Z.of_nat (length (filter (fun v => allowed v = false) results))
     = Z.of_nat N - Z.min (Z.of_nat N) (maxAttempts this)
  /\ Forall (fun v => match v with
                      | Denied timeToWait => positive timeToWait
                      | Allowed _ => True
                      end) results.
Proof.
  intros Hmax Hempty Hspan results k.
  assert (Hstored : stored_attempts this w = [])
    by (unfold stored_attempts; by rewrite Hempty).
  assert (Hshape : allowed <$> results
                   = replicate k true ++ replicate (N - k) false).
  { subst results k.
    rewrite (burst_verdicts this lo N w); [| | exact Hspan].
    - unfold capacity. rewrite Hstored. simpl length.
      replace (N `min` Z.to_nat (maxAttempts this - Z.of_nat 0))%nat
        with (Z.to_nat (Z.min (Z.of_nat N) (maxAttempts this))) by lia.
      reflexivity.
    - rewrite Hstored. intros t Ht. by apply elem_of_nil in Ht. }
  destruct (count_verdicts results k (N - k) Hshape) as [Hyes Hno].
  split; [apply burst_length |].
  split; [exact Hshape |].
  split; [rewrite Hyes; subst k; lia |].
  split; [rewrite Hno; subst k; lia |].
  apply burst_waits.
Qed.

Lemma burst_allows_min_witness :
  let this := RateLimiter.new "document_click" 2 60000 in
  let results := fst (repeatM 3 (isAllowed this) (fresh_world 1000 50)) in
  allowed <$> results = [true; true; false]
  /\ Z.of_nat (length (filter (fun v => allowed v = true) results)) = 2.
Proof.
  intros this results.
  assert (Hspan : in_span 1000 (windowMs this) (fresh_world 1000 50)
                    (snd (repeatM 3 (isAllowed this) (fresh_world 1000 50)))).
  { intros i. vm_compute ticks. simpl. lia. }
  destruct (burst_allows_min this 3 1000 (fresh_world 1000 50)
              ltac:(simpl; lia) ltac:(reflexivity) Hspan)
    as (_ & Hshape & Hcount & _).
  split; [exact Hshape | exact Hcount].
Defined.

(** What one call of [isAllowed] does to [localStorage]. *)
Lemma isAllowed_storage this w :
  localStorage (snd (isAllowed this w)) =
    match fst (isAllowed this w) with
    | Allowed _ =>
        mkStorage
          (<[storageKey this := Json (valid_attempts this w ++ [now_of w])]>
             (attemptItems (localStorage w)))
          (lockoutItem (localStorage w))
          (violationsItem (localStorage w))
    | Denied _ => localStorage w
    end.
Proof.
  destruct (Z_lt_le_dec (Z.of_nat (length (valid_attempts this w)))
              (maxAttempts this)) as [Hroom | Hfull].
  - rewrite (isAllowed_allowed this w Hroom). reflexivity.
  - destruct (isAllowed_denied this w Hfull) as [-> (_ & Hls & _)].
    exact Hls.
Qed.

(** C6, as the code has it.  Only an allowed call writes to the store: it
    persists the pruned attempt list with the current timestamp appended.
    A denied call returns before [saveAttempts] and leaves [localStorage]
    as it found it. *)
Theorem isAllowed_persists_only_when_allowed (this : RateLimiter.t)
    (w : World) :
  let w' := snd (isAllowed this w) in
  match fst (isAllowed this w) with
  | Allowed remainingAttempts =>
      stored_attempts this w' = valid_attempts this w ++ [now_of w]
      /\ attemptItems (localStorage w')
         = <[storageKey this := Json (valid_attempts this w ++ [now_of w])]>
             (attemptItems (localStorage w))
      /\ remainingAttempts
         = maxAttempts this - Z.of_nat (length (stored_attempts this w'))
  | Denied _ =>
      localStorage w' = localStorage w
      /\ stored_attempts this w' = stored_attempts this w
  end.
Proof.
  intros w'. subst w'.
  pose proof (isAllowed_storage this w) as Hstore.
  destruct (Z_lt_le_dec (Z.of_nat (length (valid_attempts this w)))
              (maxAttempts this)) as [Hroom | Hfull].
  - rewrite (isAllowed_allowed this w Hroom) in *. cbn [fst snd] in *.
    unfold stored_attempts at 1 2. rewrite Hstore. cbn [attemptItems].
    rewrite lookup_insert_eq, length_app. simpl length.
    repeat split. lia.
  - destruct (isAllowed_denied this w Hfull) as [Hres _].
    rewrite Hres in *. split; [exact Hstore |].
    unfold stored_attempts. by rewrite Hstore.
Qed.

(** C6 as stated fails: the second of two quick calls on a limiter of
    capacity one is denied, and the store still holds the one attempt of
    the first call; the denied attempt at 1050 was not appended. *)
Lemma denied_call_not_persisted :
  let this := RateLimiter.new "document_click" 1 60000 in
  let w := snd (isAllowed this (fresh_world 1000 50)) in
  let w' := snd (isAllowed this w) in
  allowed (fst (isAllowed this w)) = false
  /\ now_of w = 1050
  /\ stored_attempts this w = [1000]
  /\ stored_attempts this w' = [1000]
  /\ stored_attempts this w' <> valid_attempts this w ++ [now_of w]
  /\ localStorage w' = localStorage w.
Proof.
  intros this w w'.
  assert (Hfull : maxAttempts this
                  <= Z.of_nat (length (valid_attempts this w)))
    by (vm_compute; discriminate).
  destruct (isAllowed_denied this w Hfull) as [Hres (_ & Hls & _)].
  fold w' in Hls.
  assert (Hst : stored_attempts this w' = stored_attempts this w)
    by (unfold stored_attempts; by rewrite Hls).
  split; [by rewrite Hres |].
  split; [reflexivity |].
  split; [reflexivity |].
  split; [rewrite Hst; reflexivity |].
  split; [rewrite Hst; vm_compute; discriminate |].
  exact Hls.
Qed.

(** A store written by the limiter never holds more than [maxAttempts]
    entries. *)
Lemma stored_within_limit this w :
  Z.of_nat (length (stored_attempts this w)) <= maxAttempts this ->
  Z.of_nat (length (stored_attempts this (snd (isAllowed this w))))
  <= maxAttempts this.
Proof.
  intros Hinv.
  pose proof (isAllowed_storage this w) as Hstore.
  unfold stored_attempts at 1. rewrite Hstore.
  destruct (Z_lt_le_dec (Z.of_nat (length (valid_attempts this w)))
              (maxAttempts this)) as [Hroom | Hfull].
  - rewrite (isAllowed_allowed this w Hroom). cbn [fst attemptItems].
    rewrite lookup_insert_eq, length_app. simpl. lia.
  - destruct (isAllowed_denied this w Hfull) as [-> _]. exact Hinv.
Qed.

Lemma stored_within_limit_run this : forall (N : nat) (w : World),
  Z.of_nat (length (stored_attempts this w)) <= maxAttempts this ->
  Z.of_nat (length (stored_attempts this
                      (snd (repeatM N (isAllowed this) w))))
  <= maxAttempts this.
Proof.
  induction N as [| N IH]; intros w Hinv; [exact Hinv |].
  rewrite repeatM_S.
  pose proof (stored_within_limit this w Hinv) as Hstep.
  destruct (isAllowed this w) as [v w1]. cbn [snd] in Hstep.
  specialize (IH w1 Hstep).
  destruct (repeatM N (isAllowed this) w1) as [rest w2]. exact IH.
Qed.



(** ** The lockout manager *)

Lemma getLockout_eq w : getLockout w = (stored_lockout w, w).
Proof.
  unfold getLockout, stored_lockout. run_js.
  destruct (lockoutItem (localStorage w)) as [[l|]|]; reflexivity.
Qed.

Lemma getViolations_eq w : getViolations w = (stored_violations w, w).
Proof.
  unfold getViolations, stored_violations. run_js.
  destruct (violationsItem (localStorage w)) as [[l|]|]; reflexivity.
Qed.

(** One call of [isLockedOut], with the world it leaves. *)
Lemma isLockedOut_eq w :
  isLockedOut w =
    match stored_lockout w with
    | None => (BareFalse, w)
    | Some lockout =>
        if (now_of w <? lockout_until lockout) then
          (Locked (ceil_div (lockout_until lockout - now_of w) 1000)
                  (lockout_reason lockout),
           tick w)
        else
          (Unlocked,
           with_localStorage
             (mkStorage (attemptItems (localStorage w)) None None)
             (tick w))
    end.
Proof.
  unfold isLockedOut, bind at 1. rewrite getLockout_eq.
  destruct (stored_lockout w) as [l |]; [| reflexivity].
  unfold bind at 1, Date_now at 1. fold (tick w). fold (now_of w).
  destruct (now_of w <? lockout_until l); reflexivity.
Qed.

Lemma filterM_recent (vs : list Violation) : forall w,
  filterM (fun v =>
             let* now := Date_now in
             ret (now - violation_timestamp v <? 300000)) vs w
  = (recent_from (readings (clock w)) (ticks (clock w)) vs,
     ticked (length vs) w).
Proof.
  induction vs as [| v rest IH]; intros w.
  - simpl. unfold ret, ticked. destruct w as [e [r k] s l]. reflexivity.
  - cbn [filterM]. unfold bind at 1 2, Date_now at 1, ret at 1.
    fold (tick w). unfold bind at 1. rewrite IH. unfold ret.
    cbn [recent_from length]. simpl.
    replace (ticked (length rest) (tick w)) with (ticked (S (length rest)) w).
    + destruct (_ <? _); reflexivity.
    + unfold ticked, tick, with_clock. simpl. do 3 f_equal. lia.
Qed.

Lemma lockout_eq reason w :
  lockout reason w =
    logSecurity "error" "User locked out due to repeated violations"
      (<["duration" :=
           MNum (Finite (RATE_LIMIT_CONFIG_lockoutDuration / 1000))]>
         (<["reason" := MStr reason]> ∅))
      (installed reason w).
Proof. reflexivity. Qed.

Lemma lockout_effect reason w :
  localStorage (snd (lockout reason w)) = localStorage (installed reason w)
  /\ readings (clock (snd (lockout reason w))) = readings (clock w)
  /\ (2 + ticks (clock w) <= ticks (clock (snd (lockout reason w))))%nat.
Proof.
  rewrite lockout_eq.
  match goal with
  | |- context [logSecurity ?l ?m ?md ?w0] =>
      destruct (logSecurity_logging_only l m md w0) as (_ & Hs & Hr & Ht)
  end.
  repeat split; [exact Hs | rewrite Hr; reflexivity | exact Ht].
Qed.

(** One call of [recordViolation], with the world it leaves. *)
Lemma recordViolation_eq reason w :
  recordViolation reason w =
    if (Z.of_nat (length (surviving reason w))
        >=? RATE_LIMIT_CONFIG_maxFailedAttempts)
    then (true, snd (lockout reason (recorded reason w)))
    else (false, recorded reason w).
Proof.
  unfold recordViolation, bind at 1. rewrite getViolations_eq.
  unfold bind at 1, Date_now at 1. fold (tick w). fold (now_of w).
  unfold bind at 1. rewrite filterM_recent.
  change (recent_from (readings (clock (tick w))) (ticks (clock (tick w)))
            (stored_violations w ++ [mkViolation (now_of w) reason]))
    with (surviving reason w).
  unfold bind at 1, saveViolations, modify_storage, modify.
  match goal with
  | |- (if ?b then _ else _) ?w1 = _ =>
      replace w1 with (recorded reason w)
  end.
  - destruct (_ >=? _); [| reflexivity].
    unfold bind, ret. destruct (lockout reason (recorded reason w)).
    reflexivity.
  - unfold recorded, ticked, tick, with_localStorage, with_clock. simpl.
    do 3 f_equal. lia.
Qed.

Lemma isLockedOut_active lockout w :
  stored_lockout w = Some lockout ->
  now_of w < lockout_until lockout ->
  isLockedOut w =
    (Locked (ceil_div (lockout_until lockout - now_of w) 1000)
            (lockout_reason lockout),
     tick w).
Proof.
  intros Hstored Hnow. rewrite isLockedOut_eq, Hstored.
  destruct (Z.ltb_spec (now_of w) (lockout_until lockout)); [reflexivity | lia].
Qed.

(** While the stored lockout has not expired, every check reports it and
    changes nothing but the number of clock readings taken. *)
Lemma locked_while_active lockout : forall (n : nat) (w : World),
  stored_lockout w = Some lockout ->
  (forall i, (ticks (clock w) <= i < n + ticks (clock w))%nat ->
             readings (clock w) i < lockout_until lockout) ->
  Forall (fun s => exists now,
                     now < lockout_until lockout
                     /\ s = Locked (ceil_div (lockout_until lockout - now) 1000)
                                   (lockout_reason lockout))
         (fst (repeatM n isLockedOut w))
  /\ snd (repeatM n isLockedOut w) = ticked n w.
Proof.
  induction n as [| n IH]; intros w Hstored Hbefore.
  - simpl. split; [constructor |].
    destruct w as [e [r k] s l]. reflexivity.
  - rewrite repeatM_S.
    assert (Hnow : now_of w < lockout_until lockout)
      by (apply Hbefore; lia).
    rewrite (isLockedOut_active lockout w Hstored Hnow).
    destruct (IH (tick w)) as [Hall Hworld].
    + exact Hstored.
    + intros i Hi. simpl in *. apply Hbefore. lia.
    + destruct (repeatM n isLockedOut (tick w)) as [rest w2].
      cbn [fst snd] in *. split.
      * constructor; [| exact Hall]. exists (now_of w). auto.
      * rewrite Hworld. unfold ticked, tick, with_clock. simpl.
        do 3 f_equal. lia.
Qed.

Lemma recorded_clock reason w :
  readings (clock (recorded reason w)) = readings (clock w)
  /\ (ticks (clock w) < ticks (clock (recorded reason w)))%nat.
Proof. unfold recorded. simpl. split; [reflexivity | lia]. Qed.

(** C2.  When the violations that survive the pruning of a call of
    [recordViolation], the new one included, number at least
    [maxFailedAttempts] (5), the call returns [true] and stores a lockout
    whose [until] is the clock reading taken by [lockout] plus
    [lockoutDuration] (300000 ms).  As long as that record is the stored
    one and the clock is before [until], [isLockedOut] reports
    [locked: true] with the reason and
    [timeRemaining = ceil((until - now) / 1000)], which is between 1 and
    300 seconds, and 300 within the first second; the check itself leaves
    the store alone, so this holds for every such call in a row. *)
Theorem threshold_violation_locks_out (reason : string) (w : World) :
  RATE_LIMIT_CONFIG_maxFailedAttempts
  <= Z.of_nat (length (surviving reason w)) ->
  let w' := snd (recordViolation reason w) in
  let issued := now_of (recorded reason w) in
  let until := issued + RATE_LIMIT_CONFIG_lockoutDuration in
  fst (recordViolation reason w) = true
  /\ stored_violations w' = surviving reason w
  /\ (exists stamp,
        lockoutItem (localStorage w')
        = Some (Json (mkLockout until reason stamp)))
  /\ (exists i, (ticks (clock w) < i < ticks (clock w'))%nat
                /\ issued = readings (clock w) i)
  /\ (forall w2 : World,
        lockoutItem (localStorage w2) = lockoutItem (localStorage w') ->
        now_of w2 < until ->
        let timeRemaining := ceil_div (until - now_of w2) 1000 in
        isLockedOut w2 = (Locked timeRemaining reason, tick w2)
        /\ (issued <= now_of w2 -> 0 < timeRemaining <= 300)
        /\ (issued <= now_of w2 < issued + 1000 -> timeRemaining = 300))
  /\ (forall (n : nat) (w2 : World),
        lockoutItem (localStorage w2) = lockoutItem (localStorage w') ->
        (forall i, (ticks (clock w2) <= i < n + ticks (clock w2))%nat ->
                   readings (clock w2) i < until) ->
        Forall (fun s => locked s = true) (fst (repeatM n isLockedOut w2))
        /\ localStorage (snd (repeatM n isLockedOut w2)) = localStorage w2).
Proof.
  intros Hreach w' issued until. subst w'.
  rewrite recordViolation_eq.
  destruct (Z.geb_spec (Z.of_nat (length (surviving reason w)))
              RATE_LIMIT_CONFIG_maxFailedAttempts) as [_ | Hlt]; [| lia].
  cbn [fst snd].
  destruct (lockout_effect reason (recorded reason w)) as (Hs & Hr & Ht).
  destruct (recorded_clock reason w) as [Hr0 Ht0].
  set (w' := snd (lockout reason (recorded reason w))) in *.
  assert (Hitem : lockoutItem (localStorage w')
                  = Some (Json (mkLockout until reason
                                  (now_of (tick (recorded reason w)))))).
  { rewrite Hs. reflexivity. }
  assert (Hstored : forall w2,
             lockoutItem (localStorage w2) = lockoutItem (localStorage w') ->
             stored_lockout w2
             = Some (mkLockout until reason
                       (now_of (tick (recorded reason w))))).
  { intros w2 Hsame. unfold stored_lockout. rewrite Hsame, Hitem.
    reflexivity. }
  split; [reflexivity |].
  split; [unfold stored_violations; rewrite Hs; reflexivity |].
  split; [eexists; exact Hitem |].
  split.
  { exists (ticks (clock (recorded reason w))). split; [lia |].
    subst issued. unfold now_of. by rewrite Hr0. }
  split.
  - intros w2 Hsame Hnow.
    rewrite (isLockedOut_active _ w2 (Hstored w2 Hsame) Hnow).
    cbn [lockout_until lockout_reason].
    pose proof (ceil_div_bounds (until - now_of w2)) as Hceil.
    subst until. unfold RATE_LIMIT_CONFIG_lockoutDuration in *.
    repeat split; lia.
  - intros n w2 Hsame Hbefore.
    destruct (locked_while_active _ n w2 (Hstored w2 Hsame) Hbefore)
      as [Hall Hworld].
    split; [| rewrite Hworld; reflexivity].
    eapply Forall_impl; [exact Hall |].
    intros s (now & _ & ->). reflexivity.
Qed.

Lemma threshold_violation_locks_out_witness :
  fst (repeatM 4 (recordViolation overlay_violation) (fresh_world 1000 50))
  = [false; false; false; false]
  /\ fst (recordViolation overlay_violation four_violations) = true
  /\ fst (isLockedOut (snd (recordViolation overlay_violation four_violations)))
     = Locked 300 overlay_violation.
Proof.
  destruct (threshold_violation_locks_out overlay_violation four_violations)
    as (Htrue & _ & _ & _ & Hcheck & _).
  - vm_compute. discriminate.
  - split; [vm_compute; reflexivity |].
    split; [exact Htrue |].
    destruct (Hcheck (snd (recordViolation overlay_violation four_violations)))
      as (Hlocked & _ & _).
    + reflexivity.
    + vm_compute. reflexivity.
    + rewrite Hlocked. vm_compute. reflexivity.
Defined.

(** C3, as the code has it.  [recordViolation] never reads the lockout
    record.  A call after which fewer than [maxFailedAttempts] violations
    survive returns [false] and leaves the stored lockout, active or not,
    as it was.  A call after which at least that many survive returns
    [true] and replaces whatever lockout was stored by one new record,
    with [until] the current clock reading plus [lockoutDuration] and the
    reason of this call. *)
Theorem recordViolation_lockout_effect (reason : string) (w : World) :
  let w' := snd (recordViolation reason w) in
  let enough :=
    Z.of_nat (length (surviving reason w))
    >=? RATE_LIMIT_CONFIG_maxFailedAttempts in
  fst (recordViolation reason w) = enough
  /\ stored_violations w' = surviving reason w
  /\ lockoutItem (localStorage w') =
       if enough
       then Some (Json (mkLockout
                          (now_of (recorded reason w)
                           + RATE_LIMIT_CONFIG_lockoutDuration)
                          reason
                          (now_of (tick (recorded reason w)))))
       else lockoutItem (localStorage w).
Proof.
  cbv zeta. rewrite recordViolation_eq.
  destruct (_ >=? _); cbn [fst snd].
  - destruct (lockout_effect reason (recorded reason w)) as (Hs & _).
    unfold stored_violations. rewrite Hs. repeat split.
  - repeat split.
Qed.

(** C3 as stated fails: on a page that five overlay violations locked
    out, with the lockout still active, a violation recorded by the
    document click handler replaces the stored lockout: [until] moves
    later and the reason changes. *)
Lemma active_lockout_overwritten :
  let w' := snd (recordViolation document_violation locked_page) in
  exists before after : Lockout,
    stored_lockout locked_page = Some before
    /\ now_of locked_page < lockout_until before
    /\ stored_lockout w' = Some after
    /\ lockout_until before < lockout_until after
    /\ lockout_reason before = overlay_violation
    /\ lockout_reason after = document_violation
    /\ lockoutItem (localStorage w') <> lockoutItem (localStorage locked_page).
Proof.
  eexists _, _.
  split; [vm_compute; reflexivity |].
  split; [vm_compute; reflexivity |].
  split; [vm_compute; reflexivity |].
  split; [vm_compute; reflexivity |].
  split; [reflexivity |].
  split; [reflexivity |].
  vm_compute. discriminate.
Qed.

(** The same through the handlers of the page.  The first overlay open
    enters itself twenty times and is then denied; with the four opens
    that follow, denied as well, this makes five violations and a lockout
    until 303500.  The click listener does not check the lockout: fifty
    clicks go through while it is active, and the fifty-first, denied by
    its limiter, records a violation that moves the lockout to 306600 with
    the reason of the clicks. *)
Example lockout_extended_by_document_clicks :
  let opened := overlay_opens (fresh_world 1000 50) in
  let clicked := document_clicks (snd opened) in
  fst opened
  = replicate 4 (Some (RateLimited (Finite 59))) ++ [Some LockedOutNow]
  /\ stored_lockout (snd opened)
     = Some (mkLockout 303500 overlay_violation 3550)
  /\ fst clicked = replicate 50 Proceeded ++ [LockedOutNow]
  /\ now_of (snd clicked) = 6750
  /\ stored_lockout (snd clicked)
     = Some (mkLockout 306600 document_violation 6650).
Proof. vm_compute. repeat split. Qed.

Lemma isLockedOut_absent w :
  stored_lockout w = None -> isLockedOut w = (BareFalse, w).
Proof. intros Hnone. by rewrite isLockedOut_eq, Hnone. Qed.

Lemma unlocked_while_absent : forall (n : nat) (w : World),
  stored_lockout w = None ->
  repeatM n isLockedOut w = (replicate n BareFalse, w).
Proof.
  induction n as [| n IH]; intros w Hnone; [reflexivity |].
  rewrite repeatM_S, (isLockedOut_absent w Hnone), (IH w Hnone).
  reflexivity.
Qed.

(** C7.  With a stored lockout whose [until] has passed, [isLockedOut]
    removes the lockout record and the violation history, touches nothing
    else in the store, and reports [locked: false].  Afterwards, and as
    long as no lockout is stored, any number of further calls report
    unlocked as well and leave the world exactly as it is. *)
Theorem expired_lockout_cleared (lockout : Lockout) (w : World) :
  lockoutItem (localStorage w) = Some (Json lockout) ->
  lockout_until lockout <= now_of w ->
  let w' := snd (isLockedOut w) in
  fst (isLockedOut w) = Unlocked
  /\ lockoutItem (localStorage w') = None
  /\ violationsItem (localStorage w') = None
  /\ attemptItems (localStorage w') = attemptItems (localStorage w)
  /\ (forall (n : nat) (w2 : World),
        lockoutItem (localStorage w2) = lockoutItem (localStorage w') ->
        Forall (fun s => locked s = false) (fst (repeatM n isLockedOut w2))
        /\ snd (repeatM n isLockedOut w2) = w2).
Proof.
  intros Hitem Hexpired.
  assert (Hstored : stored_lockout w = Some lockout)
    by (unfold stored_lockout; by rewrite Hitem).
  cbv zeta. rewrite isLockedOut_eq, Hstored.
  destruct (Z.ltb_spec (now_of w) (lockout_until lockout)); [lia |].
  cbn [fst snd]. do 4 (split; [reflexivity |]).
  intros n w2 Hsame.
  assert (Hnone : stored_lockout w2 = None)
    by (unfold stored_lockout; rewrite Hsame; reflexivity).
  rewrite (unlocked_while_absent n w2 Hnone). cbn [fst snd].
  split; [| reflexivity].
  apply Forall_forall. intros s Hs.
  apply elem_of_replicate in Hs as [-> _]. reflexivity.
Qed.

Lemma expired_lockout_cleared_witness :
  let w := ticked (70 * 100) locked_page in
  fst (isLockedOut w) = Unlocked
  /\ stored_lockout (snd (isLockedOut w)) = None
  /\ stored_violations (snd (isLockedOut w)) = []
  /\ fst (isLockedOut (snd (isLockedOut w))) = BareFalse.
Proof.
  intros w.
  destruct (expired_lockout_cleared
              (mkLockout 302000 overlay_violation 2050) w)
    as (Hres & Hlock & Hviol & _ & Hagain).
  - vm_compute. reflexivity.
  - vm_compute. discriminate.
  - split; [exact Hres |].
    split; [unfold stored_lockout; by rewrite Hlock |].
    split; [unfold stored_violations; by rewrite Hviol |].
    rewrite isLockedOut_absent; [reflexivity |].
    unfold stored_lockout. by rewrite Hlock.
Defined.

(** C10, as the code has it.  With no lockout record in the store, or
    one that does not parse, [isLockedOut] returns the bare [false] and
    changes nothing; with an expired record it returns the record
    [{ locked: false }].  A caller that reads [.locked], as [openOverlay]
    and [showRateLimitStatus] do, finds a false condition on both
    results.  A caller that tests the result itself does not: the bare
    [false] counts as false, the record as true. *)
Theorem isLockedOut_unlocked_shapes (absent expired : World)
    (lockout : Lockout) :
  lockoutItem (localStorage absent) = None
  \/ lockoutItem (localStorage absent) = Some Garbled ->
  lockoutItem (localStorage expired) = Some (Json lockout) ->
  lockout_until lockout <= now_of expired ->
  let bare := fst (isLockedOut absent) in
  let record := fst (isLockedOut expired) in
  isLockedOut absent = (BareFalse, absent)
  /\ record = Unlocked
  /\ locked bare = false
  /\ locked record = false
  /\ ToBoolean bare = false
  /\ ToBoolean record = true.
Proof.
  intros Hnone Hitem Hexpired. cbv zeta.
  assert (Habsent : isLockedOut absent = (BareFalse, absent)).
  { apply isLockedOut_absent. unfold stored_lockout.
    destruct Hnone as [-> | ->]; reflexivity. }
  assert (Hrecord : fst (isLockedOut expired) = Unlocked).
  { rewrite isLockedOut_eq. unfold stored_lockout. rewrite Hitem.
    destruct (Z.ltb_spec (now_of expired) (lockout_until lockout));
      [lia | reflexivity]. }
  rewrite Habsent, Hrecord. repeat split.
Qed.

Lemma isLockedOut_unlocked_shapes_witness :
  isLockedOut (fresh_world 1000 50) = (BareFalse, fresh_world 1000 50)
  /\ fst (isLockedOut (ticked (70 * 100) locked_page)) = Unlocked.
Proof.
  destruct (isLockedOut_unlocked_shapes
              (fresh_world 1000 50) (ticked (70 * 100) locked_page)
              (mkLockout 302000 overlay_violation 2050))
    as (Habsent & Hexpired & _).
  - left. reflexivity.
  - vm_compute. reflexivity.
  - vm_compute. discriminate.
  - split; [exact Habsent | exact Hexpired].
Defined.

(** C10 as stated fails in its last clause: on a fresh page and on a page
    whose lockout has run out [isLockedOut] reports unlocked, and [.locked]
    is false on both results, but a caller that relies on the truthiness
    of the result takes the false branch on the first and the true branch
    on the second. *)
Lemma unlocked_results_differ_in_truthiness :
  let bare := fst (isLockedOut (fresh_world 1000 50)) in
  let record := fst (isLockedOut (ticked (70 * 100) locked_page)) in
  locked bare = false
  /\ locked record = false
  /\ ToBoolean bare = false
  /\ ToBoolean record = true
  /\ ToBoolean bare <> ToBoolean record.
Proof.
  assert (Hbare : fst (isLockedOut (fresh_world 1000 50)) = BareFalse)
    by (vm_compute; reflexivity).
  assert (Hrecord : fst (isLockedOut (ticked (70 * 100) locked_page))
                    = Unlocked)
    by (vm_compute; reflexivity).
  cbv zeta. rewrite Hbare, Hrecord. repeat split. discriminate.
Qed.

(** ** The event queue and its delivery *)

(** One call of [flushEvents], up to its [await]. *)
Lemma flushEvents_begin_eq w :
  flushEvents_begin w =
    match eventQueue (logger w) with
    | [] => (None, w)
    | _ :: _ =>
        (Some (eventQueue (logger w)),
         with_logger
           (mkLogger [] false (eventCounter (logger w))
              (S (randomDraws (logger w)))
              (fetched (logger w)
               ++ [mkRequest (eventQueue (logger w))
                     (mkBatchId (now_of w) (randomDraws (logger w)))]))
           (tick w))
    end.
Proof.
  unfold flushEvents_begin, generateBatchId, Math_random, fetch. run_js.
  destruct (eventQueue (logger w)) as [| e q] eqn:Hq; [reflexivity |].
  cbn [length]. rewrite Nat2Z.inj_succ.
  destruct (Z.eqb_spec (Z.succ (Z.of_nat (length q))) 0); [lia |].
  destruct (flushTimer (logger w)) eqn:Htimer;
    unfold set_fetched, set_randomDraws, set_eventQueue, set_flushTimer;
    simpl; rewrite ?Htimer; reflexivity.
Qed.

Lemma logSecurityEventToServer_eq eventType metadata w :
  logSecurityEventToServer eventType metadata w =
    let w1 := pushed eventType metadata w in
    if (Z.of_nat (length (eventQueue (logger w1)))
        >=? LOGGING_CONFIG_batchSize)
    then flushEvents_begin w1
    else (None, with_logger (set_flushTimer true (logger w1)) w1).
Proof.
  unfold logSecurityEventToServer. simpl negb. cbv iota. run_js.
  fold (now_of w). fold (logged_event eventType metadata w).
  match goal with
  | |- (if ?b then _ else _) ?w1 = _ =>
      change w1 with (pushed eventType metadata w)
  end.
  destruct (_ >=? _); [reflexivity |].
  unfold scheduleFlush. run_js.
  destruct (flushTimer (logger w)) eqn:Htimer;
    unfold pushed, set_flushTimer, with_logger;
    simpl; rewrite ?Htimer; reflexivity.
Qed.

(** What one call of [logSecurityEventToServer] does to the queue and to
    the requests issued: below the batch size the event is queued and a
    flush is scheduled; at the batch size the whole queue, the event last,
    leaves in one new request. *)
Lemma logSecurityEventToServer_effect eventType metadata w :
  let event := logged_event eventType metadata w in
  let queue := eventQueue (logger w) ++ [event] in
  let w' := snd (logSecurityEventToServer eventType metadata w) in
  eventCounter (logger w') = eventCounter (logger w) + 1
  /\ ((Z.of_nat (length queue) < LOGGING_CONFIG_batchSize
       /\ fst (logSecurityEventToServer eventType metadata w) = None
       /\ eventQueue (logger w') = queue
       /\ flushTimer (logger w') = true
       /\ fetched (logger w') = fetched (logger w))
      \/ (LOGGING_CONFIG_batchSize <= Z.of_nat (length queue)
          /\ fst (logSecurityEventToServer eventType metadata w) = Some queue
          /\ eventQueue (logger w') = []
          /\ flushTimer (logger w') = false
          /\ exists id,
               fetched (logger w')
               = fetched (logger w) ++ [mkRequest queue id])).
Proof.
  cbv zeta. rewrite logSecurityEventToServer_eq. cbv zeta.
  change (eventQueue (logger (pushed eventType metadata w)))
    with (eventQueue (logger w) ++ [logged_event eventType metadata w]).
  destruct (Z.geb_spec
              (Z.of_nat (length (eventQueue (logger w)
                                 ++ [logged_event eventType metadata w])))
              LOGGING_CONFIG_batchSize) as [Hfull | Hroom].
  - rewrite flushEvents_begin_eq.
    change (eventQueue (logger (pushed eventType metadata w)))
      with (eventQueue (logger w) ++ [logged_event eventType metadata w]).
    destruct (eventQueue (logger w) ++ [logged_event eventType metadata w])
      as [| e q] eqn:Hq.
    { by apply app_nil in Hq as [_ ?]. }
    cbn [fst snd]. split; [reflexivity |]. right.
    repeat split; [lia |]. eexists. reflexivity.
  - cbn [fst snd]. split; [reflexivity |]. left.
    repeat split. lia.
Qed.

Lemma numbered_fresh start step : numbered (fresh_world start step).
Proof. split; constructor. Qed.

Lemma Forall_le_weaken (es : list Event) (n m : Z) :
  n <= m ->
  Forall (fun e => eventNumber e <= n) es ->
  Forall (fun e => eventNumber e <= m) es.
Proof.
  intros Hnm Hall. eapply Forall_impl; [exact Hall |].
  intros e He. simpl in *. lia.
Qed.

Lemma numbered_logged eventType metadata w :
  numbered w ->
  numbered (snd (logSecurityEventToServer eventType metadata w)).
Proof.
  intros [Hq Hf].
  destruct (logSecurityEventToServer_effect eventType metadata w)
    as (Hc & [(_ & _ & Hq' & _ & Hf') | (_ & _ & Hq' & _ & id & Hf')]).
  all: set (w' := snd (logSecurityEventToServer eventType metadata w)) in *.
  all: assert (Hqueue : Forall (fun e => eventNumber e
                                         <= eventCounter (logger w'))
                          (eventQueue (logger w)
                           ++ [logged_event eventType metadata w])).
  1, 3: rewrite Hc; apply Forall_app; split;
          [apply (Forall_le_weaken _ (eventCounter (logger w))); [lia | done]
          | constructor; [simpl; lia | constructor]].
  all: assert (Hsent : Forall (fun r => Forall (fun e => eventNumber e
                                          <= eventCounter (logger w'))
                                          (events r))
                         (fetched (logger w))).
  1, 3: rewrite Hc; eapply Forall_impl; [exact Hf |];
          intros r Hr;
          apply (Forall_le_weaken _ (eventCounter (logger w))); [lia | done].
  - split; cbv zeta; [rewrite Hq'; exact Hqueue | rewrite Hf'; exact Hsent].
  - split; cbv zeta; [rewrite Hq'; constructor |].
    rewrite Hf'. apply Forall_app. split; [exact Hsent |].
    constructor; [exact Hqueue | constructor].
Qed.

Lemma numbered_flushed w :
  numbered w -> numbered (snd (flushEvents_begin w)).
Proof.
  intros [Hq Hf]. rewrite flushEvents_begin_eq.
  destruct (eventQueue (logger w)) as [| e q] eqn:Hqueue.
  { split; cbv zeta; simpl; [rewrite Hqueue; constructor | exact Hf]. }
  split; cbv zeta; simpl; [constructor |].
  apply Forall_app. split; [exact Hf |].
  constructor; [exact Hq | constructor].
Qed.

(** [flushEvents] after the [await]: only the queue can change, and only
    by getting [eventsToSend] back at its front. *)
Lemma flushEvents_resume_eq eventsToSend outcome w :
  flushEvents_resume eventsToSend outcome w =
    (tt,
     if (match outcome with
         | Response status => negb (response_ok status)
         | Rejected => true
         end
         && (Z.of_nat (length eventsToSend) <? 100))%bool
     then with_logger
            (set_eventQueue (eventsToSend ++ eventQueue (logger w))
                            (logger w)) w
     else w).
Proof.
  unfold flushEvents_resume, requeue. run_js.
  destruct outcome as [status |]; simpl.
  - destruct (response_ok status); simpl; [reflexivity |].
    destruct (_ <? _); reflexivity.
  - destruct (_ <? _); reflexivity.
Qed.

Lemma numbered_settled eventsToSend outcome w :
  numbered w ->
  Forall (fun e => eventNumber e <= eventCounter (logger w)) eventsToSend ->
  numbered (snd (flushEvents_resume eventsToSend outcome w)).
Proof.
  intros [Hq Hf] Hsent. rewrite flushEvents_resume_eq. cbn [snd].
  destruct (_ && _)%bool; [| by split].
  split; cbv zeta; simpl; [| exact Hf].
  apply Forall_app. by split.
Qed.

(** C4.  A flush sends, in one request, exactly the queue as it is when
    the flush starts, in order, and the queue is empty by the time the
    request is issued; with an empty queue nothing is sent.  A call of
    [logSecurityEventToServer] that brings the queue to the batch size
    flushes the queue with its own event last.  An event logged while a
    request is in flight leaves that request as it was and is not among
    its events: it is queued, or leaves in a later request.  When a
    request settles, whatever its outcome, the requests issued are
    unchanged and everything queued stays queued, in order. *)
Theorem flush_sends_queue_snapshot (w : World) :
  let queue := eventQueue (logger w) in
  (queue = [] -> flushEvents_begin w = (None, w))
  /\ (queue <> [] ->
      let w' := snd (flushEvents_begin w) in
      fst (flushEvents_begin w) = Some queue
      /\ eventQueue (logger w') = []
      /\ exists (id : BatchId) (cleared : World),
           eventQueue (logger cleared) = []
           /\ fetched (logger cleared) = fetched (logger w)
           /\ w' = snd (fetch (mkRequest queue id) cleared)
           /\ fetched (logger w')
              = fetched (logger w) ++ [mkRequest queue id])
  /\ (forall eventType metadata,
        let event := logged_event eventType metadata w in
        let w' := snd (logSecurityEventToServer eventType metadata w) in
        LOGGING_CONFIG_batchSize <= Z.of_nat (length (queue ++ [event])) ->
        fst (logSecurityEventToServer eventType metadata w)
        = Some (queue ++ [event])
        /\ eventQueue (logger w') = []
        /\ exists id,
             fetched (logger w')
             = fetched (logger w) ++ [mkRequest (queue ++ [event]) id])
  /\ (forall (i : nat) (sent : Request) eventType metadata,
        numbered w ->
        fetched (logger w) !! i = Some sent ->
        let event := logged_event eventType metadata w in
        let w' := snd (logSecurityEventToServer eventType metadata w) in
        fetched (logger w') !! i = Some sent
        /\ (event ∉ events sent)
        /\ (event ∈ eventQueue (logger w')
            \/ exists (j : nat) (later : Request),
                 (i < j)%nat
                 /\ fetched (logger w') !! j = Some later
                 /\ event ∈ events later))
  /\ (forall eventsToSend outcome,
        let w' := snd (flushEvents_resume eventsToSend outcome w) in
        fetched (logger w') = fetched (logger w)
        /\ exists requeued, eventQueue (logger w') = requeued ++ queue).
Proof.
  cbv zeta. split; [| split; [| split; [| split]]].
  - intros Hempty. rewrite flushEvents_begin_eq, Hempty. reflexivity.
  - intros Hsome. rewrite flushEvents_begin_eq.
    destruct (eventQueue (logger w)) as [| e q] eqn:Hq; [done |].
    cbn [fst snd]. do 2 (split; [reflexivity |]).
    exists (mkBatchId (now_of w) (randomDraws (logger w))).
    exists (with_logger
              (mkLogger [] false (eventCounter (logger w))
                        (S (randomDraws (logger w))) (fetched (logger w)))
              (tick w)).
    repeat split.
  - intros eventType metadata Hfull.
    destruct (logSecurityEventToServer_effect eventType metadata w)
      as (_ & [(Hroom & _) | (_ & Hres & Hq & _ & Hf)]); [lia |].
    auto.
  - intros i sent eventType metadata [_ Hsent] Hi.
    assert (Hnew : logged_event eventType metadata w ∉ events sent).
    { intros Hin.
      assert (Hr : sent ∈ fetched (logger w))
        by (apply list_elem_of_lookup; eauto).
      pose proof (proj1 (Forall_forall _ _) Hsent sent Hr) as Hev.
      pose proof (proj1 (Forall_forall _ _) Hev _ Hin) as Hle.
      simpl in Hle. lia. }
    destruct (logSecurityEventToServer_effect eventType metadata w)
      as (_ & [(_ & _ & Hq & _ & Hf) | (_ & _ & Hq & _ & id & Hf)]).
    + rewrite Hf, Hq. repeat split; [exact Hi | exact Hnew |].
      left. set_solver.
    + rewrite Hf. repeat split; [| exact Hnew |].
      * rewrite lookup_app_l; [exact Hi |].
        by apply lookup_lt_Some in Hi.
      * right. eexists (length (fetched (logger w))), _.
        split; [by apply lookup_lt_Some in Hi |].
        split; [apply list_lookup_middle; reflexivity |].
        simpl. set_solver.
  - intros eventsToSend outcome. rewrite flushEvents_resume_eq.
    cbn [snd]. destruct (_ && _)%bool.
    + split; [reflexivity |]. eexists. reflexivity.
    + split; [reflexivity |]. exists []. reflexivity.
Qed.

(** C5.  When the request of a batch fails, by a response that is not ok
    or by a rejected promise: a batch of fewer than 100 events is put back
    at the front of the queue, in its order, ahead of everything that is
    queued at that moment; a batch of 100 events or more is dropped.
    Nothing else changes. *)
Theorem failed_batch_requeued_at_front (eventsToSend : list Event)
    (outcome : FetchOutcome) (w : World) :
  outcome = Rejected
  \/ (exists status, outcome = Response status
                     /\ response_ok status = false) ->
  let w' := snd (flushEvents_resume eventsToSend outcome w) in
  (Z.of_nat (length eventsToSend) < 100 ->
   eventQueue (logger w') = eventsToSend ++ eventQueue (logger w)
   /\ w' = with_logger
             (set_eventQueue (eventsToSend ++ eventQueue (logger w))
                             (logger w)) w)
  /\ (100 <= Z.of_nat (length eventsToSend) -> w' = w).
Proof.
  intros Hfailed. cbv zeta. rewrite flushEvents_resume_eq. cbn [snd].
  assert (Hcond : match outcome with
                  | Response status => negb (response_ok status)
                  | Rejected => true
                  end = true).
  { destruct Hfailed as [-> | (status & -> & ->)]; reflexivity. }
  rewrite Hcond. cbn [andb].
  destruct (Z.ltb_spec (Z.of_nat (length eventsToSend)) 100).
  - split; [| lia]. intros _. split; reflexivity.
  - split; [lia |]. intros _. reflexivity.
Qed.

Lemma flush_sends_queue_snapshot_witness :
  length sent_batch = 10%nat
  /\ eventNumber <$> sent_batch = [1; 2; 3; 4; 5; 6; 7; 8; 9; 10]
  /\ eventQueue (logger ten_logged) = []
  /\ (events <$> fetched (logger two_more)) = [sent_batch]
  /\ eventNumber <$> eventQueue (logger two_more) = [11; 12].
Proof.
  set (nine := snd (repeatM 9 click (fresh_world 1000 50))).
  destruct (flush_sends_queue_snapshot nine) as (_ & _ & Hsize & _).
  destruct (Hsize "document_clicked" ∅) as (_ & Hq & id & Hf).
  { vm_compute. discriminate. }
  assert (Hten : snd (logSecurityEventToServer "document_clicked" ∅ nine) = ten_logged) by (vm_compute; reflexivity).
  rewrite Hten in Hq, Hf.
  split; [vm_compute; reflexivity |].
  split; [vm_compute; reflexivity |].
  split; [exact Hq |].
  split; vm_compute; reflexivity.
Defined.

Lemma failed_batch_requeued_at_front_witness :
  let w' := snd (flushEvents_resume sent_batch (Response 500) two_more) in
  eventQueue (logger w') = sent_batch ++ eventQueue (logger two_more)
  /\ eventNumber <$> eventQueue (logger w')
     = [1; 2; 3; 4; 5; 6; 7; 8; 9; 10; 11; 12].
Proof.
  intros w'.
  destruct (failed_batch_requeued_at_front sent_batch (Response 500) two_more)
    as [Hsmall _].
  - right. exists 500. split; reflexivity.
  - destruct Hsmall as [Hq _]; [vm_compute; reflexivity |].
    split; [exact Hq |]. fold w' in Hq. rewrite Hq.
    vm_compute. reflexivity.
Defined.

(** ** The event classifier *)

Section Classifier.

Variable StringToNumber : string -> option Z.
Variable ArrayToString : list JSValue -> string.

Lemma observes_wret {A} ref (a : A) : observes ref (wret a).
Proof. intros s. split; [reflexivity | intros s2 _; reflexivity]. Qed.

Lemma observes_throw {A} ref : observes ref (@throw A).
Proof. intros s. split; [reflexivity | intros s2 _; reflexivity]. Qed.

Lemma observes_wbind {A B} ref (m : W A) (k : A -> W B) :
  observes ref m -> (forall a, observes ref (k a)) ->
  observes ref (wbind m k).
Proof.
  intros Hm Hk s. destruct (Hm s) as [Hstate Hsame]. unfold wbind.
  split.
  - destruct (m s) as [[a |] s'] eqn:Hrun; simpl in Hstate; subst s'.
    + apply (Hk a s).
    + reflexivity.
  - intros s2 Href. specialize (Hsame s2 Href).
    destruct (Hm s2) as [Hstate2 _].
    destruct (m s) as [[a |] s'] eqn:Hrun;
      destruct (m s2) as [[a2 |] s2'] eqn:Hrun2;
      simpl in *; subst; try discriminate.
    + injection Hsame as ->. by apply (Hk a s).
    + reflexivity.
Qed.

Lemma observes_deref ref : observes ref (deref ref).
Proof.
  intros s. unfold deref. split.
  - destruct (heap s !! ref); reflexivity.
  - intros s2 ->. destruct (heap s !! ref); reflexivity.
Qed.

Lemma observes_member ref v k : observes ref (member v k).
Proof. destruct v; first [apply observes_wret | apply observes_throw]. Qed.

Lemma observes_optional_includes ref v literal :
  observes ref (optional_includes v literal).
Proof.
  destruct v; first [apply observes_wret | apply observes_throw].
Qed.

Lemma observes_ToNumber ref v :
  observes ref (ToNumber StringToNumber ArrayToString v).
Proof.
  unfold ToNumber.
  destruct (ToPrimitive_throws v);
    first [apply observes_wret | apply observes_throw].
Qed.

Lemma observes_greater_than ref v n :
  observes ref (greater_than StringToNumber ArrayToString v n).
Proof.
  apply observes_wbind; [apply observes_ToNumber |].
  intros x. apply observes_wret.
Qed.

Lemma observes_less_than ref v n :
  observes ref (less_than StringToNumber ArrayToString v n).
Proof.
  apply observes_wbind; [apply observes_ToNumber |].
  intros x. apply observes_wret.
Qed.

Ltac observe :=
  repeat first
    [ apply observes_wret
    | apply observes_throw
    | apply observes_deref
    | apply observes_member
    | apply observes_optional_includes
    | apply observes_greater_than
    | apply observes_less_than
    | apply observes_wbind; [| intros ?]
    | match goal with
      | |- observes _ (if ?b then _ else _) => destruct b
      end ].

Lemma checkSecurityPatterns_observes event :
  observes event (checkSecurityPatterns StringToNumber ArrayToString event).
Proof. unfold checkSecurityPatterns. observe. Qed.

Lemma returns_wret {A} (a : A) (P : A -> Prop) : P a -> returns (wret a) P.
Proof. intros Ha s a' [= <-]. exact Ha. Qed.

Lemma returns_anything {A} (m : W A) : returns m (fun _ => True).
Proof. intros s a _. exact I. Qed.

Lemma returns_wbind {A B} (m : W A) (k : A -> W B) P Q :
  returns m P -> (forall a, P a -> returns (k a) Q) ->
  returns (wbind m k) Q.
Proof.
  intros Hm Hk s b. unfold wbind.
  destruct (m s) as [[a |] s'] eqn:Hrun; [| discriminate].
  apply (Hk a). apply (Hm s). by rewrite Hrun.
Qed.

Lemma after_keep k c : c ∈ outcomes_after k -> c ∈ outcomes_after (S k).
Proof.
  unfold outcomes_after. intros Hc.
  destruct (patterns !! k) as [p |] eqn:Hp.
  - rewrite (take_S_r _ _ _ Hp), foldl_app. simpl. set_solver.
  - rewrite take_ge in Hc |- *; [done | |];
      apply lookup_ge_None in Hp; lia.
Qed.

Lemma after_raise k p c :
  patterns !! k = Some p -> c ∈ outcomes_after k ->
  raise p c ∈ outcomes_after (S k).
Proof.
  unfold outcomes_after. intros Hp Hc.
  rewrite (take_S_r _ _ _ Hp), foldl_app. simpl.
  apply elem_of_app. right. by apply list_elem_of_fmap_2.
Qed.

Ltac stage k :=
  eapply returns_wbind; [apply returns_anything | intros ? _];
  eapply returns_wbind; [apply returns_anything | intros ? _];
  eapply (returns_wbind _ _ (fun c => c ∈ outcomes_after (S k)));
  [ repeat first
      [ apply returns_wret
      | eapply returns_wbind; [apply returns_anything | intros ? _]
      | match goal with
        | |- returns (if ?b then _ else _) _ => destruct b
        end ];
    first [ by apply after_keep
          | by apply (after_raise k _ _ eq_refl) ]
  | intros ? ? ].

Lemma checkSecurityPatterns_returns event :
  returns (checkSecurityPatterns StringToNumber ArrayToString event)
          (fun c => c ∈ outcomes_after 5).
Proof.
  unfold checkSecurityPatterns.
  assert (H0 : mkCheck false [] ∈ outcomes_after 0)
    by apply list_elem_of_here.
  revert H0. generalize (mkCheck false []). intros c Hc.
  stage 0%nat. stage 1%nat. stage 2%nat. stage 3%nat. stage 4%nat.
  by apply returns_wret.
Qed.

Lemma after_well_formed : Forall well_formed (outcomes_after 5).
Proof.
  let l := eval vm_compute in (outcomes_after 5) in
  change (outcomes_after 5) with l.
  repeat (constructor; [split; vm_compute; reflexivity |]).
  constructor.
Qed.

(** C9.  Evaluating the classifier changes nothing: neither the event
    object nor any other object of the heap, nor the console.  Its
    outcome, the value of [isSuspicious] with the sequence of flags, or
    the exception, is determined by the event object alone, so a second
    evaluation on the same event returns the same outcome.  The flags
    returned always follow the order of the checks, and [isSuspicious]
    is set exactly when a flag other than [cors_error] was raised. *)
Theorem checkSecurityPatterns_deterministic (event : nat) (s : State) :
  let classify := checkSecurityPatterns StringToNumber ArrayToString event in
  snd (classify s) = s
  /\ classify (snd (classify s)) = classify s
  /\ (forall s2 : State,
        heap s2 !! event = heap s !! event ->
        fst (classify s2) = fst (classify s))
  /\ (forall c : Check,
        fst (classify s) = Normal c ->
        sublist (flags c) (fst <$> patterns)
        /\ isSuspicious c
           = existsb (fun f => negb (String.eqb f "cors_error"))
                     (flags c)).
Proof.
  cbv zeta. destruct (checkSecurityPatterns_observes event s) as [Hs Hdet].
  split; [exact Hs |]. split; [by rewrite Hs |]. split; [exact Hdet |].
  intros c Hc.
  pose proof (checkSecurityPatterns_returns event s c Hc) as Hafter.
  pose proof (proj1 (Forall_forall _ _) after_well_formed c Hafter)
    as [Horder Hsusp].
  split; [| exact Hsusp].
  rewrite Horder. apply sublist_filter.
Qed.

End Classifier.

Lemma checkSecurityPatterns_deterministic_witness :
  let classify :=
    Worker.checkSecurityPatterns (fun _ => None) (fun _ => EmptyString)
      0%nat in
  classify worker_state
  = (Worker.Normal (Worker.mkCheck true ["excessive_overlay_opens"]),
     worker_state)
  /\ fst (classify (Worker.mkState (Worker.heap worker_state)
                                   [("[STORED]", ["evt_1"])]))
     = fst (classify worker_state).
Proof.
  intros classify.
  destruct (checkSecurityPatterns_deterministic
              (fun _ => None) (fun _ => EmptyString) 0%nat worker_state)
    as (Hstate & _ & Hsame & _).
  split.
  - rewrite (surjective_pairing (classify worker_state)).
    fold classify in Hstate. rewrite Hstate. reflexivity.
  - apply Hsame. reflexivity.
Defined.

(** The caller is where the event gets changed: after the lines of
    [handleRequest] around the classifier, the event object carries the
    flags and the severity, and the alert was written to the console. *)
Example handleRequest_flags_the_event :
  let after_check :=
    snd (Worker.handleRequest_securityCheck
           (fun _ => None) (fun _ => EmptyString) 0%nat worker_state) in
  Worker.heap after_check !! 0%nat
  = Some (Worker.JObj
            [("eventType", Worker.JStr "overlay_opened");
             ("metadata", Worker.JObj [("openCount", Worker.JNum 51)]);
             ("securityFlags",
              Worker.JArr [Worker.JStr "excessive_overlay_opens"]);
             ("severity", Worker.JStr "HIGH")])
  /\ Worker.console after_check
     = [("[ALERT SENT]", ["excessive_overlay_opens"])].
Proof. split; reflexivity. Qed.
(** * Further properties *)

(** ** The rate limiter over time *)

Lemma in_window_later this (t1 t2 : Z) (times : list Z) :
  t1 <= t2 ->
  in_window this t2 (in_window this t1 times) = in_window this t2 times.
Proof.
  intros Hle. unfold in_window. apply list_filter_filter_l.
  intros t' Ht'. lia.
Qed.

Lemma granted_cons_allowed t r calls :
  granted ((t, Allowed r) :: calls) = t :: granted calls.
Proof. unfold granted. rewrite filter_cons_True by reflexivity. reflexivity. Qed.

Lemma granted_cons_denied t s calls :
  granted ((t, Denied s) :: calls) = granted calls.
Proof.
  unfold granted. rewrite filter_cons_False; [reflexivity |].
  simpl. discriminate.
Qed.

Lemma now_of_later this w :
  monotone_clock w ->
  monotone_clock (snd (isAllowed this w))
  /\ now_of w <= now_of (snd (isAllowed this w)).
Proof.
  intros Hmono. destruct (isAllowed_clock this w) as [Hr Ht].
  split.
  - intros i j Hij. rewrite Hr. by apply Hmono.
  - unfold now_of. rewrite Hr. apply Hmono. lia.
Qed.

(** The store holds the granted calls of the window that ended at the
    last granted call, [last]. *)
Lemma window_run this : forall (N : nat) (w : World) (hist : list Z) (last : Z),
  0 < windowMs this ->
  monotone_clock w ->
  stored_attempts this w = in_window this last hist ->
  last <= now_of w ->
  forall pre t v post,
    timed_calls this N w = pre ++ (t, v) :: post ->
    let recent := in_window this t (hist ++ granted pre) in
    (allowed v = true <-> Z.of_nat (length recent) < maxAttempts this)
    /\ (Z.of_nat (length (stored_attempts this w)) <= maxAttempts this ->
        Z.of_nat (length recent) <= maxAttempts this).
Proof.
  induction N as [| N IH]; intros w hist last Hwin Hmono Hstored Hlast
    pre t v post Hsplit.
  { by destruct pre. }
  assert (Hvalid : valid_attempts this w = in_window this (now_of w) hist).
  { unfold valid_attempts. rewrite Hstored.
    apply (in_window_later this last (now_of w) hist Hlast). }
  destruct (now_of_later this w Hmono) as [Hmono1 Hnow1].
  cbn [timed_calls] in Hsplit.
  destruct pre as [| c pre].
  - inversion Hsplit as [[Ht Hv Hpost]]. clear Hsplit. cbv zeta. unfold granted. simpl.
    rewrite app_nil_r, <- Hvalid. split.
    + rewrite isAllowed_eq.
      destruct (Z.geb_spec (Z.of_nat (length (valid_attempts this w)))
                  (maxAttempts this)); simpl; split; intros; try lia;
        try discriminate; reflexivity.
    + intros Hinv.
      pose proof (length_filter
                    (fun timestamp => now_of w - timestamp < windowMs this)
                    (stored_attempts this w)) as Hlen.
      fold (valid_attempts this w) in Hlen. lia.
  - inversion Hsplit as [[Hc Hrest]]. clear Hsplit.
    pose proof (isAllowed_storage this w) as Hstore.
    destruct (Z_lt_le_dec (Z.of_nat (length (valid_attempts this w)))
                (maxAttempts this)) as [Hroom | Hfull].
    + rewrite (isAllowed_allowed this w Hroom) in *. cbn [fst snd] in *.
      rewrite granted_cons_allowed.
      replace (hist ++ now_of w :: granted pre)
        with ((hist ++ [now_of w]) ++ granted pre)
        by (by rewrite <- app_assoc).
      set (w1 := with_localStorage _ (tick w)) in *.
      assert (Hst1 : stored_attempts this w1
                     = in_window this (now_of w) (hist ++ [now_of w])).
      { unfold stored_attempts, w1. simpl. rewrite lookup_insert_eq.
        unfold in_window at 1. rewrite filter_app, filter_cons_True by lia.
        rewrite filter_nil. by rewrite Hvalid. }
      destruct (IH w1 (hist ++ [now_of w]) (now_of w) Hwin Hmono1 Hst1 Hnow1
                  pre t v post Hrest) as [Hiff Hbound].
      split; [exact Hiff |]. intros _. apply Hbound.
      rewrite Hst1. unfold in_window. rewrite filter_app, length_app.
      rewrite filter_cons_True by lia. simpl.
      unfold in_window in Hvalid. rewrite <- Hvalid. lia.
    + destruct (isAllowed_denied this w Hfull) as [Hres (_ & Hls & _)].
      rewrite Hres in *. rewrite granted_cons_denied.
      assert (Hst1 : stored_attempts this (snd (isAllowed this w))
                     = in_window this last hist).
      { rewrite <- Hstored. unfold stored_attempts. by rewrite Hls. }
      destruct (IH (snd (isAllowed this w)) hist last Hwin Hmono1 Hst1
                  ltac:(lia) pre t v post Hrest) as [Hiff Hbound].
      split; [exact Hiff |]. intros Hinv. apply Hbound.
      rewrite Hst1, <- Hstored. exact Hinv.
Qed.

(** X1.  On a page whose clock never goes back, starting with nothing
    stored for the action: a call of [isAllowed] is allowed exactly when
    fewer than [maxAttempts] of the earlier calls were allowed less than
    [windowMs] before it; so a window never holds more than [maxAttempts]
    allowed calls. *)
Theorem sliding_window_exact (this : RateLimiter.t) (N : nat) (w : World)
    (pre post : list (Z * Verdict)) (t : Z) (v : Verdict) :
  0 < windowMs this ->
  0 <= maxAttempts this ->
  monotone_clock w ->
  attemptItems (localStorage w) !! storageKey this = None ->
  timed_calls this N w = pre ++ (t, v) :: post ->
  let recent := in_window this t (granted pre) in
  (allowed v = true <-> Z.of_nat (length recent) < maxAttempts this)
  /\ Z.of_nat (length recent) <= maxAttempts this
  /\ (allowed v = true ->
      Z.of_nat (length (in_window this t (granted pre ++ [t])))
      <= maxAttempts this).
Proof.
  intros Hwin Hmax Hmono Hempty Hsplit recent.
  assert (Hstored : stored_attempts this w = [])
    by (unfold stored_attempts; by rewrite Hempty).
  destruct (window_run this N w [] (now_of w) Hwin Hmono
              ltac:(by rewrite Hstored) ltac:(lia) pre t v post Hsplit)
    as [Hiff Hbound].
  cbv zeta in Hiff, Hbound. rewrite app_nil_l in Hiff, Hbound.
  fold recent in Hiff, Hbound.
  split; [exact Hiff |].
  split; [apply Hbound; rewrite Hstored; simpl; lia |].
  intros Hallowed. apply Hiff in Hallowed.
  unfold in_window. rewrite filter_app, length_app.
  rewrite filter_cons_True by lia. simpl. fold (in_window this t (granted pre)).
  fold recent. lia.
Qed.

Lemma sliding_window_exact_witness :
  let this := RateLimiter.new "document_click" 2 60000 in
  timed_calls this 3 (fresh_world 1000 50)
  = [(1000, Allowed 1); (1050, Allowed 0); (1100, Denied (Finite 60))]
  /\ Z.of_nat (length (in_window this 1100 [1000; 1050])) = 2.
Proof.
  intros this.
  assert (Hcalls : timed_calls this 3 (fresh_world 1000 50)
                   = [(1000, Allowed 1); (1050, Allowed 0)]
                     ++ (1100, Denied (Finite 60)) :: [])
    by (vm_compute; reflexivity).
  destruct (sliding_window_exact this 3 (fresh_world 1000 50)
              [(1000, Allowed 1); (1050, Allowed 0)] [] 1100
              (Denied (Finite 60)))
    as (Hiff & Hbound & _).
  - simpl. lia.
  - simpl. lia.
  - intros i j Hij. simpl. lia.
  - reflexivity.
  - exact Hcalls.
  - split; [exact Hcalls |].
    assert (granted [(1000, Allowed 1); (1050, Allowed 0)] = [1000; 1050])
      as Hadm by reflexivity.
    rewrite Hadm in Hbound.
    destruct Hiff as [_ Hiff].
    assert (Z.of_nat (length (in_window this 1100 [1000; 1050])) = 2
            \/ Z.of_nat (length (in_window this 1100 [1000; 1050])) < 2)
      as [Heq | Hlt] by (simpl in *; lia); [exact Heq |].
    rewrite Hadm in Hiff. specialize (Hiff Hlt). discriminate.
Defined.

Lemma isAllowed_all_expired this w :
  0 < maxAttempts this ->
  (forall t, t ∈ stored_attempts this w -> windowMs this <= now_of w - t) ->
  fst (isAllowed this w) = Allowed (maxAttempts this - 1)
  /\ stored_attempts this (snd (isAllowed this w)) = [now_of w].
Proof.
  intros Hmax Hold.
  assert (Hvalid : valid_attempts this w = []).
  { unfold valid_attempts.
    induction (stored_attempts this w) as [| t l IH]; [reflexivity |].
    rewrite filter_cons_False.
    - apply IH. intros t' Ht'. apply Hold. by apply list_elem_of_further.
    - specialize (Hold t (list_elem_of_here _ _)). lia. }
  rewrite isAllowed_allowed by (rewrite Hvalid; simpl; lia).
  rewrite Hvalid. cbn [fst snd length]. split; [f_equal; lia |].
  unfold stored_attempts. simpl. by rewrite lookup_insert_eq.
Qed.

(** X2.  Once every stored attempt is at least [windowMs] old, a limiter
    with [maxAttempts > 0] allows the call, whatever it denied before: all
    the old entries are dropped and the store holds the new attempt only. *)
Theorem window_slides (this : RateLimiter.t) (w : World) :
  0 < maxAttempts this ->
  (forall t, t ∈ stored_attempts this w -> windowMs this <= now_of w - t) ->
  fst (isAllowed this w) = Allowed (maxAttempts this - 1)
  /\ stored_attempts this (snd (isAllowed this w)) = [now_of w].
Proof. apply isAllowed_all_expired. Qed.

Lemma window_slides_witness :
  let this := RateLimiter.new "document_click" 2 60000 in
  let full := snd (repeatM 3 (isAllowed this) (fresh_world 1000 50)) in
  let later := ticked 1200 full in
  stored_attempts this later = [1000; 1050]
  /\ fst (isAllowed this later) = Allowed 1
  /\ stored_attempts this (snd (isAllowed this later)) = [now_of later].
Proof.
  intros this full later.
  destruct (window_slides this later) as [Hres Hstore].
  - simpl. lia.
  - intros t Ht.
    assert (Hst : stored_attempts this later = [1000; 1050])
      by (vm_compute; reflexivity).
    rewrite Hst in Ht.
    assert (Hnow : now_of later = 61200) by (vm_compute; reflexivity).
    rewrite Hnow. simpl.
    apply elem_of_cons in Ht as [-> | Ht]; [lia |].
    apply list_elem_of_singleton in Ht as ->. lia.
  - split; [vm_compute; reflexivity |]. split; [exact Hres | exact Hstore].
Defined.

Lemma storageKey_inj (a b : RateLimiter.t) :
  storageKey a = storageKey b -> action a = action b.
Proof.
  unfold storageKey, RATE_LIMIT_CONFIG_storagePrefix. cbn [String.append].
  intros Heq. by simplify_eq.
Qed.

Lemma isAllowed_other (this other : RateLimiter.t) (w : World) :
  action this <> action other ->
  attemptItems (localStorage (snd (isAllowed this w))) !! storageKey other
  = attemptItems (localStorage w) !! storageKey other.
Proof.
  intros Hne.
  assert (Hkey : storageKey this <> storageKey other)
    by (intros Heq; by apply storageKey_inj in Heq).
  rewrite (isAllowed_storage this w).
  destruct (fst (isAllowed this w)); cbn [attemptItems]; [| reflexivity].
  by rewrite lookup_insert_ne.
Qed.

(** X3.  Limiters of different actions keep their attempts apart: however
    often [isAllowed] is called on one of them, and whatever it answers,
    the attempts stored for the other are as they were. *)
Theorem limiters_independent (this other : RateLimiter.t) (N : nat)
    (w : World) :
  action this <> action other ->
  let w' := snd (repeatM N (isAllowed this) w) in
  attemptItems (localStorage w') !! storageKey other
  = attemptItems (localStorage w) !! storageKey other
  /\ stored_attempts other w' = stored_attempts other w.
Proof.
  intros Hne. cbv zeta.
  assert (Hitem : attemptItems
                    (localStorage (snd (repeatM N (isAllowed this) w)))
                  !! storageKey other
                  = attemptItems (localStorage w) !! storageKey other).
  { revert w. induction N as [| N IH]; intros w; [reflexivity |].
    rewrite repeatM_S.
    pose proof (isAllowed_other this other w Hne) as Hstep.
    destruct (isAllowed this w) as [verdict w1]. cbn [snd] in Hstep.
    specialize (IH w1).
    destruct (repeatM N (isAllowed this) w1) as [verdicts w2].
    cbn [snd] in *. by rewrite IH. }
  split; [exact Hitem |]. unfold stored_attempts. by rewrite Hitem.
Qed.

Lemma limiters_independent_witness :
  let w := snd (isAllowed documentLimiter (fresh_world 1000 50)) in
  let w' := snd (repeatM 25 (isAllowed overlayLimiter) w) in
  stored_attempts documentLimiter w' = [1000]
  /\ length (stored_attempts overlayLimiter w') = 20%nat.
Proof.
  intros w w'.
  destruct (limiters_independent overlayLimiter documentLimiter 25 w)
    as (_ & Hsame).
  - simpl. discriminate.
  - split; [fold w' in Hsame; rewrite Hsame |]; vm_compute; reflexivity.
Defined.

(** X4.  [reset()] forgets the attempts of its action and leaves those of
    every other action as they were.  The next call on a limiter with
    [maxAttempts > 0] is allowed with [maxAttempts - 1] attempts
    remaining, whatever was stored before. *)
Theorem reset_clears_own_attempts (this : RateLimiter.t) (w : World) :
  0 < maxAttempts this ->
  let w' := snd (reset this w) in
  stored_attempts this w' = []
  /\ (forall other : RateLimiter.t,
        action other <> action this ->
        stored_attempts other w' = stored_attempts other w)
  /\ fst (isAllowed this w') = Allowed (maxAttempts this - 1).
Proof.
  intros Hmax. cbv zeta.
  assert (Hempty : stored_attempts this (snd (reset this w)) = []).
  { unfold stored_attempts, reset. run_js. by rewrite lookup_delete_eq. }
  split; [exact Hempty |].
  split.
  { intros other Hne. unfold stored_attempts, reset. run_js.
    rewrite lookup_delete_ne; [reflexivity |].
    intros Heq. by apply storageKey_inj in Heq. }
  apply isAllowed_all_expired; [exact Hmax |].
  rewrite Hempty. intros t Ht. by apply elem_of_nil in Ht.
Qed.

Lemma reset_clears_own_attempts_witness :
  let this := RateLimiter.new "document_click" 2 60000 in
  let full := snd (repeatM 3 (isAllowed this) (fresh_world 1000 50)) in
  allowed (fst (isAllowed this full)) = false
  /\ fst (isAllowed this (snd (reset this full))) = Allowed 1.
Proof.
  intros this full.
  destruct (reset_clears_own_attempts this full) as (_ & _ & Hnext).
  - simpl. lia.
  - split; [vm_compute; reflexivity | exact Hnext].
Defined.

Lemma ceil_div_le (a b : Z) : a <= b -> ceil_div a 1000 <= ceil_div b 1000.
Proof.
  intros Hab. unfold ceil_div.
  pose proof (Z.div_le_mono (- b) (- a) 1000 ltac:(lia) ltac:(lia)). lia.
Qed.

(** X5.  When no stored attempt lies in the future, a denied call of a
    limiter with [maxAttempts > 0] reports a whole number of seconds
    between 1 and [ceil(windowMs / 1000)]. *)
Theorem denied_wait_bounded (this : RateLimiter.t) (w : World)
    (timeToWait : Number) :
  0 < maxAttempts this ->
  (forall t, t ∈ stored_attempts this w -> t <= now_of w) ->
  fst (isAllowed this w) = Denied timeToWait ->
  exists seconds : Z,
    timeToWait = Finite seconds
    /\ 1 <= seconds <= ceil_div (windowMs this) 1000.
Proof.
  intros Hmax Hpast Hdenied.
  destruct (Z_lt_le_dec (Z.of_nat (length (valid_attempts this w)))
              (maxAttempts this)) as [Hroom | Hfull].
  { rewrite (isAllowed_allowed this w Hroom) in Hdenied. discriminate. }
  destruct (isAllowed_denied this w Hfull) as [Hres _].
  rewrite Hres in Hdenied. injection Hdenied as <-.
  assert (Hne : valid_attempts this w <> []).
  { intros Hnil. rewrite Hnil in Hfull. simpl in Hfull. lia. }
  destruct (Math_min_spec _ Hne) as (oldest & Hmin & Hin & _).
  unfold valid_attempts in Hin.
  apply list_elem_of_filter in Hin as [Hfresh Hin].
  specialize (Hpast oldest Hin).
  exists (ceil_div (windowMs this - (now_of w - oldest)) 1000).
  split; [unfold wait_seconds; rewrite Hmin; reflexivity |].
  split.
  - pose proof (ceil_div_pos (windowMs this - (now_of w - oldest))). lia.
  - apply ceil_div_le. lia.
Qed.

Lemma denied_wait_bounded_witness :
  let this := RateLimiter.new "document_click" 2 60000 in
  let w := snd (repeatM 2 (isAllowed this) (fresh_world 1000 50)) in
  exists seconds : Z,
    fst (isAllowed this w) = Denied (Finite seconds) /\ 1 <= seconds <= 60.
Proof.
  intros this w.
  destruct (denied_wait_bounded this w (Finite 60))
    as (seconds & Hwait & Hbounds).
  - simpl. lia.
  - intros t Ht.
    assert (Hst : stored_attempts this w = [1000; 1050])
      by (vm_compute; reflexivity).
    rewrite Hst in Ht.
    assert (Hnow : now_of w = 1100) by (vm_compute; reflexivity).
    rewrite Hnow.
    apply elem_of_cons in Ht as [-> | Ht]; [lia |].
    apply list_elem_of_singleton in Ht as ->. lia.
  - vm_compute. reflexivity.
  - exists seconds. injection Hwait as <-.
    split; [vm_compute; reflexivity | vm_compute; split; discriminate].
Defined.

(** ** The lockout manager over time *)

Lemma recent_from_length r : forall vs k,
  (length (recent_from r k vs) <= length vs)%nat.
Proof.
  induction vs as [| v vs IH]; intros k; simpl; [lia |].
  specialize (IH (S k)). destruct (_ <? _); simpl; lia.
Qed.

Lemma recent_from_app r : forall vs1 vs2 k,
  recent_from r k (vs1 ++ vs2)
  = recent_from r k vs1 ++ recent_from r (length vs1 + k) vs2.
Proof.
  induction vs1 as [| v vs1 IH]; intros vs2 k; simpl; [reflexivity |].
  rewrite IH. replace (length vs1 + S k)%nat with (S (length vs1 + k)) by lia.
  destruct (_ <? _); reflexivity.
Qed.

Lemma recent_from_old r : forall vs k,
  (forall v i, v ∈ vs -> (k <= i)%nat ->
               300000 <= r i - violation_timestamp v) ->
  recent_from r k vs = [].
Proof.
  induction vs as [| v vs IH]; intros k Hold; simpl; [reflexivity |].
  destruct (Z.ltb_spec (r k - violation_timestamp v) 300000) as [Hlt | _].
  - specialize (Hold v k (list_elem_of_here _ _) ltac:(lia)). lia.
  - apply IH. intros v' i Hv' Hi. apply Hold; [| lia].
    by apply list_elem_of_further.
Qed.

Lemma forM_cons {A B} (x : A) (rest : list A) (f : A -> M B) (w : World) :
  forM (x :: rest) f w =
    let (b, w1) := f x w in
    let (bs, w2) := forM rest f w1 in
    (b :: bs, w2).
Proof. reflexivity. Qed.

Lemma no_lockout_run : forall (reasons : list string) (w : World),
  Z.of_nat (length (stored_violations w) + length reasons)
  < RATE_LIMIT_CONFIG_maxFailedAttempts ->
  Forall (fun triggered => triggered = false)
         (fst (forM reasons recordViolation w))
  /\ lockoutItem (localStorage (snd (forM reasons recordViolation w)))
     = lockoutItem (localStorage w)
  /\ (length (stored_violations (snd (forM reasons recordViolation w)))
      <= length (stored_violations w) + length reasons)%nat.
Proof.
  induction reasons as [| reason reasons IH]; intros w Hfew.
  { simpl. split; [constructor | split; [reflexivity | lia]]. }
  rewrite forM_cons.
  pose proof (recent_from_length (readings (clock w)) 
                (stored_violations w ++ [mkViolation (now_of w) reason])
                (S (ticks (clock w)))) as Hlen.
  fold (surviving reason w) in Hlen. rewrite length_app in Hlen.
  simpl in Hlen, Hfew.
  rewrite recordViolation_eq.
  destruct (Z.geb_spec (Z.of_nat (length (surviving reason w)))
              RATE_LIMIT_CONFIG_maxFailedAttempts) as [Hge | _].
  { unfold RATE_LIMIT_CONFIG_maxFailedAttempts in *. lia. }
  assert (Hst : stored_violations (recorded reason w) = surviving reason w)
    by reflexivity.
  destruct (IH (recorded reason w)) as (Hall & Hlock & Hcount).
  { rewrite Hst. lia. }
  destruct (forM reasons recordViolation (recorded reason w)) as [bs w2].
  cbn [fst snd] in *. split; [by constructor |].
  split; [rewrite Hlock; reflexivity |].
  rewrite Hst in Hcount. cbn [length]. lia.
Qed.

(** X6.  No lockout before the fifth violation: on a page with no
    violation history, up to four calls of [recordViolation], with any
    reasons and whatever the clock does, all return [false] and leave the
    lockout record as it was. *)
Theorem no_lockout_before_fifth (reasons : list string) (w : World) :
  stored_violations w = [] ->
  (length reasons <= 4)%nat ->
  let w' := snd (forM reasons recordViolation w) in
  Forall (fun triggered => triggered = false)
         (fst (forM reasons recordViolation w))
  /\ lockoutItem (localStorage w') = lockoutItem (localStorage w)
  /\ (length (stored_violations w') <= length reasons)%nat.
Proof.
  intros Hnone Hfour. cbv zeta.
  destruct (no_lockout_run reasons w) as (Hall & Hlock & Hcount).
  - rewrite Hnone. unfold RATE_LIMIT_CONFIG_maxFailedAttempts. simpl. lia.
  - rewrite Hnone in Hcount. auto.
Qed.

Lemma no_lockout_before_fifth_witness :
  let reasons := [overlay_violation; document_violation; overlay_violation;
                  document_violation] in
  fst (forM reasons recordViolation (fresh_world 1000 50))
  = [false; false; false; false]
  /\ stored_lockout (snd (forM reasons recordViolation (fresh_world 1000 50)))
     = None.
Proof.
  intros reasons.
  destruct (no_lockout_before_fifth reasons (fresh_world 1000 50))
    as (_ & Hlock & _); [reflexivity | simpl; lia |].
  split; [vm_compute; reflexivity |].
  unfold stored_lockout. rewrite Hlock. reflexivity.
Defined.

(** X7.  Violations that are five minutes old or more no longer count: on
    a page whose clock never goes back, if every stored violation is at
    least 300000 ms old, [recordViolation] returns [false], leaves the
    lockout record alone, and the history it stores holds at most the new
    violation. *)
Theorem stale_violations_forgotten (reason : string) (w : World) :
  monotone_clock w ->
  (forall v, v ∈ stored_violations w ->
             300000 <= now_of w - violation_timestamp v) ->
  let w' := snd (recordViolation reason w) in
  fst (recordViolation reason w) = false
  /\ lockoutItem (localStorage w') = lockoutItem (localStorage w)
  /\ (stored_violations w' = []
      \/ stored_violations w' = [mkViolation (now_of w) reason]).
Proof.
  intros Hmono Hold. cbv zeta.
  assert (Hsurv : surviving reason w = []
                  \/ surviving reason w = [mkViolation (now_of w) reason]).
  { unfold surviving. rewrite recent_from_app.
    rewrite recent_from_old.
    - simpl. destruct (_ <? _); auto.
    - intros v i Hv Hi. specialize (Hold v Hv).
      pose proof (Hmono (ticks (clock w)) i ltac:(lia)) as Hlater.
      unfold now_of in Hold. lia. }
  rewrite recordViolation_eq.
  destruct (Z.geb_spec (Z.of_nat (length (surviving reason w)))
              RATE_LIMIT_CONFIG_maxFailedAttempts) as [Hge | _].
  { unfold RATE_LIMIT_CONFIG_maxFailedAttempts in Hge.
    destruct Hsurv as [Hs | Hs]; rewrite Hs in Hge; simpl in Hge; lia. }
  cbn [fst snd]. split; [reflexivity |]. split; [reflexivity |].
  exact Hsurv.
Qed.

Lemma stale_violations_forgotten_witness :
  let old := [mkViolation 1000 overlay_violation;
              mkViolation 2000 overlay_violation;
              mkViolation 3000 overlay_violation;
              mkViolation 4000 overlay_violation] in
  let w := with_localStorage (mkStorage ∅ None (Some (Json old)))
             (fresh_world 400000 50) in
  fst (recordViolation overlay_violation w) = false
  /\ stored_violations (snd (recordViolation overlay_violation w))
     = [mkViolation 400000 overlay_violation].
Proof.
  intros old w.
  destruct (stale_violations_forgotten overlay_violation w)
    as (Hres & _ & Hhist).
  - intros i j Hij. unfold w. simpl. lia.
  - intros v Hv. change (stored_violations w) with old in Hv.
    change (now_of w) with (400000 + 50 * 0).
    unfold old in Hv.
    repeat (apply elem_of_cons in Hv as [-> | Hv]; [simpl; lia |]).
    by apply elem_of_nil in Hv.
  - split; [exact Hres |]. vm_compute. reflexivity.
Defined.

(** ** The handlers of the page *)

Lemma openOverlay_locked lockout depth w :
  stored_lockout w = Some lockout ->
  now_of w < lockout_until lockout ->
  openOverlay (S depth) w =
    (Some (AccessBlocked (lockout_reason lockout)
             (ceil_div (lockout_until lockout - now_of w) 1000)),
     tick w).
Proof.
  intros Hstored Hnow. cbn [openOverlay]. unfold bind at 1.
  rewrite (isLockedOut_active lockout w Hstored Hnow). reflexivity.
Qed.

(** X8.  While a lockout is active, [openOverlay] is refused with the
    reason of the lockout and the seconds that remain, and the call
    changes nothing but the number of clock readings taken: no attempt is
    counted against the overlay limiter, no violation is recorded, no
    event is logged. *)
Theorem openOverlay_refused_while_locked (lockout : Lockout) (depth : nat)
    (w : World) :
  stored_lockout w = Some lockout ->
  now_of w < lockout_until lockout ->
  fst (openOverlay (S depth) w)
  = Some (AccessBlocked (lockout_reason lockout)
            (ceil_div (lockout_until lockout - now_of w) 1000))
  /\ 0 < ceil_div (lockout_until lockout - now_of w) 1000
  /\ snd (openOverlay (S depth) w) = tick w
  /\ localStorage (snd (openOverlay (S depth) w)) = localStorage w
  /\ logger (snd (openOverlay (S depth) w)) = logger w.
Proof.
  intros Hstored Hnow.
  rewrite (openOverlay_locked lockout depth w Hstored Hnow).
  cbn [fst snd]. repeat split. apply ceil_div_pos. lia.
Qed.

Lemma openOverlay_refused_while_locked_witness :
  fst (openOverlay 1 locked_page)
  = Some (AccessBlocked overlay_violation 300)
  /\ stored_attempts overlayLimiter (snd (openOverlay 1 locked_page)) = [].
Proof.
  destruct (openOverlay_refused_while_locked
              (mkLockout 302000 overlay_violation 2050) 0 locked_page)
    as (Hres & _ & _ & Hstore & _).
  - vm_compute. reflexivity.
  - vm_compute. reflexivity.
  - split; [rewrite Hres; vm_compute; reflexivity |].
    unfold stored_attempts. rewrite Hstore. vm_compute. reflexivity.
Defined.

Lemma documentClickListener_allowed w :
  Z.of_nat (length (valid_attempts documentLimiter w))
  < RATE_LIMIT_CONFIG_maxDocumentClicks ->
  documentClickListener w = (Proceeded, snd (isAllowed documentLimiter w)).
Proof.
  intros Hroom. unfold documentClickListener, bind.
  rewrite (isAllowed_allowed documentLimiter w Hroom). reflexivity.
Qed.

(** X9.  The click listener does not look at the lockout: during an
    active lockout a click on a document button goes through whenever the
    click limiter has room, is counted as an attempt, and leaves the
    lockout record as it is. *)
Theorem document_click_ignores_lockout (lockout : Lockout) (w : World) :
  stored_lockout w = Some lockout ->
  now_of w < lockout_until lockout ->
  Z.of_nat (length (valid_attempts documentLimiter w))
  < RATE_LIMIT_CONFIG_maxDocumentClicks ->
  let w' := snd (documentClickListener w) in
  fst (documentClickListener w) = Proceeded
  /\ stored_attempts documentLimiter w'
     = valid_attempts documentLimiter w ++ [now_of w]
  /\ stored_lockout w' = Some lockout.
Proof.
  intros Hstored Hnow Hroom. cbv zeta.
  rewrite (documentClickListener_allowed w Hroom).
  rewrite (isAllowed_allowed documentLimiter w Hroom).
  cbn [fst snd].
  split; [reflexivity |].
  split; [| exact Hstored].
  unfold stored_attempts. simpl. by rewrite lookup_insert_eq.
Qed.

Lemma document_click_ignores_lockout_witness :
  fst (documentClickListener locked_page) = Proceeded
  /\ stored_lockout (snd (documentClickListener locked_page))
     = Some (mkLockout 302000 overlay_violation 2050).
Proof.
  destruct (document_click_ignores_lockout
              (mkLockout 302000 overlay_violation 2050) locked_page)
    as (Hres & _ & Hlock).
  - vm_compute. reflexivity.
  - vm_compute. reflexivity.
  - vm_compute. reflexivity.
  - split; [exact Hres | exact Hlock].
Defined.






(** ** The delivery pipeline over the turns of the event loop *)

Lemma page_loaded_invariant p : page_loaded p -> page_invariant p.
Proof.
  intros (Hq & Ht & Hc & Hf & Hs). unfold page_invariant, held_events,
    sent_events. cbv zeta. rewrite Hq, Ht, Hc, Hf, Hs. simpl.
  repeat split; try discriminate; try constructor; lia.
Qed.

Lemma flushed_invariant (p : Page) (w' : World) (queue : list Event) id :
  page_invariant p ->
  queue <> [] ->
  eventQueue (logger (world p)) = queue ->
  eventQueue (logger w') = [] ->
  flushTimer (logger w') = false ->
  eventCounter (logger w') = eventCounter (logger (world p)) ->
  fetched (logger w')
  = fetched (logger (world p)) ++ [mkRequest queue id] ->
  page_invariant (mkPage w' (suspended p ++ [queue])).
Proof.
  unfold page_invariant, held_events, sent_events.
  cbv zeta. cbn [world suspended].
  intros (Hpos & Htimer & Hreq & Hdup & Hnum & Hall) Hne Hq Hq' Ht' Hc' Hf'.
  rewrite Hq in *. rewrite Hq', Ht', Hc', Hf'.
  simpl. rewrite concat_app, (fmap_app events), concat_app. simpl.
  rewrite !app_nil_r.
  assert (Hperm : concat (suspended p) ++ queue
                  ≡ₚ queue ++ concat (suspended p))
    by apply Permutation_app_comm.
  split; [lia |].
  split; [discriminate |].
  split; [apply Forall_app; split; [exact Hreq | by repeat constructor] |].
  split; [by rewrite Hperm |].
  split; [by rewrite Hperm |].
  intros n Hn. specialize (Hall n Hn).
  rewrite fmap_app in Hall |- *.
  apply elem_of_app in Hall as [Hin | Hin]; apply elem_of_app; auto.
Qed.

Lemma turn_logs_invariant eventType metadata p :
  page_invariant p -> page_invariant (turn (Logs eventType metadata) p).
Proof.
  intros Hinv. cbn [turn].
  pose proof (logSecurityEventToServer_effect eventType metadata (world p))
    as Heffect. cbv zeta in Heffect.
  destruct (logSecurityEventToServer eventType metadata (world p))
    as [held w'] eqn:Hcall. cbn [fst snd] in Heffect.
  set (event := logged_event eventType metadata (world p)) in *.
  assert (Hnumber : eventNumber event = eventCounter (logger (world p)) + 1)
    by reflexivity.
  destruct Hinv as (Hpos & Htimer & Hreq & Hdup & Hnum & Hall).
  assert (Hfresh : eventNumber event ∉ eventNumber <$> held_events p).
  { intros Hin. apply list_elem_of_fmap in Hin as (e & Heq & Hin).
    pose proof (proj1 (Forall_forall _ _) Hnum e Hin) as He.
    cbv beta in He. lia. }
  assert (Hperm : (eventQueue (logger (world p)) ++ [event])
                  ++ concat (suspended p)
                  ≡ₚ event :: held_events p).
  { unfold held_events. rewrite <- app_assoc. simpl.
    by rewrite <- Permutation_middle. }
  assert (Hdup' : NoDup (eventNumber <$>
                    (eventQueue (logger (world p)) ++ [event])
                    ++ concat (suspended p))).
  { rewrite Hperm, fmap_cons. by apply NoDup_cons. }
  assert (Hnum' : Forall (fun e => 1 <= eventNumber e
                                   <= eventCounter (logger (world p)) + 1)
                    ((eventQueue (logger (world p)) ++ [event])
                     ++ concat (suspended p))).
  { rewrite Hperm. constructor.
    - lia.
    - eapply Forall_impl; [exact Hnum |]. intros e He. simpl in He. lia. }
  destruct Heffect as (Hc & [(_ & Hres & Hq & Ht & Hf)
                            | (_ & Hres & Hq & Ht & id & Hf)]).
  - subst held. cbn [suspend].
    unfold page_invariant, held_events, sent_events.
    cbv zeta. cbn [world suspended].
    rewrite Hq, Ht, Hc, Hf.
    split; [lia |].
    split; [intros _ Hnil; by apply app_nil in Hnil as [_ ?] |].
    split; [exact Hreq |].
    split; [exact Hdup' |].
    split; [exact Hnum' |].
    intros n Hn.
    destruct (decide (n = eventCounter (logger (world p)) + 1)) as [-> | Hne].
    + rewrite <- Hnumber. apply list_elem_of_fmap_2.
      apply elem_of_app. left. apply elem_of_app. right.
      apply list_elem_of_here.
    + specialize (Hall n ltac:(lia)). unfold sent_events in Hall.
      rewrite fmap_app in Hall |- *. rewrite fmap_app.
      apply elem_of_app in Hall as [Hin | Hin]; apply elem_of_app; auto.
      left. apply elem_of_app. auto.
  - subst held. cbn [suspend].
    unfold page_invariant, held_events, sent_events.
    cbv zeta. cbn [world suspended].
    rewrite Hq, Ht, Hc, Hf.
    simpl. rewrite concat_app, (fmap_app events), concat_app. simpl.
  rewrite !app_nil_r.
    assert (Hperm2 : concat (suspended p)
                     ++ eventQueue (logger (world p)) ++ [event]
                     ≡ₚ (eventQueue (logger (world p)) ++ [event])
                        ++ concat (suspended p))
      by apply Permutation_app_comm.
    split; [lia |].
    split; [discriminate |].
    split.
    { apply Forall_app. split; [exact Hreq |].
      repeat constructor. simpl. intros Hnil.
      by apply app_nil in Hnil as [_ ?]. }
    split; [by rewrite Hperm2 |].
    split; [by rewrite Hperm2 |].
    intros n Hn.
    destruct (decide (n = eventCounter (logger (world p)) + 1)) as [-> | Hne].
    + rewrite <- Hnumber. apply list_elem_of_fmap_2.
      apply elem_of_app. right. apply elem_of_app. right.
      apply list_elem_of_here.
    + specialize (Hall n ltac:(lia)). unfold sent_events in Hall.
      rewrite fmap_app in Hall. rewrite !fmap_app.
      apply elem_of_app in Hall as [Hin | Hin]; apply elem_of_app.
      * right. apply elem_of_app. left. exact Hin.
      * left. exact Hin.
Qed.

Lemma turn_timer_invariant p :
  page_invariant p -> page_invariant (turn TimerFires p).
Proof.
  intros Hinv. cbn [turn].
  destruct (flushTimer (logger (world p))) eqn:Htimer; [| exact Hinv].
  unfold flushTimer_fires. rewrite flushEvents_begin_eq.
  pose proof Hinv as (_ & Hwork & _). cbv zeta in Hwork.
  specialize (Hwork Htimer).
  destruct (eventQueue (logger (world p))) as [| e q] eqn:Hq; [done |].
  cbn [suspend]. rewrite <- Hq.
  eapply flushed_invariant; try reflexivity; try exact Hinv.
  by rewrite Hq.
Qed.

Lemma concat_delete {A} (batches : list (list A)) i batch :
  batches !! i = Some batch ->
  batch ++ concat (delete i batches) ≡ₚ concat batches.
Proof.
  intros Hi. rewrite delete_take_drop.
  rewrite <- (take_drop_middle batches i batch Hi) at 3.
  rewrite !concat_app, concat_cons.
  apply Permutation_app_swap_app.
Qed.

Lemma turn_settles_invariant i outcome p :
  page_invariant p -> page_invariant (turn (Settles i outcome) p).
Proof.
  intros Hinv. cbn [turn].
  destruct (suspended p !! i) as [batch |] eqn:Hi; [| exact Hinv].
  rewrite flushEvents_resume_eq. cbn [snd].
  destruct Hinv as (Hpos & Hwork & Hreq & Hdup & Hnum & Hall).
  cbv zeta in *. unfold held_events in Hdup, Hnum.
  pose proof (concat_delete (suspended p) i batch Hi) as Hperm.
  rewrite <- Hperm in Hdup, Hnum.
  destruct (_ && _)%bool.
  - unfold page_invariant, held_events, sent_events. cbv zeta.
    cbn [world suspended logger with_logger set_eventQueue eventQueue
         flushTimer eventCounter fetched].
    assert (Hheld : (batch ++ eventQueue (logger (world p)))
                    ++ concat (delete i (suspended p))
                    ≡ₚ eventQueue (logger (world p))
                       ++ batch ++ concat (delete i (suspended p))).
    { rewrite <- app_assoc. apply Permutation_app_swap_app. }
    split; [exact Hpos |].
    split.
    { intros Htimer Hnil. apply app_eq_nil in Hnil as [_ Hnil].
      by apply Hwork. }
    split; [exact Hreq |].
    split; [by rewrite Hheld |].
    split; [by rewrite Hheld |].
    intros n Hn. specialize (Hall n Hn). unfold sent_events in Hall.
    rewrite fmap_app in Hall. rewrite !fmap_app.
    apply elem_of_app in Hall as [Hin | Hin]; apply elem_of_app; auto.
    left. apply elem_of_app. auto.
  - unfold page_invariant, held_events, sent_events. cbv zeta.
    cbn [world suspended].
    split; [exact Hpos |].
    split; [exact Hwork |].
    split; [exact Hreq |].
    rewrite (Permutation_app_swap_app (eventQueue (logger (world p))))
      in Hdup, Hnum.
    split.
    { rewrite fmap_app in Hdup. by apply NoDup_app in Hdup as (_ & _ & ?). }
    split.
    { by apply Forall_app in Hnum as [_ ?]. }
    exact Hall.
Qed.

Lemma turn_invariant t p : page_invariant p -> page_invariant (turn t p).
Proof.
  destruct t as [eventType metadata | | i outcome].
  - apply turn_logs_invariant.
  - apply turn_timer_invariant.
  - apply turn_settles_invariant.
Qed.

Lemma turns_app ts1 ts2 p : turns (ts1 ++ ts2) p = turns ts2 (turns ts1 p).
Proof. unfold turns. apply foldl_app. Qed.

Lemma turns_invariant ts p : page_invariant p -> page_invariant (turns ts p).
Proof.
  revert p. induction ts as [| t ts IH]; intros p Hinv; [exact Hinv |].
  apply IH, turn_invariant, Hinv.
Qed.

Lemma turn_counter t p :
  eventCounter (logger (world (turn t p)))
  = eventCounter (logger (world p)) + (if is_log t then 1 else 0).
Proof.
  destruct t as [eventType metadata | | i outcome]; cbn [turn is_log].
  - pose proof (logSecurityEventToServer_effect eventType metadata (world p))
      as [Hc _]. cbv zeta in Hc.
    by destruct (logSecurityEventToServer eventType metadata (world p)).
  - destruct (flushTimer (logger (world p))); [| lia].
    unfold flushTimer_fires. rewrite flushEvents_begin_eq.
    destruct (eventQueue (logger (world p))); simpl; lia.
  - destruct (suspended p !! i); [| lia].
    rewrite flushEvents_resume_eq. cbn [snd world].
    destruct (_ && _)%bool; simpl; lia.
Qed.

Lemma turns_counter ts p :
  eventCounter (logger (world (turns ts p)))
  = eventCounter (logger (world p)) + Z.of_nat (logs_in ts).
Proof.
  revert p. induction ts as [| t ts IH]; intros p.
  - unfold logs_in. simpl. lia.
  - change (turns (t :: ts) p) with (turns ts (turn t p)).
    rewrite IH, turn_counter. unfold logs_in. rewrite filter_cons.
    destruct (decide (is_log t)) as [Hlog | Hlog];
      destruct (is_log t); try done; cbn [length]; lia.
Qed.

Lemma fresh_page_loaded : page_loaded fresh_page.
Proof. by repeat split. Qed.

(** X11. On a page driven from its load by any turns of the event loop,
    a pending flush timer always finds events queued: when it fires,
    [flushEvents] sends the whole queue in one request, empties the queue
    and clears the timer, so [flushTimer] never keeps a timer that has
    fired. *)
Theorem timer_always_flushes (ts : list Turn) (p : Page) :
  page_loaded p ->
  let before := logger (world (turns ts p)) in
  let after := logger (world (turn TimerFires (turns ts p))) in
  flushTimer before = true ->
  eventQueue before <> []
  /\ eventQueue after = []
  /\ flushTimer after = false
  /\ exists id,
       fetched after = fetched before ++ [mkRequest (eventQueue before) id].
Proof.
  intros Hloaded before after Htimer.
  pose proof (turns_invariant ts p (page_loaded_invariant p Hloaded))
    as (_ & Hwork & _). cbv zeta in Hwork. specialize (Hwork Htimer).
  split; [exact Hwork |].
  subst after. cbn [turn]. fold before. rewrite Htimer.
  unfold flushTimer_fires. rewrite flushEvents_begin_eq. fold before.
  destruct (eventQueue before) as [| e q] eqn:Hq; [done |].
  cbn [world logger with_logger eventQueue flushTimer fetched].
  repeat split. eexists. reflexivity.
Qed.

Lemma timer_always_flushes_witness :
  let p := turns [click_turn; click_turn] fresh_page in
  let after := logger (world (turn TimerFires p)) in
  eventQueue (logger (world p)) <> []
  /\ eventQueue after = []
  /\ flushTimer after = false
  /\ exists id,
       fetched after
       = fetched (logger (world p))
         ++ [mkRequest (eventQueue (logger (world p))) id].
Proof.
  apply (timer_always_flushes [click_turn; click_turn] fresh_page).
  - exact fresh_page_loaded.
  - vm_compute. reflexivity.
Defined.

(** X12. Whatever the turns since the load, no event is held twice: the
    events in the queue and in the batches of the flushes still waiting
    for their response carry pairwise distinct numbers, also after failed
    batches were put back in front of the queue. *)
Theorem no_event_held_twice (ts : list Turn) (p : Page) :
  page_loaded p ->
  NoDup (eventNumber <$> held_events (turns ts p)).
Proof.
  intros Hloaded.
  by pose proof (turns_invariant ts p (page_loaded_invariant p Hloaded))
    as (_ & _ & _ & Hdup & _).
Qed.

Lemma no_event_held_twice_witness :
  NoDup (eventNumber <$>
           held_events
             (turns (replicate 12 click_turn ++ [Settles 0 Rejected;
                                                   click_turn])
                    fresh_page)).
Proof.
  apply (no_event_held_twice _ fresh_page). exact fresh_page_loaded.
Defined.

(** X13. No logged event is lost before it was sent once: after any turns
    since the load, the counter is the number of events logged, and every
    number from 1 to the counter is the number of an event that is in the
    queue or that went out in a request. *)
Theorem logged_events_queued_or_sent (ts : list Turn) (p : Page) :
  page_loaded p ->
  let p' := turns ts p in
  eventCounter (logger (world p')) = Z.of_nat (logs_in ts)
  /\ forall n,
       1 <= n <= Z.of_nat (logs_in ts) ->
       n ∈ eventNumber <$> (eventQueue (logger (world p')) ++ sent_events p').
Proof.
  intros Hloaded p'.
  assert (Hcount : eventCounter (logger (world p')) = Z.of_nat (logs_in ts)).
  { subst p'. rewrite turns_counter.
    destruct Hloaded as (_ & _ & -> & _). lia. }
  split; [exact Hcount |].
  pose proof (turns_invariant ts p (page_loaded_invariant p Hloaded))
    as (_ & _ & _ & _ & _ & Hall). cbv zeta in Hall. fold p' in Hall.
  intros n Hn. apply Hall. lia.
Qed.

Lemma logged_events_queued_or_sent_witness :
  let ts := replicate 12 click_turn ++ [Settles 0 (Response 500)] in
  let p' := turns ts fresh_page in
  eventCounter (logger (world p')) = Z.of_nat (logs_in ts)
  /\ forall n,
       1 <= n <= Z.of_nat (logs_in ts) ->
       n ∈ eventNumber <$> (eventQueue (logger (world p')) ++ sent_events p').
Proof.
  apply (logged_events_queued_or_sent _ fresh_page). exact fresh_page_loaded.
Defined.

(** X14. A failed flush schedules no retry.  While no timer is pending,
    turns that log nothing (timers, responses) issue no request and set
    no timer; the queue only grows by requeued batches.  So a batch put
    back after a failure waits until the page logs another event. *)
Theorem requeued_batch_waits_for_next_event (ts : list Turn) (p : Page) :
  flushTimer (logger (world p)) = false ->
  logs_in ts = 0%nat ->
  let p' := turns ts p in
  flushTimer (logger (world p')) = false
  /\ fetched (logger (world p')) = fetched (logger (world p))
  /\ exists requeued,
       eventQueue (logger (world p'))
       = requeued ++ eventQueue (logger (world p)).
Proof.
  revert p. induction ts as [| t ts IH]; intros p Htimer Hquiet.
  { cbv zeta. simpl. repeat split; [done |]. by exists []. }
  change (turns (t :: ts) p) with (turns ts (turn t p)).
  assert (Ht : is_log t = false /\ logs_in ts = 0%nat).
  { unfold logs_in in *. rewrite filter_cons in Hquiet.
    destruct (decide (is_log t)) as [Hlog | Hlog];
      destruct (is_log t); try done. }
  destruct Ht as [Ht Hts].
  assert (Hstep : flushTimer (logger (world (turn t p))) = false
                  /\ fetched (logger (world (turn t p)))
                     = fetched (logger (world p))
                  /\ exists requeued,
                       eventQueue (logger (world (turn t p)))
                       = requeued ++ eventQueue (logger (world p))).
  { destruct t as [eventType metadata | | i outcome]; [discriminate | |];
      cbn [turn].
    - rewrite Htimer. repeat split; [done |]. by exists [].
    - destruct (suspended p !! i) as [batch |];
        [| repeat split; [done |]; by exists []].
      rewrite flushEvents_resume_eq. cbn [snd world].
      destruct (_ && _)%bool; simpl.
      + repeat split; [done |]. by exists batch.
      + repeat split; [done |]. by exists []. }
  destruct Hstep as (Htimer' & Hfetched' & requeued' & Hqueue').
  destruct (IH (turn t p) Htimer' Hts) as (Htimer'' & Hfetched'' & requeued
                                           & Hqueue'').
  cbv zeta. rewrite Hfetched'', Hfetched', Hqueue'', Hqueue'.
  repeat split; [done |]. exists (requeued ++ requeued').
  by rewrite app_assoc.
Qed.

Lemma requeued_batch_waits_for_next_event_witness :
  let p := turns (replicate 10 click_turn) fresh_page in
  let p' := turns [Settles 0 Rejected; TimerFires] p in
  flushTimer (logger (world p')) = false
  /\ fetched (logger (world p')) = fetched (logger (world p))
  /\ exists requeued,
       eventQueue (logger (world p'))
       = requeued ++ eventQueue (logger (world p)).
Proof.
  apply (requeued_batch_waits_for_next_event
           [Settles 0 Rejected; TimerFires]
           (turns (replicate 10 click_turn) fresh_page)).
  - vm_compute. reflexivity.
  - vm_compute. reflexivity.
Defined.

Lemma beforeunload_eq w :
  beforeunload w =
    match eventQueue (logger w) with
    | [] => (None, w)
    | _ :: _ =>
        (Some (mkRequest (eventQueue (logger w))
                 (mkBatchId (now_of w) (randomDraws (logger w)))),
         with_logger (set_randomDraws (S (randomDraws (logger w))) (logger w))
                     (tick w))
    end.
Proof.
  unfold beforeunload, generateBatchId, Math_random. run_js.
  destruct (eventQueue (logger w)) as [| e q]; [reflexivity |].
  cbn [length]. rewrite Nat2Z.inj_succ.
  destruct (Z.gtb_spec (Z.succ (Z.of_nat (length q))) 0); [reflexivity | lia].
Qed.

(** X15. The beacon of the [beforeunload] listener.  After any turns since
    the load it is sent exactly when the queue is not empty, it carries
    the queue as it is and leaves it in place, and it carries none of the
    events of a flush whose request is still in flight: if that request
    fails after the unload, nothing sends them again. *)
Theorem unload_beacon_carries_queue_only (ts : list Turn) (p : Page) :
  page_loaded p ->
  let p' := turns ts p in
  let queue := eventQueue (logger (world p')) in
  match fst (beforeunload (world p')) with
  | Some beacon =>
      events beacon = queue /\ queue <> []
      /\ forall e, e ∈ concat (suspended p') ->
                   eventNumber e ∉ eventNumber <$> events beacon
  | None => queue = []
  end
  /\ eventQueue (logger (snd (beforeunload (world p')))) = queue
  /\ fetched (logger (snd (beforeunload (world p'))))
     = fetched (logger (world p')).
Proof.
  intros Hloaded p' queue.
  pose proof (turns_invariant ts p (page_loaded_invariant p Hloaded))
    as (_ & _ & _ & Hdup & _). fold p' in Hdup.
  unfold held_events in Hdup. fold queue in Hdup.
  rewrite beforeunload_eq. fold queue.
  destruct queue as [| e0 q] eqn:Hq; [done |].
  cbn [fst snd events]. repeat split; try done.
  intros e He Hin.
  rewrite fmap_app in Hdup. apply NoDup_app in Hdup as (_ & Hdisjoint & _).
  apply (Hdisjoint (eventNumber e) Hin). by apply list_elem_of_fmap_2.
Qed.

Lemma unload_beacon_carries_queue_only_witness :
  let p' := turns (replicate 12 click_turn) fresh_page in
  let queue := eventQueue (logger (world p')) in
  match fst (beforeunload (world p')) with
  | Some beacon =>
      events beacon = queue /\ queue <> []
      /\ forall e, e ∈ concat (suspended p') ->
                   eventNumber e ∉ eventNumber <$> events beacon
  | None => queue = []
  end
  /\ eventQueue (logger (snd (beforeunload (world p')))) = queue
  /\ fetched (logger (snd (beforeunload (world p'))))
     = fetched (logger (world p')).
Proof.
  apply (unload_beacon_carries_queue_only _ fresh_page).
  exact fresh_page_loaded.
Defined.

(** ** The worker: classifier and request handler *)

Section Handler.

Variable StringToNumber : string -> option Z.
Variable ArrayToString : list JSValue -> string.
Variable JSON_stringify : JSValue -> string.

Lemma lookup_field_set_field k v fields :
  lookup_field k (set_field k v fields) = v.
Proof.
  induction fields as [| [k' v'] rest IH]; simpl.
  - by rewrite String.eqb_refl.
  - destruct (String.eqb_spec k k') as [<- | Hne]; simpl.
    + by rewrite String.eqb_refl.
    + by destruct (String.eqb_spec k k').
Qed.

Lemma lookup_field_set_field_ne k k' v fields :
  k <> k' -> lookup_field k (set_field k' v fields) = lookup_field k fields.
Proof.
  intros Hne. induction fields as [| [k0 v0] rest IH]; simpl.
  - by destruct (String.eqb_spec k k').
  - destruct (String.eqb_spec k' k0) as [<- | Hne0]; simpl.
    + by destruct (String.eqb_spec k k').
    + by rewrite IH.
Qed.

Ltac crunch :=
  repeat first
    [ match goal with H : _ = _ |- _ => rewrite H end
    | progress cbn -[includes greater_than less_than optional_member
                     existsb lookup_field] ].

Lemma ToNumber_run v s :
  ToNumber StringToNumber ArrayToString v s
  = (fst (ToNumber StringToNumber ArrayToString v s), s)
  /\ (fst (ToNumber StringToNumber ArrayToString v s) = TypeError
      <-> ToPrimitive_throws v = true).
Proof.
  unfold ToNumber. destruct (ToPrimitive_throws v); by repeat split.
Qed.

Lemma greater_than_run v n s :
  greater_than StringToNumber ArrayToString v n s
  = (fst (greater_than StringToNumber ArrayToString v n s), s)
  /\ (fst (greater_than StringToNumber ArrayToString v n s) = TypeError
      <-> ToPrimitive_throws v = true).
Proof.
  unfold greater_than, wbind. destruct (ToNumber_run v s) as [-> Hthrows].
  destruct (fst (ToNumber StringToNumber ArrayToString v s));
    cbn [fst] in *; (split; [reflexivity |]).
  - split; [discriminate |]. intros Hv. by apply Hthrows in Hv.
  - split; [intros _; by apply Hthrows | done].
Qed.

Lemma less_than_run v n s :
  less_than StringToNumber ArrayToString v n s
  = (fst (less_than StringToNumber ArrayToString v n s), s)
  /\ (fst (less_than StringToNumber ArrayToString v n s) = TypeError
      <-> ToPrimitive_throws v = true).
Proof.
  unfold less_than, wbind. destruct (ToNumber_run v s) as [-> Hthrows].
  destruct (fst (ToNumber StringToNumber ArrayToString v s));
    cbn [fst] in *; (split; [reflexivity |]).
  - split; [discriminate |]. intros Hv. by apply Hthrows in Hv.
  - split; [intros _; by apply Hthrows | done].
Qed.

(** The classifier on an object, with what each check found. *)
Lemma checkSecurityPatterns_object event fields s :
  heap s !! event = Some (JObj fields) ->
  let eventType := lookup_field "eventType" fields in
  let metadata := lookup_field "metadata" fields in
  checkSecurityPatterns StringToNumber ArrayToString event s =
    (if strict_equals eventType "overlay_opened" then
       match fst (greater_than StringToNumber ArrayToString
                    (optional_member metadata "openCount") 50 s) with
       | Normal many =>
           Normal (if many
                   then mkCheck true ["excessive_overlay_opens"]
                   else mkCheck false [])
       | TypeError => TypeError
       end
     else if strict_equals eventType "security_block" then
       Normal (if strict_equals (optional_member metadata "reason")
                                "Domini no autoritzat"
               then mkCheck true ["blocked_domain_access"]
               else mkCheck false [])
     else if strict_equals eventType "document_clicked" then
       match fst (less_than StringToNumber ArrayToString
                    (optional_member metadata "timeSinceLastClick") 100 s)
       with
       | Normal rapid =>
           Normal (if rapid
                   then mkCheck true ["rapid_clicking"]
                   else mkCheck false [])
       | TypeError => TypeError
       end
     else if strict_equals eventType "sheet_edit_accessed" then
       Normal (mkCheck true ["sheet_edit_attempt"])
     else if strict_equals eventType "error" then
       match optional_member metadata "errorMessage" with
       | JBool _ | JNum _ | JObj _ => TypeError
       | JUndefined | JNull => Normal (mkCheck false [])
       | JStr m =>
           Normal (if includes "CORS" m then mkCheck false ["cors_error"]
                   else mkCheck false [])
       | JArr items =>
           Normal (if existsb (fun x => strict_equals x "CORS") items
                   then mkCheck false ["cors_error"]
                   else mkCheck false [])
       end
     else Normal (mkCheck false []),
     s).
Proof.
  intros Hheap. cbv zeta.
  unfold checkSecurityPatterns, wbind, deref, member.
  destruct (lookup_field "eventType" fields)
    as [| | b | z | ty | items | fs] eqn:Htype;
    try (crunch; reflexivity).
  cbn [strict_equals].
  destruct (String.eqb ty "overlay_opened") eqn:H1.
  { apply String.eqb_eq in H1. subst ty. crunch.
    destruct (greater_than_run
                (optional_member (lookup_field "metadata" fields) "openCount")
                50 s) as [Hrun _].
    rewrite Hrun.
    destruct (fst (greater_than _ _ _ _ _)) as [[|] |]; crunch; reflexivity. }
  destruct (String.eqb ty "security_block") eqn:H2.
  { apply String.eqb_eq in H2. subst ty. crunch.
    destruct (strict_equals _ _); crunch; reflexivity. }
  destruct (String.eqb ty "document_clicked") eqn:H3.
  { apply String.eqb_eq in H3. subst ty. crunch.
    destruct (less_than_run
                (optional_member (lookup_field "metadata" fields)
                   "timeSinceLastClick") 100 s) as [Hrun _].
    rewrite Hrun.
    destruct (fst (less_than _ _ _ _ _)) as [[|] |]; crunch; reflexivity. }
  destruct (String.eqb ty "sheet_edit_accessed") eqn:H4.
  { apply String.eqb_eq in H4. subst ty. crunch. reflexivity. }
  destruct (String.eqb ty "error") eqn:H5; [| crunch; reflexivity].
  apply String.eqb_eq in H5. subst ty. crunch.
  destruct (optional_member (lookup_field "metadata" fields) "errorMessage")
    as [| | b | z | m | items | fs]; crunch; try reflexivity.
  - destruct (includes "CORS" m); reflexivity.
  - destruct (existsb _ items); reflexivity.
Qed.

Lemma strict_equals_true v literal :
  strict_equals v literal = true -> v = JStr literal.
Proof.
  destruct v; try discriminate. simpl. by intros ->%String.eqb_eq.
Qed.

Ltac pick :=
  repeat first [apply list_elem_of_here | apply list_elem_of_further].

(** X16. The five checks of the classifier exclude one another: it
    returns at most one flag, the one of the check for the type of the
    event, and [isSuspicious] is set exactly when it returns a flag other
    than [cors_error], which alone never marks an event.  An event of
    type [sheet_edit_accessed] is always flagged and marked. *)
Theorem at_most_one_flag (event : nat) (fields : list (string * JSValue))
    (s : State) (c : Check) :
  heap s !! event = Some (JObj fields) ->
  fst (checkSecurityPatterns StringToNumber ArrayToString event s)
  = Normal c ->
  let eventType := lookup_field "eventType" fields in
  ((flags c = [] /\ isSuspicious c = false)
   \/ exists type flag,
        (type, flag) ∈ flag_of_type
        /\ eventType = JStr type
        /\ flags c = [flag]
        /\ isSuspicious c = negb (String.eqb flag "cors_error"))
  /\ (eventType = JStr "sheet_edit_accessed" ->
      c = mkCheck true ["sheet_edit_attempt"]).
Proof.
  intros Hheap Hc. cbv zeta.
  rewrite (checkSecurityPatterns_object event fields s Hheap) in Hc.
  cbv zeta in Hc. cbn [fst] in Hc.
  destruct (strict_equals (lookup_field "eventType" fields) "overlay_opened")
    eqn:H1.
  { apply strict_equals_true in H1. rewrite H1.
    split; [| discriminate].
    revert Hc.
    destruct (fst (greater_than _ _ _ _ _)) as [[|] |]; intros [= <-];
      [right | left; by split].
    exists "overlay_opened", "excessive_overlay_opens".
    repeat split. pick. }
  destruct (strict_equals (lookup_field "eventType" fields) "security_block")
    eqn:H2.
  { apply strict_equals_true in H2. rewrite H2.
    split; [| discriminate].
    revert Hc. destruct (strict_equals (optional_member _ _) _);
      intros [= <-];
      [right | left; by split].
    exists "security_block", "blocked_domain_access".
    repeat split. pick. }
  destruct (strict_equals (lookup_field "eventType" fields)
                          "document_clicked") eqn:H3.
  { apply strict_equals_true in H3. rewrite H3.
    split; [| discriminate].
    revert Hc.
    destruct (fst (less_than _ _ _ _ _)) as [[|] |]; intros [= <-];
      [right | left; by split].
    exists "document_clicked", "rapid_clicking".
    repeat split. pick. }
  destruct (strict_equals (lookup_field "eventType" fields)
                          "sheet_edit_accessed") eqn:H4.
  { apply strict_equals_true in H4. rewrite H4. injection Hc as <-.
    split; [right | done].
    exists "sheet_edit_accessed", "sheet_edit_attempt".
    repeat split. pick. }
  split; [| intros Htype; rewrite Htype in H4; discriminate].
  destruct (strict_equals (lookup_field "eventType" fields) "error") eqn:H5;
    [| injection Hc as <-; left; by split].
  apply strict_equals_true in H5. rewrite H5.
  assert (Hcors : exists found : bool,
             c = if found then mkCheck false ["cors_error"]
                 else mkCheck false []).
  { revert Hc.
    destruct (optional_member _ _) as [| | b | z | m | items | fs];
      intros [= <-]; try (by exists false); eauto. }
  destruct Hcors as [[|] ->]; [right | left; by split].
  exists "error", "cors_error". repeat split. pick.
Qed.

Lemma validateEvent_object event fields s :
  heap s !! event = Some (JObj fields) ->
  validateEvent event s =
    (Normal (truthy (lookup_field "eventType" fields)
             && truthy (lookup_field "timestamp" fields)
             && existsb (strict_equals (lookup_field "eventType" fields))
                        validTypes),
     s).
Proof.
  intros Hheap. unfold validateEvent, required_present, wbind, deref, member.
  destruct (truthy (lookup_field "eventType" fields)) eqn:H1;
    [| crunch; reflexivity].
  destruct (truthy (lookup_field "timestamp" fields)) eqn:H2;
    [| crunch; reflexivity].
  destruct (existsb (strict_equals (lookup_field "eventType" fields))
                    validTypes) eqn:H3; crunch; reflexivity.
Qed.

Lemma handleRequest_securityCheck_object event fields s :
  heap s !! event = Some (JObj fields) ->
  handleRequest_securityCheck StringToNumber ArrayToString event s =
    match fst (checkSecurityPatterns StringToNumber ArrayToString event s)
    with
    | TypeError => (TypeError, s)
    | Normal c =>
        (Normal c,
         if isSuspicious c then
           mkState
             (<[event := JObj (set_field "severity" (JStr "HIGH")
                                (set_field "securityFlags"
                                   (JArr (map JStr (flags c))) fields))]>
                (heap s))
             (console s ++ [("[ALERT SENT]", flags c)])
         else s)
    end.
Proof.
  intros Hheap. unfold handleRequest_securityCheck, wbind.
  assert (Hrun : exists outcome,
             checkSecurityPatterns StringToNumber ArrayToString event s
             = (outcome, s)).
  { eexists. by apply (checkSecurityPatterns_object event fields). }
  destruct Hrun as [[c |] Hrun]; rewrite Hrun; cbn [fst]; [| reflexivity].
  destruct (isSuspicious c); [| reflexivity].
  unfold assign at 1. rewrite Hheap.
  unfold assign, sendAlert, console_log, wret. cbn [heap console].
  rewrite lookup_insert_eq, insert_insert_eq. reflexivity.
Qed.

Lemma enrich_fields event request timestamp clientIP eventId :
  exists fields,
    enrich event request timestamp clientIP eventId = JObj fields
    /\ lookup_field "eventType" fields = type_of event
    /\ lookup_field "metadata" fields
       = lookup_field "metadata" (spread event)
    /\ lookup_field "timestamp" fields = JStr timestamp
    /\ lookup_field "clientIP" fields = clientIP
    /\ lookup_field "userAgent" fields = header request "User-Agent"
    /\ lookup_field "referer" fields = header request "Referer"
    /\ lookup_field "country" fields = header request "CF-IPCountry"
    /\ lookup_field "eventId" fields = JStr eventId.
Proof.
  eexists. split; [reflexivity |]. unfold type_of.
  repeat split;
    repeat (rewrite lookup_field_set_field_ne by discriminate);
    first [reflexivity | apply lookup_field_set_field].
Qed.

Lemma valid_type_truthy v :
  existsb (strict_equals v) validTypes = true -> truthy v = true.
Proof.
  destruct v as [| | b | z | ty | items | fs]; try discriminate.
  destruct ty; [discriminate | reflexivity].
Qed.

Lemma authenticated_passes request :
  authenticated request ->
  String.eqb (method request) "OPTIONS" = false
  /\ String.eqb (method request) "POST" = true
  /\ existsb (strict_equals (header request "Origin"))
             CONFIG_ALLOWED_ORIGINS = true
  /\ strict_equals (header request "X-API-Key") CONFIG_API_KEY = true.
Proof.
  intros (Hmethod & (origin & Horigin & Hallowed) & Hkey).
  unfold header. rewrite Hmethod, Horigin, Hkey.
  repeat split.
  apply existsb_exists. exists origin. split.
  - by apply list_elem_of_In.
  - simpl. apply String.eqb_refl.
Qed.

Lemma wbind_returns {A B} (m : W A) (k : A -> W B) s a s' :
  m s = (Normal a, s') -> wbind m k s = k a s'.
Proof. unfold wbind. by intros ->. Qed.

Lemma wbind_throws {A B} (m : W A) (k : A -> W B) s s' :
  m s = (TypeError, s') -> wbind m k s = (TypeError, s').
Proof. unfold wbind. by intros ->. Qed.

(** The last lines of [handleRequest]. *)
Lemma handleRequest_stores event fields eventId s :
  heap s !! event = Some (JObj fields) ->
  lookup_field "eventId" fields = JStr eventId ->
  wbind (storeEvent JSON_stringify event)
    (fun _ =>
       wbind (deref event)
         (fun e =>
            wbind (console_log "[SECURITY EVENT]" [JSON_stringify e])
              (fun _ =>
                 wbind (deref event)
                   (fun e =>
                      wbind (member e "eventId")
                        (fun eventId =>
                           wret (mkReply 200 (Success eventId))))))) s
  = (Normal (mkReply 200 (Success (JStr eventId))),
     mkState (heap s)
             (console s ++ [("[STORED]", [eventId]);
                            ("[SECURITY EVENT]",
                             [JSON_stringify (JObj fields)])])).
Proof.
  intros Hheap Hid.
  unfold storeEvent, deref, member, console_log, wret, wbind.
  repeat first [ rewrite Hheap | rewrite Hid
               | progress cbn [getProperty heap console console_text] ].
  by rewrite <- app_assoc.
Qed.

Lemma handleRequest_authenticated request event timestamp eventId s :
  authenticated request ->
  json request = Some event ->
  let ref := fresh (dom (heap s)) in
  let enriched :=
    enrich event request timestamp
           (or_else (header request "CF-Connecting-IP") "unknown") eventId in
  let s1 := mkState (<[ref := enriched]> (heap s)) (console s) in
  handleRequest StringToNumber ArrayToString JSON_stringify request
                timestamp eventId s =
    if negb (accepted_type event && negb (String.eqb timestamp "")) then
      (Normal (mkReply 400 (Text "Invalid event structure")), s1)
    else
      match fst (checkSecurityPatterns StringToNumber ArrayToString ref s1)
      with
      | TypeError =>
          (Normal (mkReply 500 (Text "Internal server error")),
           mkState (heap s1) (console s ++ [("[ERROR]", ["TypeError"])]))
      | Normal c =>
          let final := if isSuspicious c then flagged c enriched
                       else enriched in
          (Normal (mkReply 200 (Success (JStr eventId))),
           mkState (<[ref := final]> (heap s))
                   (console s
                    ++ (if isSuspicious c then [("[ALERT SENT]", flags c)]
                        else [])
                    ++ [("[STORED]", [eventId]);
                        ("[SECURITY EVENT]", [JSON_stringify final])]))
      end.
Proof.
  intros Hauth Hjson ref enriched s1.
  destruct (authenticated_passes request Hauth) as (H1 & H2 & H3 & H4).
  unfold handleRequest. rewrite H1, H2, H3, H4, Hjson. cbn [negb].
  destruct (enrich_fields event request timestamp
              (or_else (header request "CF-Connecting-IP") "unknown") eventId)
    as (fields & Hfields & Htype & Hmeta & Htime & _ & _ & _ & _ & Hid).
  fold enriched in Hfields.
  assert (Hheap : heap s1 !! ref = Some (JObj fields)).
  { subst s1. cbn [heap]. by rewrite lookup_insert_eq, Hfields. }
  unfold try_catch.
  rewrite (wbind_returns (alloc _) _ s ref s1 eq_refl).
  rewrite (wbind_returns _ _ s1 _ s1 (validateEvent_object ref fields s1 Hheap)).
  rewrite Htype, Htime. fold (accepted_type event).
  assert (Hvalid : truthy (type_of event) && truthy (JStr timestamp)
                   && accepted_type event
                   = accepted_type event && negb (String.eqb timestamp "")).
  { unfold accepted_type. cbn [truthy].
    destruct (existsb _ validTypes) eqn:Hok.
    - rewrite (valid_type_truthy _ Hok). by rewrite andb_true_r.
    - by rewrite andb_false_r. }
  rewrite Hvalid.
  destruct (accepted_type event && negb (String.eqb timestamp ""));
    [| reflexivity].
  cbn [negb].
  pose proof (handleRequest_securityCheck_object ref fields s1 Hheap) as Hsec.
  destruct (fst (checkSecurityPatterns StringToNumber ArrayToString ref s1))
    as [c |].
  2: { rewrite (wbind_throws _ _ _ _ Hsec). reflexivity. }
  rewrite (wbind_returns _ _ _ _ _ Hsec). cbv zeta.
  rewrite Hfields. cbn [flagged].
  destruct (isSuspicious c).
  - erewrite handleRequest_stores;
      [| cbn [heap]; apply lookup_insert_eq
       | by rewrite !lookup_field_set_field_ne by discriminate ].
    subst s1. cbn [heap console].
    rewrite insert_insert_eq, <- !app_assoc. reflexivity.
  - erewrite handleRequest_stores; [| exact Hheap | exact Hid].
    subst s1. cbn [heap console]. rewrite Hfields, app_nil_l. reflexivity.
Qed.

Lemma outcome_throws {A} (outcome : Completion A) (b : bool) :
  (outcome = TypeError <-> b = true) ->
  match outcome with TypeError => true | Normal _ => false end = b.
Proof.
  intros [Hthrows Hb]. destruct outcome, b; try reflexivity.
  - by specialize (Hb eq_refl).
  - by specialize (Hthrows eq_refl).
Qed.

Lemma classifier_throws event fields s :
  heap s !! event = Some (JObj fields) ->
  let eventType := lookup_field "eventType" fields in
  let metadata := lookup_field "metadata" fields in
  match fst (checkSecurityPatterns StringToNumber ArrayToString event s) with
  | TypeError => true
  | Normal _ => false
  end
  = (strict_equals eventType "overlay_opened"
     && ToPrimitive_throws (optional_member metadata "openCount"))
    || (strict_equals eventType "document_clicked"
        && ToPrimitive_throws
             (optional_member metadata "timeSinceLastClick"))
    || (strict_equals eventType "error"
        && match optional_member metadata "errorMessage" with
           | JBool _ | JNum _ | JObj _ => true
           | _ => false
           end).
Proof.
  intros Hheap.
  rewrite (checkSecurityPatterns_object event fields s Hheap).
  cbv zeta. cbn [fst].
  destruct (strict_equals (lookup_field "eventType" fields) "overlay_opened")
    eqn:H1.
  { apply strict_equals_true in H1. rewrite H1.
    cbn [strict_equals String.eqb Ascii.eqb Bool.eqb andb orb].
    rewrite orb_false_r.
    destruct (greater_than_run
                (optional_member (lookup_field "metadata" fields) "openCount")
                50 s) as [_ Hthrows].
    rewrite <- (outcome_throws _ _ Hthrows).
    by destruct (fst (greater_than _ _ _ _ _)). }
  destruct (strict_equals (lookup_field "eventType" fields) "security_block")
    eqn:H2.
  { apply strict_equals_true in H2. by rewrite H2. }
  destruct (strict_equals (lookup_field "eventType" fields)
                          "document_clicked") eqn:H3.
  { apply strict_equals_true in H3. rewrite H3.
    cbn [strict_equals String.eqb Ascii.eqb Bool.eqb andb orb].
    rewrite orb_false_r.
    destruct (less_than_run
                (optional_member (lookup_field "metadata" fields)
                   "timeSinceLastClick") 100 s) as [_ Hthrows].
    rewrite <- (outcome_throws _ _ Hthrows).
    by destruct (fst (less_than _ _ _ _ _)). }
  destruct (strict_equals (lookup_field "eventType" fields)
                          "sheet_edit_accessed")
    eqn:H4; [apply strict_equals_true in H4; by rewrite H4 |].
  cbn [andb orb].
  destruct (strict_equals (lookup_field "eventType" fields) "error");
    [| reflexivity].
  by destruct (optional_member _ _).
Qed.

(** X17. What an authenticated request is answered.  With a body that
    parses, the status is 400 when the type of the event is not on the
    list of [validateEvent]; 500 when the classifier throws, which it does
    on an event of type [overlay_opened] or [document_clicked] whose
    [metadata.openCount] or [metadata.timeSinceLastClick] cannot be
    converted to a number (an object with an own [toString], or an array
    that holds one), and on an event of type [error] whose
    [metadata.errorMessage] is a number, a boolean or an object; and 200
    in every other case.  No exception leaves the handler. *)
Theorem authenticated_request_status (request : HttpRequest)
    (event : JSValue) (timestamp eventId : string) (s : State) :
  authenticated request ->
  json request = Some event ->
  timestamp <> "" ->
  exists reply,
    fst (handleRequest StringToNumber ArrayToString JSON_stringify request
                       timestamp eventId s) = Normal reply
    /\ status reply
       = if negb (accepted_type event) then 400
         else if classifier_throws_on event then 500
         else 200.
Proof.
  intros Hauth Hjson Htime.
  rewrite (handleRequest_authenticated request event timestamp eventId s
             Hauth Hjson). cbv zeta.
  destruct (String.eqb_spec timestamp "") as [| _]; [done |].
  rewrite andb_true_r.
  destruct (accepted_type event); cbn [negb]; [| by eexists].
  destruct (enrich_fields event request timestamp
              (or_else (header request "CF-Connecting-IP") "unknown") eventId)
    as (fields & Hfields & Htype & Hmeta & _).
  pose proof (classifier_throws
                (fresh (dom (heap s))) fields
                (mkState (<[fresh (dom (heap s)) := JObj fields]> (heap s))
                         (console s))
                (lookup_insert_eq _ _ _)) as Hthrows.
  cbv zeta in Hthrows. rewrite Htype, Hmeta in Hthrows.
  fold (malformed_error event) in Hthrows.
  fold (classifier_throws_on event) in Hthrows.
  rewrite Hfields. rewrite <- Hthrows.
  destruct (fst (checkSecurityPatterns _ _ _ _)); by eexists.
Qed.

Lemma passes_authenticated request :
  String.eqb (method request) "POST" = true ->
  existsb (strict_equals (header request "Origin")) CONFIG_ALLOWED_ORIGINS
  = true ->
  strict_equals (header request "X-API-Key") CONFIG_API_KEY = true ->
  authenticated request.
Proof.
  intros Hmethod Horigin Hkey. repeat split.
  - by apply String.eqb_eq.
  - apply existsb_exists in Horigin as (origin & Hin & Heq).
    apply strict_equals_true in Heq. exists origin.
    split; [| by apply list_elem_of_In].
    unfold header in Heq. by destruct (headers request !! "Origin"); simplify_eq.
  - apply strict_equals_true in Hkey. unfold header in Hkey.
    by destruct (headers request !! "X-API-Key"); simplify_eq.
Qed.

Lemma handleRequest_unauthenticated request timestamp eventId s :
  method request <> "OPTIONS" ->
  ~ authenticated request ->
  exists reply,
    handleRequest StringToNumber ArrayToString JSON_stringify request
                  timestamp eventId s = (Normal reply, s)
    /\ status reply ∈ [405; 403; 401].
Proof.
  intros Hmethod Hanon. unfold handleRequest.
  destruct (String.eqb_spec (method request) "OPTIONS"); [done |].
  destruct (String.eqb (method request) "POST") eqn:Hpost; cbn [negb];
    [| eexists; split; [reflexivity | pick] ].
  destruct (existsb _ CONFIG_ALLOWED_ORIGINS) eqn:Horigin; cbn [negb];
    [| eexists; split; [reflexivity | pick] ].
  destruct (strict_equals (header request "X-API-Key") CONFIG_API_KEY)
    eqn:Hkey; cbn [negb]; [| eexists; split; [reflexivity | pick] ].
  destruct Hanon. by apply passes_authenticated.
Qed.

(** X18. Without the [POST] method, an allowed origin and the API key a
    request (other than the [OPTIONS] preflight) is refused with 405, 403
    or 401 before its body is read, and the worker's state is left as it
    was: nothing is stored and nothing is logged. *)
Theorem unauthenticated_request_refused (request : HttpRequest)
    (timestamp eventId : string) (s : State) :
  method request <> "OPTIONS" ->
  ~ authenticated request ->
  exists reply,
    handleRequest StringToNumber ArrayToString JSON_stringify request
                  timestamp eventId s = (Normal reply, s)
    /\ status reply = (if negb (String.eqb (method request) "POST") then 405
                       else if negb (existsb
                                       (strict_equals
                                          (header request "Origin"))
                                       CONFIG_ALLOWED_ORIGINS) then 403
                       else 401).
Proof.
  intros Hmethod Hanon. unfold handleRequest.
  destruct (String.eqb_spec (method request) "OPTIONS"); [done |].
  destruct (String.eqb (method request) "POST") eqn:Hpost; cbn [negb];
    [| by eexists].
  destruct (existsb _ CONFIG_ALLOWED_ORIGINS) eqn:Horigin; cbn [negb];
    [| by eexists].
  destruct (strict_equals (header request "X-API-Key") CONFIG_API_KEY)
    eqn:Hkey; cbn [negb]; [| by eexists].
  destruct Hanon. by apply passes_authenticated.
Qed.

Lemma authenticated_dec request :
  authenticated request \/ ~ authenticated request.
Proof.
  destruct (String.eqb (method request) "POST") eqn:Hpost.
  2: { right. intros Hauth.
       apply authenticated_passes in Hauth as (_ & ? & _). congruence. }
  destruct (existsb (strict_equals (header request "Origin"))
                    CONFIG_ALLOWED_ORIGINS) eqn:Horigin.
  2: { right. intros Hauth.
       apply authenticated_passes in Hauth as (_ & _ & ? & _). congruence. }
  destruct (strict_equals (header request "X-API-Key") CONFIG_API_KEY)
    eqn:Hkey.
  2: { right. intros Hauth.
       apply authenticated_passes in Hauth as (_ & _ & _ & ?). congruence. }
  left. by apply passes_authenticated.
Qed.

(** X19. The worker accepts no batch of the client.  The body that
    [flushEvents] posts has the keys [events] and [batchId] and no
    [eventType], so the answer is 400 when the request is authenticated
    and 403 or 401 when it is not; the worker logs nothing, and the
    client, which sees a response that is not ok, puts a batch of fewer
    than 100 events back into its queue. *)
Theorem client_batch_never_accepted (request : HttpRequest)
    (events : list JSValue) (batchId : JSValue)
    (timestamp eventId : string) (s : State) :
  method request = "POST" ->
  json request = Some (batch_body events batchId) ->
  exists reply,
    fst (handleRequest StringToNumber ArrayToString JSON_stringify request
                       timestamp eventId s) = Normal reply
    /\ (authenticated request -> status reply = 400)
    /\ response_ok (status reply) = false
    /\ console (snd (handleRequest StringToNumber ArrayToString
                       JSON_stringify request timestamp eventId s))
       = console s
    /\ forall eventsToSend w,
         Z.of_nat (length eventsToSend) < 100 ->
         eventQueue
           (logger (snd (flushEvents_resume eventsToSend
                           (Response (status reply)) w)))
         = eventsToSend ++ eventQueue (logger w).
Proof.
  intros Hmethod Hjson.
  assert (Hrequeue : forall status eventsToSend w,
             response_ok status = false ->
             Z.of_nat (length eventsToSend) < 100 ->
             eventQueue
               (logger (snd (flushEvents_resume eventsToSend
                               (Response status) w)))
             = eventsToSend ++ eventQueue (logger w)).
  { intros status0 eventsToSend w Hok Hsize.
    rewrite flushEvents_resume_eq, Hok. cbn [negb andb snd].
    destruct (Z.ltb_spec (Z.of_nat (length eventsToSend)) 100); [| lia].
    reflexivity. }
  destruct (authenticated_dec request) as [Hauth | Hanon].
  - rewrite (handleRequest_authenticated request _ timestamp eventId s
               Hauth Hjson). cbv zeta.
    change (accepted_type (batch_body events batchId)) with false.
    cbn [andb negb fst snd console].
    eexists. split; [reflexivity |]. cbn [status].
    repeat split. intros eventsToSend w. by apply Hrequeue.
  - destruct (handleRequest_unauthenticated request timestamp eventId s)
      as (reply & Hrun & Hstatus); [by rewrite Hmethod | exact Hanon |].
    rewrite Hrun. exists reply. cbn [fst snd].
    assert (Hok : response_ok (status reply) = false).
    { repeat (apply elem_of_cons in Hstatus as [-> | Hstatus]; [done |]).
      by apply elem_of_nil in Hstatus. }
    repeat split; [done | exact Hok |].
    intros eventsToSend w. by apply Hrequeue.
Qed.

(** X20. What the client cannot forge.  In the event object of an
    accepted request, [timestamp], [clientIP], [userAgent], [referer],
    [country] and [eventId] are those the worker computed, whatever the
    body said under these keys; the reply carries that [eventId]; the
    type of the event is the one of the body.  The object is new, and the
    objects the worker held are as they were. *)
Theorem server_fields_override_body (request : HttpRequest)
    (event : JSValue) (timestamp eventId : string) (s : State)
    (reply : Reply) :
  authenticated request ->
  json request = Some event ->
  fst (handleRequest StringToNumber ArrayToString JSON_stringify request
                     timestamp eventId s) = Normal reply ->
  status reply = 200 ->
  let s' := snd (handleRequest StringToNumber ArrayToString JSON_stringify
                               request timestamp eventId s) in
  payload reply = Success (JStr eventId)
  /\ keeps_objects s s'
  /\ exists ref fields,
       heap s !! ref = None
       /\ heap s' !! ref = Some (JObj fields)
       /\ lookup_field "eventType" fields = type_of event
       /\ lookup_field "timestamp" fields = JStr timestamp
       /\ lookup_field "clientIP" fields
          = or_else (header request "CF-Connecting-IP") "unknown"
       /\ lookup_field "userAgent" fields = header request "User-Agent"
       /\ lookup_field "referer" fields = header request "Referer"
       /\ lookup_field "country" fields = header request "CF-IPCountry"
       /\ lookup_field "eventId" fields = JStr eventId.
Proof.
  intros Hauth Hjson. cbv zeta.
  rewrite (handleRequest_authenticated request event timestamp eventId s
             Hauth Hjson). cbv zeta.
  assert (Hfresh : heap s !! fresh (dom (heap s)) = None)
    by apply not_elem_of_dom_1, is_fresh.
  destruct (negb _); [by intros [= <-] |].
  destruct (fst (checkSecurityPatterns _ _ _ _)) as [c |];
    [| by intros [= <-]].
  cbn [fst snd]. intros [= <-] _. split; [reflexivity |].
  split.
  { intros ref v Hv. cbn [heap]. rewrite lookup_insert_ne; [done |].
    intros <-. congruence. }
  destruct (enrich_fields event request timestamp
              (or_else (header request "CF-Connecting-IP") "unknown") eventId)
    as (fields & -> & Htype & _ & Hrest).
  exists (fresh (dom (heap s))). cbn [heap flagged].
  destruct (isSuspicious c); eexists;
    (split; [exact Hfresh |]); (split; [apply lookup_insert_eq |]);
    rewrite ?lookup_field_set_field_ne by discriminate;
    (split; [exact Htype | exact Hrest]).
Qed.

Lemma pretty_N_go_not_eventType x s :
  s <> "eventType" -> pretty_N_go x s <> "eventType".
Proof.
  revert s. induction (N.lt_wf_0 x) as [x _ IH]; intros s Hs.
  assert (x = 0 \/ 0 < x)%N as [-> | Hpos] by lia.
  - by rewrite pretty_N_go_0.
  - rewrite pretty_N_go_step by done. apply IH.
    { by apply N.div_lt. }
    unfold pretty_N_char. by repeat case_match.
Qed.

Lemma index_not_eventType (i : nat) : pretty i <> "eventType".
Proof.
  unfold pretty, pretty_nat, pretty, pretty_N.
  case_decide; [done |]. by apply pretty_N_go_not_eventType.
Qed.

Lemma lookup_field_indices {A} (key : nat -> string)
    (value : nat -> A -> JSValue) (items : list A) :
  (forall i, key i <> "eventType") ->
  lookup_field "eventType" (imap (fun i x => (key i, value i x)) items)
  = JUndefined.
Proof.
  revert key value. induction items as [| x items IH]; intros key value Hkey;
    [reflexivity |].
  cbn [imap lookup_field].
  destruct (String.eqb_spec "eventType" (key 0%nat)) as [Heq | _].
  { by destruct (Hkey 0%nat). }
  apply (IH (fun i => key (S i)) (fun i => value (S i))).
  intros i. apply Hkey.
Qed.

Lemma accepted_type_object event :
  accepted_type event = true ->
  exists fields type,
    event = JObj fields
    /\ lookup_field "eventType" fields = JStr type
    /\ type ∈ validTypes.
Proof.
  unfold accepted_type, type_of. intros Hok.
  apply existsb_exists in Hok as (type & Hin & Heq).
  apply strict_equals_true in Heq. apply list_elem_of_In in Hin.
  destruct event as [| | b | z | str | items | fields]; try discriminate.
  - cbn [spread] in Heq.
    rewrite (lookup_field_indices pretty
               (fun _ c => JStr (String c EmptyString))) in Heq;
      [discriminate | apply index_not_eventType].
  - cbn [spread] in Heq.
    rewrite (lookup_field_indices pretty (fun _ x => x)) in Heq;
      [discriminate | apply index_not_eventType].
  - by exists fields, type.
Qed.

(** X21. The worker never answers 200 to a request (other than the
    [OPTIONS] preflight) that is not a [POST] from an allowed origin with
    the API key, nor to a body that is not a JSON object whose
    [eventType] is one of the seven strings of [validateEvent]. *)
Theorem accepted_only_when_allowed (request : HttpRequest)
    (timestamp eventId : string) (s : State) (reply : Reply) :
  method request <> "OPTIONS" ->
  fst (handleRequest StringToNumber ArrayToString JSON_stringify request
                     timestamp eventId s) = Normal reply ->
  status reply = 200 ->
  authenticated request
  /\ exists fields type,
       json request = Some (JObj fields)
       /\ lookup_field "eventType" fields = JStr type
       /\ type ∈ validTypes.
Proof.
  intros Hmethod Hreply Hstatus.
  destruct (authenticated_dec request) as [Hauth | Hanon].
  2: { destruct (handleRequest_unauthenticated request timestamp eventId s
                   Hmethod Hanon) as (reply' & Hrun & Hrefused).
       rewrite Hrun in Hreply. injection Hreply as <-.
       rewrite Hstatus in Hrefused.
       repeat (apply elem_of_cons in Hrefused as [? | Hrefused]; [done |]).
       by apply elem_of_nil in Hrefused. }
  split; [exact Hauth |].
  destruct (json request) as [event |] eqn:Hjson.
  2: { destruct (authenticated_passes request Hauth) as (H1 & H2 & H3 & H4).
       unfold handleRequest in Hreply.
       rewrite H1, H2, H3, H4, Hjson in Hreply.
       injection Hreply as <-. discriminate. }
  rewrite (handleRequest_authenticated request event timestamp eventId s
             Hauth Hjson) in Hreply. cbv zeta in Hreply.
  destruct (accepted_type event) eqn:Haccepted.
  2: { injection Hreply as <-. discriminate. }
  destruct (accepted_type_object event Haccepted)
    as (fields & type & -> & Htype & Hin).
  by exists fields, type.
Qed.

End Handler.

Lemma authenticated_request_status_witness :
  exists reply,
    fst (handleRequest (fun _ => None) (fun _ => EmptyString)
           (fun _ => EmptyString)
           (mkHttpRequest "POST" client_headers (Some unconvertible_count))
           "2026-01-01T00:00:00.000Z" "evt_1" empty_state) = Normal reply
    /\ status reply = 500.
Proof.
  apply (authenticated_request_status
           (fun _ => None) (fun _ => EmptyString) (fun _ => EmptyString)
           (mkHttpRequest "POST" client_headers (Some unconvertible_count))
           unconvertible_count
           "2026-01-01T00:00:00.000Z" "evt_1" empty_state).
  - split; [reflexivity |]. split; [| reflexivity].
    exists "https://insscf.clickedu.eu". split; [reflexivity |].
    apply list_elem_of_further, list_elem_of_here.
  - reflexivity.
  - discriminate.
Defined.

Lemma unauthenticated_request_refused_witness :
  exists reply,
    handleRequest (fun _ => None) (fun _ => EmptyString)
           (fun _ => EmptyString)
                  anonymous_request "2026-01-01T00:00:00.000Z" "evt_1"
                  empty_state
    = (Normal reply, empty_state)
    /\ status reply = 403.
Proof.
  apply (unauthenticated_request_refused
           (fun _ => None) (fun _ => EmptyString) (fun _ => EmptyString)
           anonymous_request
           "2026-01-01T00:00:00.000Z" "evt_1" empty_state).
  - discriminate.
  - intros (_ & _ & Hkey). vm_compute in Hkey. discriminate.
Defined.

Lemma client_batch_never_accepted_witness :
  exists reply,
    fst (Worker.handleRequest (fun _ => None) (fun _ => EmptyString)
           (fun _ => EmptyString)
           (Worker.mkHttpRequest "POST" client_headers
              (Some (batch_body [] (Worker.JStr "batch_1000_abc"))))
           "2026-01-01T00:00:00.000Z" "evt_1" empty_state)
    = Worker.Normal reply
    /\ Worker.status reply = 400.
Proof.
  destruct (client_batch_never_accepted
              (fun _ => None) (fun _ => EmptyString) (fun _ => EmptyString)
              (Worker.mkHttpRequest "POST" client_headers
                 (Some (batch_body [] (Worker.JStr "batch_1000_abc"))))
              [] (Worker.JStr "batch_1000_abc")
              "2026-01-01T00:00:00.000Z" "evt_1" empty_state
              eq_refl eq_refl)
    as (reply & Hreply & Hstatus & _).
  exists reply. split; [exact Hreply |]. apply Hstatus.
  split; [reflexivity |]. split; [| reflexivity].
  exists "https://insscf.clickedu.eu". split; [reflexivity |].
  apply list_elem_of_further, list_elem_of_here.
Defined.

Lemma server_fields_override_body_witness :
  let request := Worker.mkHttpRequest "POST" client_headers
                   (Some forged_event) in
  let run := Worker.handleRequest (fun _ => None) (fun _ => EmptyString)
               (fun _ => EmptyString) request
               "2026-01-01T00:00:00.000Z" "evt_1" empty_state in
  exists ref fields,
    Worker.heap (snd run) !! ref = Some (Worker.JObj fields)
    /\ Worker.lookup_field "timestamp" fields
       = Worker.JStr "2026-01-01T00:00:00.000Z"
    /\ Worker.lookup_field "clientIP" fields = Worker.JStr "203.0.113.7"
    /\ Worker.lookup_field "eventId" fields = Worker.JStr "evt_1".
Proof.
  intros request run.
  destruct (server_fields_override_body
              (fun _ => None) (fun _ => EmptyString) (fun _ => EmptyString)
              request forged_event "2026-01-01T00:00:00.000Z" "evt_1"
              empty_state
              (Worker.mkReply 200 (Worker.Success (Worker.JStr "evt_1"))))
    as (_ & _ & ref & fields & _ & Hheap & _ & Htime & Hip & _ & _ & _ & Hid).
  - split; [reflexivity |]. split; [| reflexivity].
    exists "https://insscf.clickedu.eu". split; [reflexivity |].
    apply list_elem_of_further, list_elem_of_here.
  - reflexivity.
  - vm_compute. reflexivity.
  - reflexivity.
  - exists ref, fields. repeat split; assumption.
Defined.

Lemma accepted_only_when_allowed_witness :
  authenticated (Worker.mkHttpRequest "POST" client_headers
                   (Some forged_event))
  /\ exists fields type,
       Some forged_event = Some (Worker.JObj fields)
       /\ Worker.lookup_field "eventType" fields = Worker.JStr type
       /\ type ∈ Worker.validTypes.
Proof.
  apply (accepted_only_when_allowed
           (fun _ => None) (fun _ => EmptyString) (fun _ => EmptyString)
           (Worker.mkHttpRequest "POST" client_headers (Some forged_event))
           "2026-01-01T00:00:00.000Z" "evt_1" empty_state
           (Worker.mkReply 200 (Worker.Success (Worker.JStr "evt_1")))).
  - discriminate.
  - vm_compute. reflexivity.
  - reflexivity.
Defined.

Lemma at_most_one_flag_witness :
  let c := Worker.mkCheck true ["excessive_overlay_opens"] in
  ((Worker.flags c = [] /\ Worker.isSuspicious c = false)
   \/ exists type flag,
        (type, flag) ∈ flag_of_type
        /\ Worker.lookup_field "eventType"
             [("eventType", Worker.JStr "overlay_opened");
              ("metadata", Worker.JObj [("openCount", Worker.JNum 51)])]
           = Worker.JStr type
        /\ Worker.flags c = [flag]
        /\ Worker.isSuspicious c = negb (String.eqb flag "cors_error"))
  /\ (Worker.lookup_field "eventType"
        [("eventType", Worker.JStr "overlay_opened");
         ("metadata", Worker.JObj [("openCount", Worker.JNum 51)])]
      = Worker.JStr "sheet_edit_accessed" ->
      c = Worker.mkCheck true ["sheet_edit_attempt"]).
Proof.
  apply (at_most_one_flag (fun _ => None) (fun _ => EmptyString) 0%nat
           [("eventType", Worker.JStr "overlay_opened");
            ("metadata", Worker.JObj [("openCount", Worker.JNum 51)])]
           worker_state).
  - reflexivity.
  - reflexivity.
Defined.

(** ** The history of hashes *)

Section History.

Variable toISOString : Z -> string.

Lemma last_n_snoc {A} (l : list A) (x : A) :
  (if (Z.of_nat (length (last_n 50 l ++ [x])) >? 50)
   then tail (last_n 50 l ++ [x]) else last_n 50 l ++ [x])
  = last_n 50 (l ++ [x]).
Proof.
  unfold last_n. rewrite !length_app, length_drop. cbn [length].
  destruct (decide (length l < 50)%nat) as [Hshort | Hlong].
  - replace (length l - 50)%nat with 0%nat by lia.
    replace (length l + 1 - 50)%nat with 0%nat by lia.
    destruct (Z.gtb_spec (Z.of_nat (length l - 0 + 1)) 50); [lia |].
    reflexivity.
  - destruct (Z.gtb_spec (Z.of_nat (length l - (length l - 50) + 1)) 50);
      [| lia].
    replace (length l + 1 - 50)%nat with (length l - 50 + 1)%nat by lia.
    rewrite <- drop_drop, drop_app_le by lia.
    by destruct (drop (length l - 50) l ++ [x]).
Qed.

Lemma storeHashInHistory_array hash timestamp history item :
  DataIntegrity.parse_history item
  = Some (Worker.JArr (last_n 50 history)) ->
  DataIntegrity.parse_history
    (DataIntegrity.storeHashInHistory toISOString hash timestamp item)
  = Some (Worker.JArr
            (last_n 50
               (history ++ entries toISOString [(hash, timestamp)]))).
Proof.
  intros Hitem.
  unfold DataIntegrity.storeHashInHistory, entries.
  cbn [negb DataIntegrity.INTEGRITY_CONFIG_storeHashHistory].
  rewrite Hitem, filter_cons, filter_nil. cbn [snd fst].
  destruct (DataIntegrity.valid_time timestamp) eqn:Hvalid; cbn [negb].
  - rewrite decide_True by done. cbn [fmap list_fmap].
    cbv zeta. by rewrite last_n_snoc.
  - rewrite decide_False by done. cbn [fmap list_fmap].
    by rewrite app_nil_r.
Qed.

Lemma entries_cons call calls :
  entries toISOString (call :: calls)
  = entries toISOString [call] ++ entries toISOString calls.
Proof.
  unfold entries. rewrite <- fmap_app. f_equal.
  rewrite !filter_cons, filter_nil. by case_decide.
Qed.

Lemma stores_array calls history item :
  DataIntegrity.parse_history item
  = Some (Worker.JArr (last_n 50 history)) ->
  DataIntegrity.parse_history (stores toISOString calls item)
  = Some (Worker.JArr (last_n 50 (history ++ entries toISOString calls))).
Proof.
  revert history item.
  induction calls as [| [hash timestamp] calls IH]; intros history item Hitem.
  - unfold entries. rewrite filter_nil. cbn [fmap list_fmap stores foldl].
    by rewrite app_nil_r.
  - change (stores toISOString ((hash, timestamp) :: calls) item)
      with (stores toISOString calls
              (DataIntegrity.storeHashInHistory toISOString hash timestamp
                 item)).
    rewrite entries_cons, app_assoc. apply IH.
    by apply storeHashInHistory_array.
Qed.

(** X22. The history holds the last fifty hashes.  Starting from an item
    that parses to an array of at most fifty entries (or from no item),
    after any sequence of calls of [storeHashInHistory] the history read
    by [getHashHistory] is the old entries followed by one entry per call
    with a time a [Date] can hold, in the order of the calls, cut to its
    last fifty. *)
Theorem hash_history_keeps_last_fifty (calls : list (string * Z))
    (old : list Worker.JSValue) (item : DataIntegrity.Item) :
  DataIntegrity.parse_history item = Some (Worker.JArr old) ->
  (length old <= 50)%nat ->
  DataIntegrity.getHashHistory (stores toISOString calls item)
  = Worker.JArr (last_n 50 (old ++ entries toISOString calls)).
Proof.
  intros Hitem Hold. unfold DataIntegrity.getHashHistory.
  rewrite (stores_array calls old item); [reflexivity |].
  rewrite Hitem. unfold last_n.
  by replace (length old - 50)%nat with 0%nat by lia.
Qed.

(** X23. A history that is broken stays broken.  When the item does not
    parse, or parses to a value that is not an array, every call of
    [storeHashInHistory] catches its exception and leaves the item as it
    is, whatever is stored and however often. *)
Theorem broken_history_never_repaired (calls : list (string * Z))
    (item : DataIntegrity.Item) :
  (forall history,
     DataIntegrity.parse_history item <> Some (Worker.JArr history)) ->
  stores toISOString calls item = item.
Proof.
  intros Hbroken.
  induction calls as [| [hash timestamp] calls IH]; [reflexivity |].
  change (stores toISOString ((hash, timestamp) :: calls) item)
    with (stores toISOString calls
            (DataIntegrity.storeHashInHistory toISOString hash timestamp
               item)).
  assert (Hstep : DataIntegrity.storeHashInHistory toISOString hash timestamp
                    item = item).
  { unfold DataIntegrity.storeHashInHistory. cbn [negb
      DataIntegrity.INTEGRITY_CONFIG_storeHashHistory].
    destruct (DataIntegrity.parse_history item) as [[] |] eqn:Hparse;
      try reflexivity.
    by destruct (Hbroken items). }
  by rewrite Hstep.
Qed.

End History.

Lemma hash_history_keeps_last_fifty_witness :
  let calls := (fun i => ("abc", Z.of_nat i)) <$> seq 0 60 in
  DataIntegrity.getHashHistory
    (stores (fun _ => "1970-01-01T00:00:00.000Z") calls DataIntegrity.Absent)
  = Worker.JArr
      (last_n 50 ([] ++ entries (fun _ => "1970-01-01T00:00:00.000Z") calls)).
Proof.
  apply (hash_history_keeps_last_fifty
           (fun _ => "1970-01-01T00:00:00.000Z")
           ((fun i => ("abc", Z.of_nat i)) <$> seq 0 60)
           [] DataIntegrity.Absent).
  - reflexivity.
  - simpl. lia.
Defined.

Lemma broken_history_never_repaired_witness :
  stores (fun _ => "1970-01-01T00:00:00.000Z") [("abc", 0); ("def", 1)]
         (DataIntegrity.Parsed (Worker.JObj []))
  = DataIntegrity.Parsed (Worker.JObj []).
Proof.
  apply (broken_history_never_repaired
           (fun _ => "1970-01-01T00:00:00.000Z") [("abc", 0); ("def", 1)]
           (DataIntegrity.Parsed (Worker.JObj []))).
  intros history. discriminate.
Defined.

(** ** The status display and the event types *)

Lemma showRateLimitStatus_eq w :
  showRateLimitStatus w =
    ((length (stored_attempts overlayLimiter w),
      length (stored_attempts documentLimiter w),
      fst (isLockedOut w)),
     snd (isLockedOut w)).
Proof.
  unfold showRateLimitStatus, bind at 1. rewrite getAttempts_eq.
  unfold bind at 1. rewrite getAttempts_eq.
  unfold bind, ret. by destruct (isLockedOut w).
Qed.

(** X24. The status display is not read-only.  [showRateLimitStatus]
    prints the number of stored attempts of the two limiters as they are
    stored, without pruning, and through its call of [isLockedOut] it
    removes a lockout that has run out together with the violation
    history; in every other state it leaves [localStorage] as it is, and
    it never touches the attempts or the event queue. *)
Theorem showRateLimitStatus_clears_expired_lockout (w : World) :
  let report := fst (showRateLimitStatus w) in
  let w' := snd (showRateLimitStatus w) in
  report.1 = (length (stored_attempts overlayLimiter w),
              length (stored_attempts documentLimiter w))
  /\ attemptItems (localStorage w') = attemptItems (localStorage w)
  /\ logger w' = logger w
  /\ match stored_lockout w with
     | Some lockout =>
         if (now_of w <? lockout_until lockout) then
           localStorage w' = localStorage w
         else
           report.2 = Unlocked
           /\ lockoutItem (localStorage w') = None
           /\ violationsItem (localStorage w') = None
     | None => report.2 = BareFalse /\ localStorage w' = localStorage w
     end.
Proof.
  rewrite showRateLimitStatus_eq, isLockedOut_eq. cbn [fst snd].
  destruct (stored_lockout w) as [lockout |]; [| by repeat split].
  destruct (now_of w <? lockout_until lockout); cbn [fst snd];
    by repeat split.
Qed.

(** X25. The event types of the client and the list of the worker.
    [getEventTypeFromMessage] gives one of five types that
    [validateEvent] accepts, or, for every message that contains none of
    its five phrases, the type [security_event], which is not on the
    worker's list: the message of [resetRateLimits] is one of these. *)
Theorem fallback_type_not_accepted (level message : string) :
  let type := getEventTypeFromMessage level message in
  ((type ∈ validTypes) \/ type = "security_event")
  /\ ("security_event" ∉ validTypes)
  /\ (Forall (fun phrase => includes phrase message = false)
        ["Blocked"; "opened Google Sheets"; "User opened:";
         "Bookmarklet initialized"; "Failed to load"] ->
      type = "security_event")
  /\ getEventTypeFromMessage "info" "Rate limits reset by user"
     = "security_event".
Proof.
  cbv zeta. unfold getEventTypeFromMessage at 1 2 3. split; [| split; [| split]].
  - destruct (includes "Blocked" message);
      [left; repeat first [apply list_elem_of_here
                          | apply list_elem_of_further] |].
    destruct (includes "opened Google Sheets" message);
      [left; repeat first [apply list_elem_of_here
                          | apply list_elem_of_further] |].
    destruct (includes "User opened:" message);
      [left; repeat first [apply list_elem_of_here
                          | apply list_elem_of_further] |].
    destruct (includes "Bookmarklet initialized" message);
      [left; repeat first [apply list_elem_of_here
                          | apply list_elem_of_further] |].
    destruct (includes "Failed to load" message);
      [left; repeat first [apply list_elem_of_here
                          | apply list_elem_of_further] |].
    by right.
  - intros Hin.
    repeat (apply elem_of_cons in Hin as [Heq | Hin]; [discriminate |]).
    by apply elem_of_nil in Hin.
  - intros Hnone.
    repeat (apply Forall_cons in Hnone as [-> Hnone]). reflexivity.
  - vm_compute. reflexivity.
Qed.
